(** * Dependence graph, priorities and list scheduling of Bril traces

    A shallow embedding of [bril-ts/dataflow.ts] (the version that
    materialises bundles into [Group]s) and of the part of [bril-ts/bril.ts]
    it works on, followed by the properties checked against it.

    JavaScript objects are mutable and shared, so the graph is a heap: a
    list of [Node] records addressed by position.  A [Set<Node>] is a list
    of addresses without repetition, in insertion order (the order a
    [for ... of] loop visits it).  A [Map<Ident, _>] is a [gmap]. *)

From stdpp Require Import gmap strings list sorting.
From Stdlib Require Import ZArith Lia.

Open Scope Z_scope.
Open Scope nat_scope.

(** ** The Bril vocabulary ([bril.ts]) *)

Definition Ident := string.

Inductive Type_ := TInt | TBool.

Inductive EffectOpCode := Obr | Ojmp | Oprint | Oret.

Inductive ValueOpCode :=
  | Oadd | Omul | Osub | Odiv | Oid | Onop
  | Oeq | Olt | Ogt | Oge | Ole | Onot | Oand | Oor.

(** [Value = number | boolean]; the code never computes with a value, so
    numbers are kept as integers. *)
Inductive Value := VNumber (n : Z) | VBoolean (b : bool).

Record EffectOperation := mkEffect { e_op : EffectOpCode; e_args : list Ident }.

Record ValueOperation := mkValueOp
  { v_op : ValueOpCode; v_args : list Ident; v_dest : Ident; v_type : Type_ }.

Record Constant := mkConst { c_value : Value; c_dest : Ident; c_type : Type_ }.

(** [ValueOperation | Constant], the element type of [Group.instrs]. *)
Inductive ValueInstruction :=
  | VConst (c : Constant)
  | VOp (v : ValueOperation).

(** [Group], with [conds] as [toGroup] builds it: a list of identifiers.
    An entry is [instr.effect.args[0]], which is [undefined] ([None]) when
    the branch has no argument. *)
Record Group := mkGroup
  { conds : list (option Ident);
    instrs : list ValueInstruction;
    failLabel : Ident }.

(** Modelled from the spec: the declaration of the instruction with
    [op === 'trace'] is missing from [bril.ts].  [toGroup] reads its fields
    [effect] (an effect operation) and [failLabel]; following the spec (a
    guard extracted from a conditional branch) it has no other field, in
    particular neither [dest] nor [args]. *)
Record TraceGuard := mkTrace { effect : EffectOperation; t_failLabel : Ident }.

(** [Instruction = Group | MicroInstruction], plus the guard. *)
Inductive Instruction :=
  | IGroup (g : Group)
  | IEffect (e : EffectOperation)
  | IValue (v : ValueOperation)
  | IConst (c : Constant)
  | ITrace (t : TraceGuard).

(** ['conds' in instr] *)
Definition isGroup (i : Instruction) : bool :=
  match i with IGroup _ => true | _ => false end.

(** ['dest' in instr], with the destination when it is there. *)
Definition instr_dest (i : Instruction) : option Ident :=
  match i with
  | IValue v => Some (v_dest v)
  | IConst c => Some (c_dest c)
  | _ => None
  end.

(** ['args' in instr], with the arguments when they are there. *)
Definition instr_args (i : Instruction) : option (list Ident) :=
  match i with
  | IEffect e => Some (e_args e)
  | IValue v => Some (v_args v)
  | _ => None
  end.

Definition hasDest (i : Instruction) : bool :=
  match instr_dest i with Some _ => true | None => false end.

(** A value instruction seen as an instruction again. *)
Definition vi_instr (v : ValueInstruction) : Instruction :=
  match v with VConst c => IConst c | VOp o => IValue o end.

(** ** Results of code that may throw *)

Inductive outcome (A : Type) :=
  | Ok (a : A)
  | Throw (msg : string).
Arguments Ok {A} a.
Arguments Throw {A} msg.

(** ** [toGroup] *)

(** The [for] loop of [toGroup], carrying the three locals. *)
Fixpoint toGroup_loop (trace : list Instruction)
    (cs : list (option Ident)) (vs : list ValueInstruction) (fl : Ident)
    : outcome Group :=
  match trace with
  | [] => Ok {| conds := cs; instrs := vs; failLabel := fl |}
  | instr :: rest =>
    match instr with
    | IGroup _ => Throw "Cannot nest groups"
    | ITrace t =>
      let cs' :=
        match e_op (effect t) with
        | Obr => cs ++ [head (e_args (effect t))]
        | _ => cs
        end in
      toGroup_loop rest cs' vs (t_failLabel t)
    | IValue v => toGroup_loop rest cs (vs ++ [VOp v]) fl
    | IConst c => toGroup_loop rest cs (vs ++ [VConst c]) fl
    | IEffect _ => toGroup_loop rest cs vs fl
    end
  end.

Definition toGroup (trace : list Instruction) : outcome Group :=
  toGroup_loop trace [] [] "".

(** What the three fields are expected to hold, read off a bundle. *)

Definition asValue (i : Instruction) : option ValueInstruction :=
  match i with
  | IValue v => Some (VOp v)
  | IConst c => Some (VConst c)
  | _ => None
  end.

Definition guardCond (i : Instruction) : option (option Ident) :=
  match i with
  | ITrace t =>
    match e_op (effect t) with
    | Obr => Some (head (e_args (effect t)))
    | _ => None
    end
  | _ => None
  end.

Definition guardFail (i : Instruction) : option Ident :=
  match i with ITrace t => Some (t_failLabel t) | _ => None end.

Definition lastFailLabel (bundle : list Instruction) : Ident :=
  default "" (last (omap guardFail bundle)).

(** ** Nodes and the heap *)

(** The address of a node in the heap. *)
Abbreviation ref := nat (only parsing).

(** [bril.Instruction | "start"] *)
Inductive NodeInstr := Start | Instr (i : Instruction).

Record Node := mkNode
  { succs : list ref;
    preds : list ref;
    instr : NodeInstr;
    priority : option Z }.

Definition startNode : Node :=
  {| succs := []; preds := []; instr := Start; priority := None |}.

#[global] Instance Node_inhabited : Inhabited Node := populate startNode.

(** [Set.add]: the element goes last unless it is already there. *)
Definition set_add (x : ref) (s : list ref) : list ref :=
  if decide (x ∈ s) then s else s ++ [x].

(** [Set.delete] *)
Definition set_delete (x : ref) (s : list ref) : list ref :=
  filter (λ y, y ≠ x) s.

Definition with_succs (f : list ref → list ref) (n : Node) : Node :=
  {| succs := f (succs n); preds := preds n; instr := instr n;
     priority := priority n |}.

Definition with_preds (f : list ref → list ref) (n : Node) : Node :=
  {| succs := succs n; preds := f (preds n); instr := instr n;
     priority := priority n |}.

Definition with_priority (p : option Z) (n : Node) : Node :=
  {| succs := succs n; preds := preds n; instr := instr n; priority := p |}.

(** [p.succs.add(c)] *)
Definition add_succ (p c : ref) (h : list Node) : list Node :=
  alter (with_succs (set_add c)) p h.

(** [c.preds.add(p)] *)
Definition add_pred (c p : ref) (h : list Node) : list Node :=
  alter (with_preds (set_add p)) c h.

(** [p.succs.add(c); c.preds.add(p);] *)
Definition add_edge (p c : ref) (h : list Node) : list Node :=
  add_pred c p (add_succ p c h).

(** A run of [add_edge] into the same node [c]. *)
Definition add_edges (c : ref) (h : list Node) (ps : list ref) : list Node :=
  foldl (λ h p, add_edge p c h) h ps.

(** ** [PQueue] and [nodeCompare] *)

(** Truthiness of [priority]: [undefined] and [0] are falsy. *)
Definition truthy (p : option Z) : bool :=
  match p with Some n => negb (n =? 0)%Z | None => false end.

Definition nodeCompare (t1 t2 : Node) : bool :=
  if truthy (priority t1) && truthy (priority t2) then
    match priority t1, priority t2 with
    | Some a, Some b => (a <? b)%Z
    | _, _ => false
    end
  else
    match priority t1 with Some _ => true | None => false end.

(** [nodeCompare] on the nodes two addresses stand for. *)
Definition byPriority (h : list Node) (a b : ref) : bool :=
  nodeCompare (h !!! a) (h !!! b).

(** The scan of [PQueue.next]; [best] is [None] for [undefined] (an item
    is a node object, hence truthy). *)
Fixpoint next_scan (compare : ref → ref → bool) (best : option ref)
    (items : list ref) : option ref :=
  match items with
  | [] => best
  | item :: rest =>
    match best with
    | None => next_scan compare (Some item) rest
    | Some b =>
      if compare b item then next_scan compare (Some item) rest
      else next_scan compare (Some b) rest
    end
  end.

(** [PQueue.next]: the chosen item and the set that is left. *)
Definition PQueue_next (compare : ref → ref → bool) (t : list ref)
    : option ref * list ref :=
  match next_scan compare None t with
  | Some b => (Some b, set_delete b t)
  | None => (None, t)
  end.

(** [subset(s1, s2)] *)
Fixpoint subset (s1 s2 : list ref) : bool :=
  match s1 with
  | [] => true
  | elem :: rest => if bool_decide (elem ∈ s2) then subset rest s2 else false
  end.

(** ** [dataflow] *)

Record DF := mkDF
  { heap : list Node;
    written : gmap Ident ref;
    read : gmap Ident (list ref) }.

(** The start node is allocated first, at address 0; the node of the
    [i]-th instruction (from 0) is allocated at address [i + 1]. *)
Definition startRef : ref := 0.

Definition newNode (i : Instruction) : Node :=
  {| succs := []; preds := []; instr := Instr i; priority := None |}.

Definition addRead (ident : Ident) (nd : ref) (rd : gmap Ident (list ref))
    : gmap Ident (list ref) :=
  <[ident := set_add nd (default [] (rd !! ident))]> rd.

(** Allocation of [currNode] and [startNode.succs.add(currNode)]. *)
Definition alloc_stage (i : Instruction) (st : DF) : DF :=
  {| heap := add_succ startRef (length (heap st)) (heap st ++ [newNode i]);
     written := written st;
     read := read st |}.

(** The [if ("dest" in instr)] block. *)
Definition write_stage (cur : ref) (i : Instruction) (st : DF) : DF :=
  match instr_dest i with
  | Some d =>
    {| heap :=
         match read st !! d with
         | Some parent => foldl (λ h nd, add_edge nd cur h) (heap st) parent
         | None => heap st
         end;
       written := <[d := cur]> (written st);
       read := read st |}
  | None => st
  end.

(** One round of the loop over [instr.args]. *)
Definition read_arg (cur : ref) (st : DF) (arg : Ident) : DF :=
  {| heap :=
       match written st !! arg with
       | Some parent => add_edge parent cur (heap st)
       | None => heap st
       end;
     written := written st;
     read := addRead arg cur (read st) |}.

(** The [if ("args" in instr)] block. *)
Definition read_stage (cur : ref) (i : Instruction) (st : DF) : DF :=
  match instr_args i with
  | Some args => foldl (read_arg cur) st args
  | None => st
  end.

Definition dataflow_step (st : DF) (i : Instruction) : DF :=
  let cur := length (heap st) in
  read_stage cur i (write_stage cur i (alloc_stage i st)).

Definition dataflow_init : DF :=
  {| heap := [startNode]; written := ∅; read := ∅ |}.

Definition dataflow_state (instrs : list Instruction) : DF :=
  foldl dataflow_step dataflow_init instrs.

(** [dataflow] returns [startNode]: here the heap, in which the start node
    is at [startRef]. *)
Definition dataflow (instrs : list Instruction) : list Node :=
  heap (dataflow_state instrs).

(** *** What the graph is expected to hold *)

(** Does [i] list [X] among its arguments? *)
Definition readsB (X : Ident) (i : Instruction) : bool :=
  match instr_args i with
  | Some args => bool_decide (X ∈ args)
  | None => false
  end.

(** Is [X] the destination of [i]? *)
Definition writesB (X : Ident) (i : Instruction) : bool :=
  match instr_dest i with
  | Some d => bool_decide (d = X)
  | None => false
  end.

(** The addresses, in trace order, of the nodes of the instructions of
    [tr] that satisfy [P], the node of the first one being at [k]. *)
Fixpoint nodesWhere (P : Instruction → bool) (k : ref)
    (tr : list Instruction) : list ref :=
  match tr with
  | [] => []
  | i :: rest =>
    if P i then k :: nodesWhere P (S k) rest else nodesWhere P (S k) rest
  end.

Definition readers (X : Ident) (tr : list Instruction) : list ref :=
  nodesWhere (readsB X) 1 tr.

Definition writers (X : Ident) (tr : list Instruction) : list ref :=
  nodesWhere (writesB X) 1 tr.

(** The shape of a heap that [dataflow] has built: the start node at 0
    lists every other node; a dependence edge is recorded at both ends;
    and an edge never points backwards. *)
Record graph_ok (h : list Node) : Prop := mkGraphOk
  { g_len : 1 ≤ length h;
    g_start_succs : succs (h !!! 0) = seq 1 (length h - 1);
    g_start_preds : preds (h !!! 0) = [];
    g_start_instr : instr (h !!! 0) = Start;
    g_sym : ∀ i j, 1 ≤ i < length h → j < length h →
              (j ∈ succs (h !!! i) ↔ i ∈ preds (h !!! j));
    g_preds_le : ∀ i j, j < length h → i ∈ preds (h !!! j) → 1 ≤ i ≤ j;
    g_succs_lt : ∀ i j, i < length h → j ∈ succs (h !!! i) → j < length h }.

(** The state of [dataflow] after the instructions [tr]. *)
Record df_ok (tr : list Instruction) (st : DF) : Prop := mkDfOk
  { df_len : length (heap st) = S (length tr);
    df_graph : graph_ok (heap st);
    df_instr : ∀ j i, tr !! j = Some i → instr (heap st !!! S j) = Instr i;
    df_read : ∀ X, default [] (read st !! X) = readers X tr;
    df_written : ∀ X, written st !! X = last (writers X tr);
    df_self : ∀ j, j ∈ preds (heap st !!! j) →
                ∃ i X, tr !! (j - 1) = Some i ∧ instr_dest i = Some X
                       ∧ readsB X i = true }.

(** The two blocks of the loop body, as runs of [add_edge]. *)

Definition pendingReaders (i : Instruction) (st : DF) : list ref :=
  match instr_dest i with
  | Some d => default [] (read st !! d)
  | None => []
  end.

Definition argWriters (i : Instruction) (st : DF) : list ref :=
  omap (λ a, written st !! a) (default [] (instr_args i)).

(** ** [assignDagPriority] *)

(** The recursion follows [succs] and does not terminate on a cyclic
    graph; [fuel] bounds its depth and [None] means it ran out.
    [visitChild] is one round of the loop over [dag.succs]. *)
Definition visitChild (recur : list Node → ref → option (list Node * Z))
    (acc : option (list Node * Z)) (nd : ref) : option (list Node * Z) :=
  match acc with
  | None => None
  | Some (h1, maxDepth) =>
    match recur h1 nd with
    | None => None
    | Some (h2, d) => Some (h2, Z.max maxDepth d)
    end
  end.

Fixpoint assignDagPriority (fuel : nat) (h : list Node) (dag : ref)
    : option (list Node * Z) :=
  match fuel with
  | O => None
  | S fuel' =>
    match foldl (visitChild (assignDagPriority fuel')) (Some (h, 0%Z))
                (succs (h !!! dag)) with
    | None => None
    | Some (h', maxDepth) =>
      Some (alter (with_priority (Some (maxDepth + 1)%Z)) dag h',
            (maxDepth + 1)%Z)
    end
  end.

(** *** What the priorities are expected to be *)

(** The greatest of the priorities of the nodes [l] in [h], 0 when there
    is none ([maxDepth] at the end of the loop). *)
Definition maxPriority (h : list Node) (l : list ref) : Z :=
  foldl (λ m nd, Z.max m (default 0%Z (priority (h !!! nd)))) 0%Z l.

(** The height of a node, unfolded [fuel] levels deep. *)
Fixpoint height (fuel : nat) (h : list Node) (n : ref) : Z :=
  match fuel with
  | O => 0%Z
  | S fuel' =>
    (foldl (λ m nd, Z.max m (height fuel' h nd)) 0 (succs (h !!! n)) + 1)%Z
  end.

(** The height of [n] in an acyclic graph ranked by [rank]. *)
Definition heightOf (rank : ref → nat) (h : list Node) (n : ref) : Z :=
  height (S (rank n)) h n.

(** The priority of [k] in [h] is its height in [h0]. *)
Definition settled (rank : ref → nat) (h0 h : list Node) (k : ref) : Prop :=
  priority (h !!! k) = Some (heightOf rank h0 k).

(** [chain h n l]: [l] is a chain of dependence successors that starts at
    [n]. *)
Inductive chain (h : list Node) : ref → list ref → Prop :=
  | chain_one n : chain h n [n]
  | chain_cons n m l :
      m ∈ succs (h !!! n) → chain h m l → chain h n (n :: l).

(** [n] can be reached from [dag] along successor edges. *)
Definition reachable (h : list Node) (dag n : ref) : Prop :=
  rtc (λ a b, b ∈ succs (h !!! a)) dag n.

(** Two heaps that differ in priorities only. *)
Definition same_graph (h h' : list Node) : Prop :=
  length h' = length h
  ∧ ∀ k, succs (h' !!! k) = succs (h !!! k)
       ∧ preds (h' !!! k) = preds (h !!! k)
       ∧ instr (h' !!! k) = instr (h !!! k).

(** *** Sample traces *)

(** [const x = 1; const y = 2; add z = x y] *)
Definition scenarioA : list Instruction :=
  [IConst (mkConst (VNumber 1) "x" TInt);
   IConst (mkConst (VNumber 2) "y" TInt);
   IValue (mkValueOp Oadd ["x"; "y"] "z" TInt)].

(** [const x = 1; print x; const x = 2] *)
Definition scenarioC : list Instruction :=
  [IConst (mkConst (VNumber 1) "x" TInt);
   IEffect (mkEffect Oprint ["x"]);
   IConst (mkConst (VNumber 2) "x" TInt)].

(** ** [listSchedule] *)

(** The locals of [listSchedule].  [currentNodes] and [bundles] are history
    variables: they record which node each instruction of [currentGroup]
    and of each finished bundle came from, and nothing reads them. *)
Record Sched := mkSched
  { queue : list ref;
    scheduled : list ref;
    toUpdate : list ref;
    currentGroup : list Instruction;
    schedule : list Group;
    currentNodes : list ref;
    bundles : list (list ref) }.

(** The queue is initialised from [dag.succs]. *)
Definition initQueue (h : list Node) (dag : ref) : list ref :=
  foldl (λ q nd, if decide (length (preds (h !!! nd)) = 0) then set_add nd q else q)
        [] (succs (h !!! dag)).

Definition sched_init (h : list Node) (dag : ref) : Sched :=
  {| queue := initQueue h dag; scheduled := []; toUpdate := [];
     currentGroup := []; schedule := [];
     currentNodes := []; bundles := [] |}.

(** [node && node.instr !== "start"] *)
Definition candidate (h : list Node) (node : option ref)
    : option (ref * Instruction) :=
  match node with
  | Some n =>
    match instr (h !!! n) with
    | Instr i => Some (n, i)
    | Start => None
    end
  | None => None
  end.

(** The loop over [node.succs] after [node] was scheduled. *)
Definition releaseChildren (h : list Node) (sched : list ref)
    (children : list ref) (upd : list ref) : list ref :=
  foldl (λ u child,
           if subset (preds (h !!! child)) sched then set_add child u else u)
        upd children.

(** [valid] accepted [node]: it joins the bundle, and its successors whose
    predecessors are now all scheduled are set aside for the next round. *)
Definition acceptNode (h : list Node) (n : ref) (i : Instruction)
    (q : list ref) (st : Sched) : Sched :=
  {| queue := q;
     scheduled := set_add n (scheduled st);
     toUpdate :=
       releaseChildren h (set_add n (scheduled st)) (succs (h !!! n))
                       (toUpdate st);
     currentGroup := currentGroup st ++ [i];
     schedule := schedule st;
     currentNodes := currentNodes st ++ [n];
     bundles := bundles st |}.

(** [valid] refused [node]: it is set aside for the next round. *)
Definition deferNode (n : ref) (q : list ref) (st : Sched) : Sched :=
  {| queue := q;
     scheduled := scheduled st;
     toUpdate := set_add n (toUpdate st);
     currentGroup := currentGroup st;
     schedule := schedule st;
     currentNodes := currentNodes st;
     bundles := bundles st |}.

(** The loop that moves [toUpdate] into the queue. *)
Definition mergeQueue (q upd : list ref) : list ref :=
  foldl (λ q item, set_add item q) q upd.

(** The bundle is closed as the Group [g]; a new one starts. *)
Definition closeBundle (g : Group) (q' : list ref) (st : Sched) : Sched :=
  {| queue := q';
     scheduled := scheduled st;
     toUpdate := [];
     currentGroup := [];
     schedule := schedule st ++ [g];
     currentNodes := [];
     bundles := bundles st ++ [currentNodes st] |}.

(** One turn of [while (true)]: the next state, or the final result. *)
Definition sched_step (h : list Node)
    (valid : list Instruction → Instruction → bool) (st : Sched)
    : Sched + outcome (list Group * list (list ref)) :=
  let '(node, q) := PQueue_next (byPriority h) (queue st) in
  match candidate h node with
  | Some (n, i) =>
    if valid (currentGroup st) i then inl (acceptNode h n i q st)
    else inl (deferNode n q st)
  | None =>
    match toGroup (currentGroup st) with
    | Throw msg => inr (Throw msg)
    | Ok g =>
      match mergeQueue q (toUpdate st) with
      | [] => inr (Ok (schedule st ++ [g], bundles st ++ [currentNodes st]))
      | q' => inl (closeBundle g q' st)
      end
    end
  end.

(** [while (true)], at most [fuel] turns; [None] when they do not suffice. *)
Fixpoint sched_loop (fuel : nat) (h : list Node)
    (valid : list Instruction → Instruction → bool) (st : Sched)
    : option (outcome (list Group * list (list ref))) :=
  match fuel with
  | O => None
  | S fuel' =>
    match sched_step h valid st with
    | inl st' => sched_loop fuel' h valid st'
    | inr r => Some r
    end
  end.

(** The run with its history: the schedule and, bundle by bundle, the
    nodes that were put in it. *)
Definition listSchedule_run (fuel : nat) (h : list Node) (dag : ref)
    (valid : list Instruction → Instruction → bool)
    : option (outcome (list Group * list (list ref))) :=
  sched_loop fuel h valid (sched_init h dag).

Definition outcome_map {A B} (f : A → B) (o : outcome A) : outcome B :=
  match o with Ok a => Ok (f a) | Throw m => Throw m end.

(** [listSchedule]: what the caller gets. *)
Definition listSchedule (fuel : nat) (h : list Node) (dag : ref)
    (valid : list Instruction → Instruction → bool)
    : option (outcome (list Group)) :=
  outcome_map fst <$> listSchedule_run fuel h dag valid.

(** The instruction carried by a node that is not the start node. *)
Definition instrOf (h : list Node) (r : ref) : option Instruction :=
  match instr (h !!! r) with Instr i => Some i | Start => None end.

(** Two states that agree on the locals of [listSchedule], whatever their
    history variables hold. *)
Definition same_locals (st1 st2 : Sched) : Prop :=
  queue st1 = queue st2 ∧ scheduled st1 = scheduled st2
  ∧ toUpdate st1 = toUpdate st2 ∧ currentGroup st1 = currentGroup st2
  ∧ schedule st1 = schedule st2.

(** *** What holds at every turn of the scheduling loop *)

(** Bundle [b] of nodes was materialised as the Group [g]. *)
Definition groupOf (h : list Node) (b : list ref) (g : Group) : Prop :=
  toGroup (omap (instrOf h) b) = Ok g.

(** In the list of bundles [bs], every predecessor of a node of a bundle
    is in a bundle of smaller index. *)
Definition preds_earlier (h : list Node) (bs : list (list ref)) : Prop :=
  ∀ k b x p, bs !! k = Some b → x ∈ b → p ∈ preds (h !!! x) →
    ∃ k' b', k' < k ∧ bs !! k' = Some b' ∧ p ∈ b'.

Record sched_inv (h : list Node) (st : Sched) : Prop := mkSchedInv
  { si_q_nodup : NoDup (queue st);
    si_u_nodup : NoDup (toUpdate st);
    si_s_nodup : NoDup (scheduled st);
    si_q_range : ∀ x, x ∈ queue st → 1 ≤ x < length h;
    si_u_range : ∀ x, x ∈ toUpdate st → 1 ≤ x < length h;
    si_s_range : ∀ x, x ∈ scheduled st → 1 ≤ x < length h;
    si_q_s : ∀ x, x ∈ queue st → x ∉ scheduled st;
    si_u_s : ∀ x, x ∈ toUpdate st → x ∉ scheduled st;
    si_q_u : ∀ x, x ∈ queue st → x ∉ toUpdate st;
    si_hist : scheduled st = concat (bundles st) ++ currentNodes st;
    si_group : currentGroup st = omap (instrOf h) (currentNodes st);
    si_sched : Forall2 (groupOf h) (bundles st) (schedule st);
    si_q_ready : ∀ x, x ∈ queue st → preds (h !!! x) ⊆ concat (bundles st);
    si_u_ready : ∀ x, x ∈ toUpdate st → preds (h !!! x) ⊆ scheduled st;
    si_cur_ready :
      ∀ x, x ∈ currentNodes st → preds (h !!! x) ⊆ concat (bundles st);
    si_earlier : preds_earlier h (bundles st);
    si_complete :
      ∀ x, 1 ≤ x < length h → preds (h !!! x) ⊆ scheduled st →
        x ∈ queue st ∨ x ∈ toUpdate st ∨ x ∈ scheduled st }.

(** What the result of a run satisfies. *)
Record sched_final (h : list Node) (r : list Group * list (list ref))
    : Prop := mkSchedFinal
  { sf_groups : Forall2 (groupOf h) r.2 r.1;
    sf_nodup : NoDup (concat r.2);
    sf_range : ∀ x, x ∈ concat r.2 → 1 ≤ x < length h;
    sf_earlier : preds_earlier h r.2;
    sf_complete :
      ∀ x, 1 ≤ x < length h → preds (h !!! x) ⊆ concat r.2 → x ∈ concat r.2 }.

(** The number of turns left is bounded by this measure. *)
Definition sched_measure (h : list Node) (st : Sched) : nat :=
  (length h - 1 - length (scheduled st)) * (length h + 1)
  + length (queue st)
  + match currentGroup st with [] => 0 | _ => length h end.

(** *** Further notions used in the properties *)

(** The priority of the node at [y], 0 when it has none. *)
Definition prioOf (h : list Node) (y : ref) : Z :=
  default 0%Z (priority (h !!! y)).

(** Every instruction of [g] was accepted by [valid] against the
    instructions before it in [g]. *)
Definition validated (valid : list Instruction → Instruction → bool)
    (g : list Instruction) : Prop :=
  ∀ pre i post, g = pre ++ i :: post → valid pre i = true.

(** [const i = 0; add i = i one; id y = i], with an instruction that reads
    its own destination. *)
Definition scenarioLoop : list Instruction :=
  [IConst (mkConst (VNumber 0) "i" TInt);
   IValue (mkValueOp Oadd ["i"; "one"] "i" TInt);
   IValue (mkValueOp Oid ["i"] "y" TInt)].

(** A [valid] that lets one instruction into a bundle and no more. *)
Definition oneAtATime (g : list Instruction) (i : Instruction) : bool :=
  match g with [] => true | _ => false end.

(** ** The earlier version of [dataflow.ts]

    The file also holds an earlier [nodeCompare] and an earlier [dataflow],
    with one map [seen] of writers, no anti-dependence edges, and nodes
    for the instructions with a destination only. *)

Module Prior.

Definition nodeCompare (t1 t2 : Node) : bool :=
  if truthy (priority t1) && truthy (priority t2) then
    match priority t1, priority t2 with
    | Some a, Some b => (b <? a)%Z
    | _, _ => false
    end
  else
    match priority t1 with Some _ => true | None => false end.

Definition byPriority (h : list Node) (a b : ref) : bool :=
  nodeCompare (h !!! a) (h !!! b).

Record DF := mkDF
  { heap : list Node;
    seen : gmap Ident ref }.

(** One round of the loop over [instr.args]; [seen] does not change in
    the loop. *)
Definition read_arg (seen : gmap Ident ref) (cur : ref) (h : list Node)
    (arg : Ident) : list Node :=
  match seen !! arg with
  | Some parent => add_edge parent cur h
  | None => h
  end.

(** The body of the loop over [instrs]: an instruction without [dest] is
    passed over. *)
Definition dataflow_step (st : DF) (i : Instruction) : DF :=
  match instr_dest i with
  | Some d =>
    let cur := length (heap st) in
    let h1 := heap st ++ [newNode i] in
    let h2 :=
      match instr_args i with
      | Some args => foldl (read_arg (seen st) cur) h1 args
      | None => h1
      end in
    {| heap := add_succ startRef cur h2;
       seen := <[d := cur]> (seen st) |}
  | None => st
  end.

Definition dataflow_init : DF := {| heap := [startNode]; seen := ∅ |}.

Definition dataflow_state (instrs : list Instruction) : DF :=
  foldl dataflow_step dataflow_init instrs.

Definition dataflow (instrs : list Instruction) : list Node :=
  heap (dataflow_state instrs).

(** The state after the instructions [tr]; only those with a destination,
    [filter hasDest tr], have a node. *)
Record df_ok (tr : list Instruction) (st : DF) : Prop := mkDfOk
  { p_len : length (heap st) = S (length (filter (λ i, hasDest i) tr));
    p_graph : graph_ok (heap st);
    p_instr : ∀ j i, filter (λ i, hasDest i) tr !! j = Some i →
                instr (heap st !!! S j) = Instr i;
    p_seen : ∀ X, seen st !! X
                  = last (writers X (filter (λ i, hasDest i) tr));
    p_forward : ∀ p j, p ∈ preds (heap st !!! j) → p < j }.

End Prior.

(** * Properties *)

(** ** Sets as lists *)

Section set_facts.
Implicit Types (x y : ref) (s : list ref).

Lemma elem_of_set_add x y s : x ∈ set_add y s ↔ x = y ∨ x ∈ s.
Proof.
  unfold set_add. case_decide.
  - split; [by right | intros [-> | ?]; done].
  - rewrite elem_of_app, list_elem_of_singleton. tauto.
Qed.

Lemma NoDup_set_add y s : NoDup s → NoDup (set_add y s).
Proof.
  intros Hs. unfold set_add. case_decide; [done |].
  apply NoDup_app. split_and!; [done | | apply NoDup_singleton].
  intros z Hz Hz'. apply list_elem_of_singleton in Hz'. by subst.
Qed.

Lemma set_add_fresh y s : y ∉ s → set_add y s = s ++ [y].
Proof. intros. unfold set_add. by rewrite decide_False. Qed.

Lemma set_add_old y s : y ∈ s → set_add y s = s.
Proof. intros. unfold set_add. by rewrite decide_True. Qed.

Lemma elem_of_set_delete x y s : x ∈ set_delete y s ↔ x ≠ y ∧ x ∈ s.
Proof. unfold set_delete. by rewrite list_elem_of_filter. Qed.

Lemma NoDup_set_delete y s : NoDup s → NoDup (set_delete y s).
Proof. apply NoDup_filter. Qed.

Lemma subset_spec s1 s2 : subset s1 s2 = true ↔ s1 ⊆ s2.
Proof.
  induction s1 as [| a s1 IH]; simpl.
  - split; [intros _ z Hz; by apply not_elem_of_nil in Hz | done].
  - case_bool_decide as Ha.
    + rewrite IH. split.
      * intros Hs z Hz. apply elem_of_cons in Hz as [-> | Hz]; auto.
      * intros Hs z Hz. apply Hs. by right.
    + split; [done |]. intros Hs. destruct Ha. apply Hs. by left.
Qed.
End set_facts.

(** ** [toGroup] *)

Lemma toGroup_loop_spec bundle cs vs fl :
  toGroup_loop bundle cs vs fl =
    if existsb isGroup bundle then Throw "Cannot nest groups"
    else Ok {| conds := cs ++ omap guardCond bundle;
               instrs := vs ++ omap asValue bundle;
               failLabel := default fl (last (omap guardFail bundle)) |}.
Proof.
  revert cs vs fl.
  induction bundle as [| i rest IH]; intros cs vs fl; simpl.
  - by rewrite !app_nil_r.
  - destruct i as [g | e | v | c | t]; simpl; [done | rewrite IH ..];
      destruct (existsb isGroup rest); try done.
    + by rewrite <- app_assoc.
    + by rewrite <- app_assoc.
    + f_equal. f_equal.
      * destruct (e_op (effect t)); simpl; try done. by rewrite <- app_assoc.
      * rewrite last_cons. unfold omap.
        by destruct (last (list_omap _ _ guardFail rest)).
Qed.

Lemma omap_asValue_filter (bundle : list Instruction) :
  vi_instr <$> omap asValue bundle = filter (λ i, hasDest i) bundle.
Proof.
  induction bundle as [| i rest IH]; [done |].
  rewrite filter_cons.
  destruct i as [g | e | v | c | t]; simpl; try exact IH; f_equal; exact IH.
Qed.

Lemma existsb_isGroup_false (bundle : list Instruction) :
  existsb isGroup bundle = false ↔ ∀ i, i ∈ bundle → isGroup i = false.
Proof.
  induction bundle as [| i rest IH]; simpl.
  - split; [intros _ i Hi; by apply not_elem_of_nil in Hi | done].
  - rewrite orb_false_iff, IH. split.
    + intros [Hi Hr] j Hj. apply elem_of_cons in Hj as [-> | Hj]; auto.
    + intros H. split; [apply H; by left | intros j Hj; apply H; by right].
Qed.

Lemma existsb_isGroup_true (bundle : list Instruction) :
  existsb isGroup bundle = true ↔ ∃ g, IGroup g ∈ bundle.
Proof.
  rewrite existsb_exists. split.
  - intros ([g | | | |] & Hin & Hg); try done.
    exists g. by apply list_elem_of_In.
  - intros [g Hg]. exists (IGroup g). split; [by apply list_elem_of_In | done].
Qed.

(** C7. On a bundle that holds no Group, [toGroup] returns a Group whose
    [instrs] are exactly the instructions of the bundle that have a
    destination (constants and value operations, so no effect
    instruction), in the order met; whose [conds] are the first arguments
    of the guards whose effect is a [br], in the order met; and whose
    [failLabel] is that of the last guard of the bundle, or the empty
    string when the bundle has no guard. *)
Theorem toGroup_fields (bundle : list Instruction) :
  (∀ i, i ∈ bundle → isGroup i = false) →
  ∃ g, toGroup bundle = Ok g
     ∧ vi_instr <$> instrs g = filter (λ i, hasDest i) bundle
     ∧ conds g = omap guardCond bundle
     ∧ failLabel g = lastFailLabel bundle.
Proof.
  intros Hfree. apply existsb_isGroup_false in Hfree.
  unfold toGroup. rewrite toGroup_loop_spec, Hfree.
  eexists. split; [reflexivity |]. simpl.
  split; [apply omap_asValue_filter | done].
Qed.

Lemma toGroup_fields_witness :
  ∃ g, toGroup [IConst (mkConst (VNumber 1) "x" TInt);
                ITrace (mkTrace (mkEffect Obr ["c"; "l1"; "l2"]) "l2");
                IEffect (mkEffect Oprint ["x"]);
                IValue (mkValueOp Oid ["x"] "y" TInt)] = Ok g
     ∧ vi_instr <$> instrs g =
         [IConst (mkConst (VNumber 1) "x" TInt);
          IValue (mkValueOp Oid ["x"] "y" TInt)]
     ∧ conds g = [Some "c"]
     ∧ failLabel g = "l2".
Proof.
  apply (toGroup_fields
           [IConst (mkConst (VNumber 1) "x" TInt);
            ITrace (mkTrace (mkEffect Obr ["c"; "l1"; "l2"]) "l2");
            IEffect (mkEffect Oprint ["x"]);
            IValue (mkValueOp Oid ["x"] "y" TInt)]).
  intros i Hi. repeat (apply elem_of_cons in Hi as [-> | Hi]; [reflexivity |]).
  by apply not_elem_of_nil in Hi.
Defined.

(** C8. [toGroup] throws exactly when the bundle holds an instruction that
    is a Group, and it returns a Group exactly when the bundle holds
    none. *)
Theorem toGroup_throws_iff_nested (bundle : list Instruction) :
  ((∃ msg, toGroup bundle = Throw msg) ↔ (∃ g, IGroup g ∈ bundle))
  ∧ ((∃ grp, toGroup bundle = Ok grp) ↔ ¬ (∃ g, IGroup g ∈ bundle)).
Proof.
  rewrite <- existsb_isGroup_true.
  unfold toGroup. rewrite toGroup_loop_spec.
  destruct (existsb isGroup bundle); split; split; try done.
  - by eexists.
  - by intros [? ?].
  - by intros [? ?].
  - by eexists.
Qed.

(** ** [PQueue.next] *)

Section pqueue.
Variable compare : ref → ref → bool.

Lemma next_scan_some (b : ref) (items : list ref) :
  ∃ x, next_scan compare (Some b) items = Some x ∧ (x = b ∨ x ∈ items).
Proof.
  revert b. induction items as [| i rest IH]; intros b; simpl.
  - exists b. auto.
  - destruct (compare b i).
    + destruct (IH i) as (x & Hs & Hx). exists x. split; [done |].
      right. destruct Hx as [-> | Hx]; [by left | by right].
    + destruct (IH b) as (x & Hs & Hx). exists x. split; [done |].
      destruct Hx as [-> | Hx]; [by left | right; by right].
Qed.

Lemma PQueue_next_nil : PQueue_next compare [] = (None, []).
Proof. done. Qed.

Lemma PQueue_next_cons (i : ref) (rest : list ref) :
  ∃ x, x ∈ i :: rest
     ∧ PQueue_next compare (i :: rest) = (Some x, set_delete x (i :: rest)).
Proof.
  unfold PQueue_next. simpl.
  destruct (next_scan_some i rest) as (x & -> & Hx).
  exists x. split; [| done].
  destruct Hx as [-> | Hx]; [by left | by right].
Qed.

Lemma PQueue_next_inv (t : list ref) (node : option ref) (q : list ref) :
  PQueue_next compare t = (node, q) →
  match node with
  | Some x => x ∈ t ∧ q = set_delete x t
  | None => t = [] ∧ q = []
  end.
Proof.
  destruct t as [| i rest].
  - rewrite PQueue_next_nil. by intros [= <- <-].
  - destruct (PQueue_next_cons i rest) as (x & Hx & ->). by intros [= <- <-].
Qed.
End pqueue.

Section pqueue_priority.
Variable h : list Node.

(** Once the scan holds a node without priority it keeps it. *)
Lemma next_scan_undefined_sticks (b : ref) (items : list ref) :
  priority (h !!! b) = None →
  next_scan (byPriority h) (Some b) items = Some b.
Proof.
  intros Hb. induction items as [| i rest IH]; simpl; [done |].
  unfold byPriority at 1, nodeCompare. by rewrite Hb.
Qed.

(** A node without priority replaces any node that has one. *)
Lemma nodeCompare_undefined_wins (t1 t2 : Node) :
  priority t1 ≠ None → priority t2 = None → nodeCompare t1 t2 = true.
Proof.
  intros H1 H2. unfold nodeCompare. rewrite H2.
  destruct (priority t1); [| done]. by rewrite andb_false_r.
Qed.

Lemma next_scan_first_undefined (b : ref) (l1 : list ref) (x : ref) (l2 : list ref) :
  priority (h !!! b) ≠ None →
  (∀ y, y ∈ l1 → priority (h !!! y) ≠ None) →
  priority (h !!! x) = None →
  next_scan (byPriority h) (Some b) (l1 ++ x :: l2) = Some x.
Proof.
  revert b. induction l1 as [| i l1 IH]; intros b Hb Hl1 Hx; simpl.
  - unfold byPriority at 1. rewrite nodeCompare_undefined_wins by done.
    by apply next_scan_undefined_sticks.
  - destruct ((byPriority h) b i); apply IH; auto.
    + apply Hl1. by left.
    + intros y Hy. apply Hl1. by right.
    + intros y Hy. apply Hl1. by right.
Qed.

(** C6. [PQueue.next] with [nodeCompare] does not let a node without
    priority lose: whenever the worklist holds such a node, the first one
    of them (in insertion order) is the node removed, whatever priorities
    the nodes before and after it have been assigned. *)
Theorem PQueue_next_prefers_undefined (l1 l2 : list ref) (x : ref) :
  (∀ y, y ∈ l1 → priority (h !!! y) ≠ None) →
  priority (h !!! x) = None →
  PQueue_next (byPriority h) (l1 ++ x :: l2)
    = (Some x, set_delete x (l1 ++ x :: l2)).
Proof.
  intros Hl1 Hx. unfold PQueue_next.
  destruct l1 as [| b l1]; simpl.
  - by rewrite next_scan_undefined_sticks.
  - rewrite next_scan_first_undefined; auto.
    + apply Hl1. by left.
    + intros y Hy. apply Hl1. by right.
Qed.

(** When every node of the worklist has a non-zero priority, the scan ends
    on a node of greatest priority. *)
Lemma next_scan_assigned_max (b : ref) (items : list ref) (x : ref) :
  (∀ y, y ∈ b :: items → truthy (priority (h !!! y)) = true) →
  next_scan (byPriority h) (Some b) items = Some x →
  ∀ y py, y ∈ b :: items → priority (h !!! y) = Some py →
    ∃ px, priority (h !!! x) = Some px ∧ (py ≤ px)%Z.
Proof.
  revert b. induction items as [| i rest IH]; intros b Hall Hscan y py Hy Hpy.
  - simpl in Hscan. injection Hscan as <-.
    apply list_elem_of_singleton in Hy as ->. exists py. split; [done | lia].
  - simpl in Hscan.
    assert (Hb := Hall b ltac:(by left)).
    assert (Hi := Hall i ltac:(right; by left)).
    unfold byPriority at 1, nodeCompare in Hscan. rewrite Hb, Hi in Hscan.
    simpl in Hscan.
    destruct (priority (h !!! b)) as [pb |] eqn:Epb; [| done].
    destruct (priority (h !!! i)) as [pi |] eqn:Epi; [| done].
    destruct (Z.ltb_spec pb pi) as [Hlt | Hge].
    + assert (Hrest : ∀ z, z ∈ i :: rest → truthy (priority (h !!! z)) = true).
      { intros z Hz. apply Hall. by right. }
      apply elem_of_cons in Hy as [-> | Hy].
      * destruct (IH i Hrest Hscan i pi ltac:(by left) Epi) as (px & Hpx & Hle).
        exists px. split; [done |]. rewrite Epb in Hpy. injection Hpy as <-. lia.
      * by apply (IH i Hrest Hscan y py).
    + assert (Hrest : ∀ z, z ∈ b :: rest → truthy (priority (h !!! z)) = true).
      { intros z Hz. apply Hall. apply elem_of_cons in Hz as [-> | Hz];
          [by left | right; by right]. }
      apply elem_of_cons in Hy as [-> | Hy]; [| apply elem_of_cons in Hy as [-> | Hy]].
      * apply (IH b Hrest Hscan b py); [by left | done].
      * destruct (IH b Hrest Hscan b pb ltac:(by left) Epb) as (px & Hpx & Hle).
        exists px. split; [done |]. rewrite Epi in Hpy. injection Hpy as <-. lia.
      * apply (IH b Hrest Hscan y py); [by right | done].
Qed.
End pqueue_priority.

Lemma PQueue_next_prefers_undefined_witness :
  PQueue_next
    (byPriority [mkNode [] [] Start (Some 3%Z); mkNode [] [] Start None;
                 mkNode [] [] Start (Some 5%Z)])
    [0; 1; 2] = (Some 1, [0; 2]).
Proof.
  apply (PQueue_next_prefers_undefined
           [mkNode [] [] Start (Some 3%Z); mkNode [] [] Start None;
            mkNode [] [] Start (Some 5%Z)] [0] [2] 1).
  - intros y Hy. apply list_elem_of_singleton in Hy as ->. done.
  - reflexivity.
Defined.

(** ** Edges in the heap *)

Ltac alter_cases :=
  rewrite list_lookup_total_alter;
  repeat case_decide; destruct_and?; subst; try done; exfalso; intuition lia.

Section heap_facts.
Implicit Types (h : list Node) (p c i j k : ref).

Lemma add_succ_length p c h : length (add_succ p c h) = length h.
Proof. apply length_alter. Qed.

Lemma add_pred_length c p h : length (add_pred c p h) = length h.
Proof. apply length_alter. Qed.

Lemma add_edge_length p c h : length (add_edge p c h) = length h.
Proof. unfold add_edge. by rewrite add_pred_length, add_succ_length. Qed.

Lemma add_succ_succs p c h k :
  succs (add_succ p c h !!! k) =
    if decide (p = k ∧ p < length h) then set_add c (succs (h !!! k))
    else succs (h !!! k).
Proof.
  unfold add_succ. alter_cases.
Qed.

Lemma add_succ_preds p c h k : preds (add_succ p c h !!! k) = preds (h !!! k).
Proof.
  unfold add_succ. alter_cases.
Qed.

Lemma add_succ_instr p c h k : instr (add_succ p c h !!! k) = instr (h !!! k).
Proof.
  unfold add_succ. alter_cases.
Qed.

Lemma add_pred_preds c p h k :
  preds (add_pred c p h !!! k) =
    if decide (c = k ∧ c < length h) then set_add p (preds (h !!! k))
    else preds (h !!! k).
Proof.
  unfold add_pred. alter_cases.
Qed.

Lemma add_pred_succs c p h k : succs (add_pred c p h !!! k) = succs (h !!! k).
Proof.
  unfold add_pred. alter_cases.
Qed.

Lemma add_pred_instr c p h k : instr (add_pred c p h !!! k) = instr (h !!! k).
Proof.
  unfold add_pred. alter_cases.
Qed.

Lemma add_edge_instr p c h k : instr (add_edge p c h !!! k) = instr (h !!! k).
Proof. unfold add_edge. by rewrite add_pred_instr, add_succ_instr. Qed.

Lemma add_edge_preds p c h k :
  c < length h →
  preds (add_edge p c h !!! k) =
    if decide (c = k) then set_add p (preds (h !!! k)) else preds (h !!! k).
Proof.
  intros Hc. unfold add_edge.
  rewrite add_pred_preds, add_succ_length, add_succ_preds.
  repeat case_decide; destruct_and?; subst; try done; exfalso; intuition lia.
Qed.

Lemma add_edge_succs p c h k :
  p < length h →
  succs (add_edge p c h !!! k) =
    if decide (p = k) then set_add c (succs (h !!! k)) else succs (h !!! k).
Proof.
  intros Hp. unfold add_edge. rewrite add_pred_succs, add_succ_succs.
  repeat case_decide; destruct_and?; subst; try done; exfalso; intuition lia.
Qed.

Lemma elem_of_add_edge_preds p c h i j :
  c < length h →
  i ∈ preds (add_edge p c h !!! j) ↔ i ∈ preds (h !!! j) ∨ (i = p ∧ j = c).
Proof.
  intros Hc. rewrite add_edge_preds by done.
  case_decide; [rewrite elem_of_set_add |]; subst; intuition (subst; auto; lia).
Qed.

Lemma elem_of_add_edge_succs p c h i j :
  p < length h →
  j ∈ succs (add_edge p c h !!! i) ↔ j ∈ succs (h !!! i) ∨ (i = p ∧ j = c).
Proof.
  intros Hp. rewrite add_edge_succs by done.
  case_decide; [rewrite elem_of_set_add |]; subst; intuition (subst; auto; lia).
Qed.

Lemma add_edge_graph_ok p c h :
  graph_ok h → 1 ≤ p ≤ c → c < length h → graph_ok (add_edge p c h).
Proof.
  intros [Hlen Hss Hsp Hsi Hsym Hle Hlt] Hp Hc.
  split; rewrite ?add_edge_length.
  - done.
  - rewrite add_edge_succs by lia. by rewrite decide_False by lia.
  - rewrite add_edge_preds by lia. by rewrite decide_False by lia.
  - by rewrite add_edge_instr.
  - intros i j Hi Hj.
    rewrite elem_of_add_edge_succs, elem_of_add_edge_preds by lia.
    rewrite (Hsym i j) by done. tauto.
  - intros i j Hj. rewrite elem_of_add_edge_preds by lia.
    intros [Hin | [-> ->]]; [by apply Hle | lia].
  - intros i j Hi. rewrite elem_of_add_edge_succs by lia.
    intros [Hin | [-> ->]]; [by eapply Hlt | lia].
Qed.

Lemma add_edges_length c h ps : length (add_edges c h ps) = length h.
Proof.
  revert h. induction ps as [| p ps IH]; intros h; simpl; [done |].
  by rewrite IH, add_edge_length.
Qed.

Lemma add_edges_instr c h ps k : instr (add_edges c h ps !!! k) = instr (h !!! k).
Proof.
  revert h. induction ps as [| p ps IH]; intros h; simpl; [done |].
  by rewrite IH, add_edge_instr.
Qed.

Lemma add_edges_graph_ok c h ps :
  graph_ok h → c < length h → (∀ p, p ∈ ps → 1 ≤ p ≤ c) →
  graph_ok (add_edges c h ps).
Proof.
  revert h. induction ps as [| p ps IH]; intros h Hg Hc Hps; simpl; [done |].
  apply IH.
  - apply add_edge_graph_ok; [done | apply Hps; by left | done].
  - by rewrite add_edge_length.
  - intros q Hq. apply Hps. by right.
Qed.

Lemma elem_of_add_edges_preds c h ps i j :
  c < length h →
  i ∈ preds (add_edges c h ps !!! j) ↔ i ∈ preds (h !!! j) ∨ (i ∈ ps ∧ j = c).
Proof.
  revert h. induction ps as [| p ps IH]; intros h Hc; simpl.
  - rewrite elem_of_nil. tauto.
  - rewrite IH by (by rewrite add_edge_length).
    rewrite elem_of_add_edge_preds by done. rewrite elem_of_cons. tauto.
Qed.

Lemma add_edges_preds c h ps :
  c < length h →
  preds (add_edges c h ps !!! c) = foldl (λ s p, set_add p s) (preds (h !!! c)) ps.
Proof.
  revert h. induction ps as [| p ps IH]; intros h Hc; simpl; [done |].
  rewrite IH by (by rewrite add_edge_length).
  rewrite add_edge_preds by done. by rewrite decide_True.
Qed.

Lemma foldl_set_add_NoDup (s ps : list ref) :
  NoDup (s ++ ps) → foldl (λ s p, set_add p s) s ps = s ++ ps.
Proof.
  revert s. induction ps as [| p ps IH]; intros s Hnd; simpl.
  - by rewrite app_nil_r.
  - apply NoDup_app in Hnd as (Hs & Hdisj & Hps).
    rewrite set_add_fresh.
    + rewrite IH; [by rewrite <- app_assoc |].
      rewrite <- app_assoc. simpl. apply NoDup_app. auto.
    + intros Hp. apply (Hdisj p Hp). by left.
Qed.
End heap_facts.

(** ** Positions of readers and writers *)

Section positions.
Variable P : Instruction → bool.
Implicit Types (tr : list Instruction) (k r : ref).

Lemma nodesWhere_app k tr tr' :
  nodesWhere P k (tr ++ tr') =
    nodesWhere P k tr ++ nodesWhere P (k + length tr) tr'.
Proof.
  revert k. induction tr as [| i tr IH]; intros k; simpl.
  - by rewrite Nat.add_0_r.
  - rewrite IH. replace (S k + length tr) with (k + S (length tr)) by lia.
    by destruct (P i).
Qed.

Lemma elem_of_nodesWhere k tr r :
  r ∈ nodesWhere P k tr ↔
    k ≤ r ∧ ∃ i, tr !! (r - k) = Some i ∧ P i = true.
Proof.
  revert k. induction tr as [| i tr IH]; intros k; simpl.
  - rewrite elem_of_nil. split; [done | by intros (_ & ? & ? & _)].
  - assert (Hrest : r ∈ nodesWhere P (S k) tr ↔
              k < r ∧ ∃ i', (i :: tr) !! (r - k) = Some i' ∧ P i' = true).
    { rewrite IH. split.
      - intros (Hk & i' & Hi' & HP). split; [lia |]. exists i'.
        replace (r - k) with (S (r - S k)) by lia. done.
      - intros (Hk & i' & Hi' & HP). split; [lia |]. exists i'.
        replace (r - k) with (S (r - S k)) in Hi' by lia. done. }
    destruct (P i) eqn:HPi.
    + rewrite elem_of_cons, Hrest. split.
      * intros [-> | (Hk & Hex)]; [| split; [lia | done]].
        split; [lia |]. exists i. by rewrite Nat.sub_diag.
      * intros (Hk & i' & Hi' & HP).
        destruct (decide (r = k)) as [-> | Hne]; [by left | right].
        split; [lia |]. by exists i'.
    + rewrite Hrest. split.
      * intros (Hk & Hex). split; [lia | done].
      * intros (Hk & i' & Hi' & HP).
        destruct (decide (r = k)) as [-> | Hne].
        -- rewrite Nat.sub_diag in Hi'. simpl in Hi'. congruence.
        -- split; [lia |]. by exists i'.
Qed.

Lemma nodesWhere_bounds k tr r :
  r ∈ nodesWhere P k tr → k ≤ r < k + length tr.
Proof.
  rewrite elem_of_nodesWhere. intros (Hk & i & Hi & _).
  apply lookup_lt_Some in Hi. lia.
Qed.

Lemma NoDup_nodesWhere k tr : NoDup (nodesWhere P k tr).
Proof.
  revert k. induction tr as [| i tr IH]; intros k; simpl; [constructor |].
  destruct (P i); [| done]. constructor; [| done].
  intros Hk. apply nodesWhere_bounds in Hk. lia.
Qed.

Lemma nodesWhere_snoc k tr i :
  nodesWhere P k (tr ++ [i]) =
    nodesWhere P k tr ++ (if P i then [k + length tr] else []).
Proof. rewrite nodesWhere_app. simpl. by destruct (P i). Qed.
End positions.

(** ** The state of [dataflow] along the trace *)

Section alloc.
Variables (st : DF) (i : Instruction).
Hypothesis Hg : graph_ok (heap st).

Lemma alloc_length : length (heap (alloc_stage i st)) = S (length (heap st)).
Proof.
  unfold alloc_stage; simpl. rewrite add_succ_length, length_app. simpl. lia.
Qed.

Lemma alloc_old k : 1 ≤ k < length (heap st) → heap (alloc_stage i st) !!! k = heap st !!! k.
Proof.
  intros Hk. unfold alloc_stage; simpl. unfold add_succ, startRef.
  rewrite list_lookup_total_alter_ne by lia.
  by rewrite lookup_total_app_l by lia.
Qed.

Lemma alloc_new : heap (alloc_stage i st) !!! (length (heap st)) = newNode i.
Proof.
  destruct Hg. unfold alloc_stage; simpl. unfold add_succ, startRef.
  rewrite list_lookup_total_alter_ne by lia.
  rewrite lookup_total_app_r by lia. by rewrite Nat.sub_diag.
Qed.

Lemma alloc_start :
  heap (alloc_stage i st) !!! 0 = with_succs (set_add (length (heap st))) (heap st !!! 0).
Proof.
  destruct Hg. unfold alloc_stage; simpl. unfold add_succ, startRef.
  rewrite list_lookup_total_alter_eq by (rewrite length_app; lia).
  by rewrite lookup_total_app_l by lia.
Qed.

Lemma alloc_preds k : k < S (length (heap st)) →
  preds (heap (alloc_stage i st) !!! k) =
    if decide (k < length (heap st)) then preds (heap st !!! k) else [].
Proof.
  intros Hk. destruct Hg. case_decide.
  - destruct (decide (k = 0)) as [-> | ?]; [by rewrite alloc_start |].
    by rewrite alloc_old by lia.
  - replace k with (length (heap st)) by lia. by rewrite alloc_new.
Qed.

Lemma alloc_succs k : k < S (length (heap st)) →
  succs (heap (alloc_stage i st) !!! k) =
    if decide (k = 0) then seq 1 (length (heap st))
    else if decide (k < length (heap st)) then succs (heap st !!! k) else [].
Proof.
  intros Hk. destruct Hg as [Hlen Hss]. case_decide as H0.
  - subst k. rewrite alloc_start. simpl. rewrite Hss.
    rewrite set_add_fresh.
    + replace (length (heap st)) with (S (length (heap st) - 1)) at 3 by lia.
      rewrite seq_S. do 2 f_equal. lia.
    + rewrite elem_of_seq. lia.
  - case_decide.
    + by rewrite alloc_old by lia.
    + replace k with (length (heap st)) by lia. by rewrite alloc_new.
Qed.

Lemma alloc_instr k : k < S (length (heap st)) →
  instr (heap (alloc_stage i st) !!! k) =
    if decide (k < length (heap st)) then instr (heap st !!! k) else Instr i.
Proof.
  intros Hk. destruct Hg. case_decide.
  - destruct (decide (k = 0)) as [-> | ?]; [by rewrite alloc_start |].
    by rewrite alloc_old by lia.
  - replace k with (length (heap st)) by lia. by rewrite alloc_new.
Qed.

Lemma alloc_graph_ok : graph_ok (heap (alloc_stage i st)).
Proof.
  pose proof Hg as [Hlen Hss Hsp Hsi Hsym Hle Hlt].
  split; rewrite ?alloc_length.
  - lia.
  - rewrite alloc_succs by lia. rewrite decide_True by done.
    f_equal. lia.
  - rewrite alloc_preds by lia. by rewrite decide_True by lia.
  - rewrite alloc_instr by lia. by rewrite decide_True by lia.
  - intros a b Ha Hb. rewrite alloc_succs, alloc_preds by lia.
    rewrite decide_False by lia.
    destruct (decide (a < length (heap st))) as [Hal | Hal];
      destruct (decide (b < length (heap st))) as [Hbl | Hbl].
    + apply Hsym; lia.
    + rewrite elem_of_nil. split; [| done]. intros Hin.
      apply (Hlt a b) in Hin; lia.
    + rewrite elem_of_nil. split; [done |]. intros Hin.
      apply (Hle a b) in Hin; lia.
    + by rewrite !elem_of_nil.
  - intros a b Hb. rewrite alloc_preds by lia. case_decide.
    + intros Hin. apply (Hle a b) in Hin; lia.
    + by rewrite elem_of_nil.
  - intros a b Ha. rewrite alloc_succs by lia. case_decide.
    + rewrite elem_of_seq. lia.
    + case_decide; [| by rewrite elem_of_nil].
      intros Hin. apply (Hlt a b) in Hin; lia.
Qed.
End alloc.

Lemma lookup_total_beyond (h : list Node) (k : ref) :
  length h ≤ k → h !!! k = startNode.
Proof.
  intros Hk. rewrite list_lookup_total_alt.
  by rewrite (lookup_ge_None_2 h k Hk).
Qed.

Section stages.
Variables (cur : ref) (i : Instruction).
Implicit Types (st : DF) (X : Ident).

Lemma write_stage_heap st :
  heap (write_stage cur i st) = add_edges cur (heap st) (pendingReaders i st).
Proof.
  unfold write_stage, pendingReaders.
  destruct (instr_dest i) as [d |]; simpl; [| done].
  by destruct (read st !! d).
Qed.

Lemma write_stage_read st : read (write_stage cur i st) = read st.
Proof. unfold write_stage. by destruct (instr_dest i). Qed.

Lemma write_stage_written st X :
  written (write_stage cur i st) !! X =
    if writesB X i then Some cur else written st !! X.
Proof.
  unfold write_stage, writesB. destruct (instr_dest i) as [d |]; simpl; [| done].
  case_bool_decide as Hd.
  - subst. by rewrite lookup_insert_eq.
  - by rewrite lookup_insert_ne.
Qed.

Lemma read_args_written st args :
  written (foldl (read_arg cur) st args) = written st.
Proof.
  revert st. induction args as [| a args IH]; intros st; simpl; [done |].
  by rewrite IH.
Qed.

Lemma read_args_heap st args :
  heap (foldl (read_arg cur) st args) =
    add_edges cur (heap st) (omap (λ a, written st !! a) args).
Proof.
  revert st. induction args as [| a args IH]; intros st; simpl; [done |].
  rewrite IH. simpl. by destruct (written st !! a).
Qed.

Lemma set_add_twice (x : ref) (s : list ref) :
  set_add x (set_add x s) = set_add x s.
Proof. apply set_add_old, elem_of_set_add. by left. Qed.

Lemma read_args_read st args X :
  default [] (read (foldl (read_arg cur) st args) !! X) =
    if bool_decide (X ∈ args) then set_add cur (default [] (read st !! X))
    else default [] (read st !! X).
Proof.
  revert st. induction args as [| a args IH]; intros st; cbn [foldl].
  - rewrite bool_decide_eq_false_2; [done | apply not_elem_of_nil].
  - rewrite IH. cbn [read read_arg]. unfold addRead.
    destruct (decide (X = a)) as [-> | Hne].
    + rewrite lookup_insert_eq. cbn [default].
      rewrite (bool_decide_eq_true_2 (a ∈ a :: args)) by (by left).
      case_bool_decide; [apply set_add_twice | done].
    + rewrite lookup_insert_ne by done.
      case_bool_decide as Hin.
      * rewrite bool_decide_eq_true_2; [done | by right].
      * rewrite bool_decide_eq_false_2; [done |].
        intros Hin'. apply elem_of_cons in Hin' as [? | ?]; done.
Qed.

Lemma read_stage_written st : written (read_stage cur i st) = written st.
Proof.
  unfold read_stage. destruct (instr_args i); [apply read_args_written | done].
Qed.

Lemma read_stage_heap st :
  heap (read_stage cur i st) = add_edges cur (heap st) (argWriters i st).
Proof.
  unfold read_stage, argWriters.
  destruct (instr_args i); [apply read_args_heap | done].
Qed.

Lemma read_stage_read st X :
  default [] (read (read_stage cur i st) !! X) =
    if readsB X i then set_add cur (default [] (read st !! X))
    else default [] (read st !! X).
Proof.
  unfold read_stage, readsB.
  destruct (instr_args i); [apply read_args_read | done].
Qed.
End stages.

Section step.
Variables (tr : list Instruction) (st : DF) (i : Instruction).
Hypothesis Hok : df_ok tr st.

Lemma pendingReaders_alloc :
  pendingReaders i (alloc_stage i st) =
    match instr_dest i with Some d => readers d tr | None => [] end.
Proof.
  unfold pendingReaders. destruct (instr_dest i) as [d |]; [| done].
  simpl. apply Hok.
Qed.

Lemma pendingReaders_bound p :
  p ∈ pendingReaders i (alloc_stage i st) → 1 ≤ p ≤ length tr.
Proof.
  rewrite pendingReaders_alloc. destruct (instr_dest i) as [d |].
  - intros Hp. apply nodesWhere_bounds in Hp. lia.
  - by rewrite elem_of_nil.
Qed.

Lemma written_bound X p : written st !! X = Some p → 1 ≤ p ≤ length tr.
Proof.
  rewrite (df_written _ _ Hok). intros Hp.
  apply last_Some_elem_of, nodesWhere_bounds in Hp. lia.
Qed.

Lemma argWriters_elem p :
  p ∈ argWriters i (write_stage (S (length tr)) i (alloc_stage i st)) →
  (1 ≤ p ≤ length tr)
  ∨ (p = S (length tr) ∧ ∃ X, instr_dest i = Some X ∧ readsB X i = true).
Proof.
  unfold argWriters. rewrite list_elem_of_omap.
  intros (a & Ha & Hw). rewrite write_stage_written in Hw.
  destruct (writesB a i) eqn:Hwa.
  - right. injection Hw as <-. split; [done |]. exists a.
    unfold writesB in Hwa. unfold readsB.
    destruct (instr_dest i) as [d |]; [| done].
    apply bool_decide_eq_true_1 in Hwa as ->. split; [done |].
    destruct (instr_args i); [by apply bool_decide_eq_true_2 |].
    by apply not_elem_of_nil in Ha.
  - left. by apply (written_bound a).
Qed.

Lemma dataflow_step_heap :
  heap (dataflow_step st i) =
    add_edges (S (length tr))
      (add_edges (S (length tr)) (heap (alloc_stage i st))
         (pendingReaders i (alloc_stage i st)))
      (argWriters i (write_stage (S (length tr)) i (alloc_stage i st))).
Proof.
  unfold dataflow_step. rewrite (df_len _ _ Hok).
  by rewrite read_stage_heap, write_stage_heap.
Qed.

Lemma dataflow_step_ok : df_ok (tr ++ [i]) (dataflow_step st i).
Proof.
  pose proof Hok as [Hlen Hg Hinstr Hread Hwritten Hself].
  pose proof (alloc_length st i) as Hlen1. rewrite Hlen in Hlen1.
  pose proof (alloc_graph_ok st i Hg) as Hg1.
  assert (Hg2 : graph_ok (add_edges (S (length tr)) (heap (alloc_stage i st))
                   (pendingReaders i (alloc_stage i st)))).
  { apply add_edges_graph_ok; [done | lia |].
    intros p Hp. apply pendingReaders_bound in Hp. lia. }
  split.
  - rewrite dataflow_step_heap, !add_edges_length, Hlen1, length_app.
    simpl. lia.
  - rewrite dataflow_step_heap. apply add_edges_graph_ok; [done | |].
    + rewrite add_edges_length. lia.
    + intros p Hp. apply argWriters_elem in Hp. lia.
  - intros j i' Hj. rewrite dataflow_step_heap, !add_edges_instr.
    assert (j < S (length tr)) as Hjlt.
    { apply lookup_lt_Some in Hj. rewrite length_app in Hj. simpl in Hj. lia. }
    rewrite alloc_instr by (done || lia). rewrite Hlen.
    case_decide as Hlt.
    + apply Hinstr. rewrite lookup_app_l in Hj by lia. done.
    + assert (j = length tr) as -> by lia.
      rewrite list_lookup_middle in Hj by done. congruence.
  - intros X. unfold dataflow_step.
    rewrite read_stage_read, write_stage_read. simpl. rewrite Hread, Hlen.
    unfold readers. rewrite nodesWhere_snoc.
    destruct (readsB X i); [| by rewrite app_nil_r].
    apply set_add_fresh. intros Hin. apply nodesWhere_bounds in Hin. lia.
  - intros X. unfold dataflow_step.
    rewrite read_stage_written, write_stage_written. simpl.
    rewrite Hwritten, Hlen. unfold writers. rewrite nodesWhere_snoc.
    destruct (writesB X i); [by rewrite last_snoc | by rewrite app_nil_r].
  - intros j. rewrite dataflow_step_heap.
    rewrite !elem_of_add_edges_preds by (rewrite ?add_edges_length; lia).
    intros [[Hin | [Hin ->]] | [Hin ->]].
    + destruct (decide (j < S (S (length tr)))) as [Hj | Hj].
      * rewrite alloc_preds in Hin by (done || lia). rewrite Hlen in Hin.
        case_decide; [| by apply not_elem_of_nil in Hin].
        destruct (Hself j Hin) as (i' & X & Hi' & Hd & Hr).
        exists i', X. split; [| done]. by apply lookup_app_l_Some.
      * rewrite lookup_total_beyond in Hin by lia.
        by apply not_elem_of_nil in Hin.
    + apply pendingReaders_bound in Hin. lia.
    + apply argWriters_elem in Hin as [? | (_ & X & Hd & Hr)]; [lia |].
      exists i, X. split; [| done]. simpl. rewrite Nat.sub_0_r.
      by apply list_lookup_middle.
Qed.
End step.

Lemma dataflow_state_snoc (tr : list Instruction) (i : Instruction) :
  dataflow_state (tr ++ [i]) = dataflow_step (dataflow_state tr) i.
Proof. unfold dataflow_state. by rewrite foldl_snoc. Qed.

Lemma dataflow_init_ok : df_ok [] dataflow_init.
Proof.
  split; try done.
  - split; try done; simpl.
    + intros a b Ha Hb. lia.
    + intros a b Hb. assert (b = 0) as -> by lia. simpl.
      by rewrite elem_of_nil.
    + intros a b Ha. assert (a = 0) as -> by lia. simpl.
      by rewrite elem_of_nil.
  - intros j. destruct j as [| j].
    + simpl. by rewrite elem_of_nil.
    + rewrite lookup_total_beyond by (simpl; lia). simpl.
      by rewrite elem_of_nil.
Qed.

Lemma dataflow_state_ok (tr : list Instruction) : df_ok tr (dataflow_state tr).
Proof.
  induction tr as [| i tr IH] using rev_ind.
  - apply dataflow_init_ok.
  - rewrite dataflow_state_snoc. by apply dataflow_step_ok.
Qed.

(** ** The edges [dataflow] builds *)

Ltac df_side Hok :=
  first [ exact (df_graph _ _ Hok)
        | rewrite ?(df_len _ _ Hok), ?length_app; simpl; lia ].

Lemma add_edges_preds_other (c : ref) (h : list Node) (ps : list ref) (j : ref) :
  j ≠ c → preds (add_edges c h ps !!! j) = preds (h !!! j).
Proof.
  intros Hj. revert h. induction ps as [| p ps IH]; intros h; simpl; [done |].
  rewrite IH. unfold add_edge. rewrite add_pred_preds, add_succ_preds.
  case_decide; [| done]. lia.
Qed.

(** The predecessors of a node are settled when its instruction is
    processed: later instructions leave them alone. *)
Lemma dataflow_preds_stable (pre post : list Instruction) (j : ref) :
  j ≤ length pre →
  preds (dataflow (pre ++ post) !!! j) = preds (dataflow pre !!! j).
Proof.
  intros Hj. induction post as [| i post IH] using rev_ind.
  - by rewrite app_nil_r.
  - rewrite app_assoc. unfold dataflow in *. rewrite dataflow_state_snoc.
    pose proof (dataflow_state_ok (pre ++ post)) as Hok.
    rewrite (dataflow_step_heap _ _ _ Hok).
    rewrite length_app in *.
    rewrite !add_edges_preds_other by lia.
    rewrite alloc_preds by df_side Hok.
    rewrite decide_True by df_side Hok.
    done.
Qed.

Lemma dataflow_instr_stable (pre post : list Instruction) (j : ref) :
  j ≤ length pre →
  instr (dataflow (pre ++ post) !!! j) = instr (dataflow pre !!! j).
Proof.
  intros Hj. induction post as [| i post IH] using rev_ind.
  - by rewrite app_nil_r.
  - rewrite app_assoc. unfold dataflow in *. rewrite dataflow_state_snoc.
    pose proof (dataflow_state_ok (pre ++ post)) as Hok.
    rewrite (dataflow_step_heap _ _ _ Hok), !add_edges_instr.
    rewrite alloc_instr by df_side Hok.
    rewrite decide_True by df_side Hok.
    done.
Qed.

(** Who becomes a predecessor of the node of [i], the instruction that
    follows [pre]: the nodes that read the destination of [i] anywhere in
    [pre], and for each argument [a] of [i] the node registered as writer
    of [a] -- the node of [i] itself when [a] is its destination, the last
    writer of [a] in [pre] otherwise. *)
Lemma dataflow_preds_spec (pre post : list Instruction) (i : Instruction) (p : ref) :
  p ∈ preds (dataflow (pre ++ i :: post) !!! S (length pre)) ↔
    (∃ d, instr_dest i = Some d ∧ p ∈ readers d pre)
    ∨ (∃ a, readsB a i = true
          ∧ if writesB a i then p = S (length pre)
            else last (writers a pre) = Some p).
Proof.
  rewrite (cons_middle i pre post), app_assoc.
  rewrite dataflow_preds_stable by (rewrite length_app; simpl; lia).
  unfold dataflow. rewrite dataflow_state_snoc.
  pose proof (dataflow_state_ok pre) as Hok.
  pose proof (df_len _ _ Hok) as Hlen.
  rewrite (dataflow_step_heap _ _ _ Hok).
  rewrite !elem_of_add_edges_preds
    by (rewrite ?add_edges_length, alloc_length; lia).
  rewrite alloc_preds by df_side Hok.
  rewrite decide_False by lia. rewrite elem_of_nil.
  rewrite (pendingReaders_alloc _ _ _ Hok).
  unfold argWriters. rewrite list_elem_of_omap.
  split.
  - intros [[[] | [Hp _]] | [(a & Ha & Hw) _]].
    + left. destruct (instr_dest i) as [d |]; [eauto | by apply not_elem_of_nil in Hp].
    + right. exists a. rewrite write_stage_written in Hw. simpl in Hw.
      rewrite (df_written _ _ Hok) in Hw. split.
      * unfold readsB. destruct (instr_args i); [by apply bool_decide_eq_true_2 |].
        by apply not_elem_of_nil in Ha.
      * destruct (writesB a i); congruence.
  - intros [(d & Hd & Hp) | (a & Ha & Hw)].
    + left. right. by rewrite Hd.
    + right. split; [| done]. exists a. split.
      * unfold readsB in Ha. destruct (instr_args i); [| done].
        by apply bool_decide_eq_true_1 in Ha.
      * rewrite write_stage_written. simpl. rewrite (df_written _ _ Hok).
        destruct (writesB a i); congruence.
Qed.

(** True dependence, where the code gets it right: an instruction [B] that
    reads [X] and does not write [X] has the nearest writer of [X] before
    it among its predecessors. *)
Lemma dataflow_true_dependence (pre post : list Instruction) (B : Instruction)
    (X : Ident) (A : ref) :
  readsB X B = true → writesB X B = false →
  last (writers X pre) = Some A →
  A ∈ preds (dataflow (pre ++ B :: post) !!! S (length pre)).
Proof.
  intros Hr Hw HA. apply dataflow_preds_spec. right. exists X.
  by rewrite Hr, Hw.
Qed.

(** C2. The graph [dataflow] returns may hold a cycle: the writer of the
    destination is registered before the arguments are looked up, so an
    instruction that lists its own destination among its arguments gets an
    edge to itself -- its node is its own predecessor and its own
    successor. *)
Theorem dataflow_self_edge (pre post : list Instruction) (i : Instruction)
    (X : Ident) :
  instr_dest i = Some X → readsB X i = true →
  S (length pre) ∈ preds (dataflow (pre ++ i :: post) !!! S (length pre))
  ∧ S (length pre) ∈ succs (dataflow (pre ++ i :: post) !!! S (length pre)).
Proof.
  intros Hd Hr.
  assert (Hp : S (length pre)
               ∈ preds (dataflow (pre ++ i :: post) !!! S (length pre))).
  { apply dataflow_preds_spec. right. exists X. split; [done |].
    unfold writesB. rewrite Hd. by rewrite bool_decide_eq_true_2. }
  split; [done |].
  pose proof (dataflow_state_ok (pre ++ i :: post)) as Hok.
  apply (g_sym _ (df_graph _ _ Hok)); [| | done];
    rewrite (df_len _ _ Hok), length_app; simpl; lia.
Qed.

Lemma dataflow_self_edge_witness :
  1 ∈ preds (dataflow [IValue (mkValueOp Oadd ["x"; "x"] "x" TInt)] !!! 1)
  ∧ 1 ∈ succs (dataflow [IValue (mkValueOp Oadd ["x"; "x"] "x" TInt)] !!! 1).
Proof.
  apply (dataflow_self_edge [] []
           (IValue (mkValueOp Oadd ["x"; "x"] "x" TInt)) "x");
    reflexivity.
Defined.

(** C4. When [B] reads [X] and also writes [X], the lookup of the writer
    of [X] finds the node of [B] itself, not the nearest writer [A] before
    it: [A] is a predecessor of [B] only if it happens to be one for
    another reason (it read [X] earlier, or it is the last writer of
    another argument of [B]). *)
Theorem dataflow_own_dest_hides_writer (pre post : list Instruction)
    (B : Instruction) (X : Ident) (A : ref) :
  instr_dest B = Some X → readsB X B = true →
  last (writers X pre) = Some A →
  A ∉ readers X pre →
  (∀ a, readsB a B = true → a ≠ X → last (writers a pre) ≠ Some A) →
  A ∉ preds (dataflow (pre ++ B :: post) !!! S (length pre)).
Proof.
  intros Hd Hr HA Hnr Hother Hin.
  apply dataflow_preds_spec in Hin as [(d & Hd' & Hp) | (a & Ha & Hw)].
  - rewrite Hd in Hd'. injection Hd' as <-. done.
  - destruct (decide (a = X)) as [-> | Hne].
    + unfold writesB in Hw. rewrite Hd in Hw.
      rewrite bool_decide_eq_true_2 in Hw by done. subst A.
      apply last_Some_elem_of, nodesWhere_bounds in HA. lia.
    + unfold writesB in Hw. rewrite Hd in Hw.
      rewrite bool_decide_eq_false_2 in Hw by done.
      by apply (Hother a).
Qed.

Lemma dataflow_own_dest_hides_writer_witness :
  1 ∉ preds (dataflow [IConst (mkConst (VNumber 1) "x" TInt);
                       IValue (mkValueOp Oadd ["x"; "x"] "x" TInt)] !!! 2).
Proof.
  apply (dataflow_own_dest_hides_writer
           [IConst (mkConst (VNumber 1) "x" TInt)] []
           (IValue (mkValueOp Oadd ["x"; "x"] "x" TInt)) "x" 1).
  - reflexivity.
  - reflexivity.
  - reflexivity.
  - vm_compute. apply not_elem_of_nil.
  - intros a Ha Hne. exfalso. apply Hne.
    unfold readsB in Ha. simpl in Ha. apply bool_decide_eq_true_1 in Ha.
    apply elem_of_cons in Ha as [-> | Ha]; [done |].
    apply list_elem_of_singleton in Ha. done.
Defined.

(** C5, as the claim states it, fails: the node of [print x] (node 1) is a
    predecessor of the node of the second [const x] (node 3) although a
    write of [x] (node 2) lies between them, and the set of readers of [x]
    is the same after each of the two writes. *)
Lemma dataflow_keeps_pending_readers :
  preds (dataflow [IEffect (mkEffect Oprint ["x"]);
                   IConst (mkConst (VNumber 1) "x" TInt);
                   IConst (mkConst (VNumber 2) "x" TInt)] !!! 3) = [1]
  ∧ read (dataflow_state [IEffect (mkEffect Oprint ["x"])]) !! "x" = Some [1]
  ∧ read (dataflow_state [IEffect (mkEffect Oprint ["x"]);
                          IConst (mkConst (VNumber 1) "x" TInt)]) !! "x" = Some [1]
  ∧ read (dataflow_state [IEffect (mkEffect Oprint ["x"]);
                          IConst (mkConst (VNumber 1) "x" TInt);
                          IConst (mkConst (VNumber 2) "x" TInt)]) !! "x" = Some [1].
Proof. by vm_compute. Qed.

(** C5, amended. When [dataflow] processes an instruction [C] whose
    destination is [X], the block for the destination makes the
    predecessors of the node of [C] exactly the nodes of all the
    instructions before [C] that list [X] among their arguments, in trace
    order, whether or not [X] was written in between; it registers the
    node of [C] as the writer of [X] and leaves the reader sets as they
    are.  All these readers are predecessors of [C] in the graph
    returned. *)
Theorem dataflow_anti_dependence (pre : list Instruction) (C : Instruction)
    (X : Ident) :
  instr_dest C = Some X →
  preds (heap (write_stage (S (length pre)) C
                 (alloc_stage C (dataflow_state pre))) !!! S (length pre))
    = readers X pre
  ∧ read (write_stage (S (length pre)) C (alloc_stage C (dataflow_state pre)))
    = read (dataflow_state pre)
  ∧ written (write_stage (S (length pre)) C
               (alloc_stage C (dataflow_state pre))) !! X
    = Some (S (length pre))
  ∧ ∀ post r, r ∈ readers X pre →
      r ∈ preds (dataflow (pre ++ C :: post) !!! S (length pre)).
Proof.
  intros Hd. pose proof (dataflow_state_ok pre) as Hok.
  pose proof (df_len _ _ Hok) as Hlen.
  split_and!.
  - rewrite write_stage_heap, (pendingReaders_alloc _ _ _ Hok), Hd.
    rewrite add_edges_preds by (rewrite alloc_length; lia).
    rewrite alloc_preds by df_side Hok.
    rewrite decide_False by lia.
    apply (foldl_set_add_NoDup []). simpl. apply NoDup_nodesWhere.
  - by rewrite write_stage_read.
  - rewrite write_stage_written. unfold writesB. rewrite Hd.
    by rewrite bool_decide_eq_true_2.
  - intros post r Hr. apply dataflow_preds_spec. left. eauto.
Qed.

Lemma dataflow_anti_dependence_witness :
  preds (heap (write_stage 3 (IConst (mkConst (VNumber 2) "x" TInt))
                 (alloc_stage (IConst (mkConst (VNumber 2) "x" TInt))
                    (dataflow_state
                       [IEffect (mkEffect Oprint ["x"]);
                        IConst (mkConst (VNumber 1) "x" TInt)]))) !!! 3)
    = [1].
Proof.
  apply (dataflow_anti_dependence
           [IEffect (mkEffect Oprint ["x"]);
            IConst (mkConst (VNumber 1) "x" TInt)]
           (IConst (mkConst (VNumber 2) "x" TInt)) "x").
  reflexivity.
Defined.

(** ** [assignDagPriority] *)

Lemma foldl_ext_in {A B} (f g : A → B → A) (a : A) (l : list B) :
  (∀ x acc, x ∈ l → f acc x = g acc x) → foldl f a l = foldl g a l.
Proof.
  revert a. induction l as [| x l IH]; intros a Hfg; simpl; [done |].
  rewrite Hfg by (by left). apply IH. intros y acc Hy. apply Hfg. by right.
Qed.

Section max_fold.
Context {B : Type} (f : B → Z).

Lemma foldl_max_ge_acc (a : Z) (l : list B) :
  (a ≤ foldl (λ m x, Z.max m (f x)) a l)%Z.
Proof.
  revert a. induction l as [| x l IH]; intros a; simpl; [lia |].
  specialize (IH (Z.max a (f x))). lia.
Qed.

Lemma foldl_max_ge_elem (a : Z) (l : list B) (x : B) :
  x ∈ l → (f x ≤ foldl (λ m x, Z.max m (f x)) a l)%Z.
Proof.
  revert a. induction l as [| y l IH]; intros a Hx; simpl.
  - by apply not_elem_of_nil in Hx.
  - apply elem_of_cons in Hx as [-> | Hx]; [| by apply IH].
    pose proof (foldl_max_ge_acc (Z.max a (f y)) l). lia.
Qed.

Lemma foldl_max_attained (a : Z) (l : list B) :
  foldl (λ m x, Z.max m (f x)) a l = a
  ∨ ∃ x, x ∈ l ∧ foldl (λ m x, Z.max m (f x)) a l = f x.
Proof.
  revert a. induction l as [| y l IH]; intros a; simpl; [by left |].
  destruct (IH (Z.max a (f y))) as [Heq | (x & Hx & Heq)].
  - rewrite Heq. destruct (Z.max_spec a (f y)) as [[_ ->] | [_ ->]].
    + right. exists y. split; [by left | done].
    + by left.
  - right. exists x. split; [by right | done].
Qed.
End max_fold.

Section priorities.
Variables (h0 : list Node) (rank : ref → nat).
Hypothesis Hacyclic : ∀ n m, m ∈ succs (h0 !!! n) → rank m < rank n.
Hypothesis Hrange : ∀ n m, m ∈ succs (h0 !!! n) → m < length h0.

Lemma height_fuel (f f' : nat) (m : ref) :
  rank m < f → rank m < f' → height f h0 m = height f' h0 m.
Proof.
  revert f' m. induction f as [| f IH]; intros f' m Hf Hf'; [lia |].
  destruct f' as [| f']; [lia |]. simpl. f_equal.
  apply foldl_ext_in. intros x acc Hx. f_equal.
  apply Hacyclic in Hx. apply IH; lia.
Qed.

Lemma heightOf_unfold (n : ref) :
  heightOf rank h0 n =
    (foldl (λ m nd, Z.max m (heightOf rank h0 nd)) 0 (succs (h0 !!! n)) + 1)%Z.
Proof.
  unfold heightOf at 1. simpl. f_equal.
  apply foldl_ext_in. intros x acc Hx. f_equal. unfold heightOf.
  apply Hacyclic in Hx. apply height_fuel; lia.
Qed.

Lemma heightOf_pos (n : ref) : (1 ≤ heightOf rank h0 n)%Z.
Proof.
  rewrite heightOf_unfold.
  pose proof (foldl_max_ge_acc (heightOf rank h0) 0 (succs (h0 !!! n))). lia.
Qed.

Lemma heightOf_succ (n m : ref) :
  m ∈ succs (h0 !!! n) → (heightOf rank h0 m + 1 ≤ heightOf rank h0 n)%Z.
Proof.
  intros Hm. rewrite (heightOf_unfold n).
  pose proof (foldl_max_ge_elem (heightOf rank h0) 0 _ _ Hm). lia.
Qed.

Lemma chain_le_height (n : ref) (l : list ref) :
  chain h0 n l → (Z.of_nat (length l) ≤ heightOf rank h0 n)%Z.
Proof.
  induction 1 as [n | n m l Hm Hc IH]; simpl.
  - pose proof (heightOf_pos n). lia.
  - pose proof (heightOf_succ n m Hm). lia.
Qed.

Lemma chain_of_height (n : ref) :
  ∃ l e, chain h0 n l ∧ last l = Some e ∧ succs (h0 !!! e) = []
         ∧ Z.of_nat (length l) = heightOf rank h0 n.
Proof.
  remember (rank n) as r eqn:Hr. revert n Hr.
  induction r as [r IH] using lt_wf_ind. intros n ->.
  destruct (succs (h0 !!! n)) as [| m0 ms] eqn:Hs.
  - exists [n], n. split_and!; [constructor | done | done |].
    rewrite heightOf_unfold, Hs. done.
  - destruct (foldl_max_attained (heightOf rank h0) 0 (succs (h0 !!! n)))
      as [Heq | (m & Hm & Heq)].
    + pose proof (foldl_max_ge_elem (heightOf rank h0) 0 (succs (h0 !!! n)) m0) as Hge.
      rewrite Hs in Hge at 1. specialize (Hge ltac:(by left)).
      pose proof (heightOf_pos m0). lia.
    + destruct (IH (rank m) (Hacyclic _ _ Hm) m eq_refl) as (l & e & Hc & Hl & He & Hlen).
      exists (n :: l), e. split_and!.
      * by apply chain_cons with m.
      * rewrite last_cons, Hl. done.
      * done.
      * rewrite heightOf_unfold, Heq. simpl length. lia.
Qed.

Lemma same_graph_refl : same_graph h0 h0.
Proof. by split. Qed.

Lemma assign_fold_spec (fuel : nat) :
  (∀ h n, same_graph h0 h → rank n < fuel → n < length h0 →
     ∃ h', assignDagPriority fuel h n = Some (h', heightOf rank h0 n)
         ∧ same_graph h0 h'
         ∧ (∀ k, settled rank h0 h k → settled rank h0 h' k)
         ∧ (∀ k, reachable h0 n k → settled rank h0 h' k)) →
  ∀ l h acc, same_graph h0 h →
    (∀ m, m ∈ l → rank m < fuel ∧ m < length h0) →
    ∃ h', foldl (visitChild (assignDagPriority fuel)) (Some (h, acc)) l
            = Some (h', foldl (λ a nd, Z.max a (heightOf rank h0 nd)) acc l)
        ∧ same_graph h0 h'
        ∧ (∀ k, settled rank h0 h k → settled rank h0 h' k)
        ∧ (∀ m k, m ∈ l → reachable h0 m k → settled rank h0 h' k).
Proof.
  intros Hrec l. induction l as [| m l IH]; intros h acc Hsg Hl; simpl.
  - exists h. split_and!; try done. intros m k Hm. by apply not_elem_of_nil in Hm.
  - destruct (Hl m ltac:(by left)) as [Hrm Hlm].
    destruct (Hrec h m Hsg Hrm Hlm) as (h1 & -> & Hsg1 & Hmono1 & Hreach1).
    destruct (IH h1 (Z.max acc (heightOf rank h0 m)) Hsg1) as (h2 & -> & Hsg2 & Hmono2 & Hreach2).
    { intros x Hx. apply Hl. by right. }
    exists h2. split_and!; try done.
    + intros k Hk. auto.
    + intros x k Hx Hk. apply elem_of_cons in Hx as [-> | Hx]; eauto.
Qed.

Lemma assignDagPriority_S (fuel : nat) (h : list Node) (dag : ref) :
  assignDagPriority (S fuel) h dag =
    match foldl (visitChild (assignDagPriority fuel)) (Some (h, 0%Z))
                (succs (h !!! dag)) with
    | None => None
    | Some (h', maxDepth) =>
      Some (alter (with_priority (Some (maxDepth + 1)%Z)) dag h',
            (maxDepth + 1)%Z)
    end.
Proof. done. Qed.

Lemma assign_spec (fuel : nat) (h : list Node) (n : ref) :
  same_graph h0 h → rank n < fuel → n < length h0 →
  ∃ h', assignDagPriority fuel h n = Some (h', heightOf rank h0 n)
      ∧ same_graph h0 h'
      ∧ (∀ k, settled rank h0 h k → settled rank h0 h' k)
      ∧ (∀ k, reachable h0 n k → settled rank h0 h' k).
Proof.
  revert h n. induction fuel as [| fuel IH]; intros h n Hsg Hr Hn; [lia |].
  rewrite assignDagPriority_S.
  assert (Hsuccs : succs (h !!! n) = succs (h0 !!! n)) by apply Hsg.
  rewrite Hsuccs.
  destruct (assign_fold_spec fuel IH (succs (h0 !!! n)) h 0%Z Hsg)
    as (h1 & -> & Hsg1 & Hmono1 & Hreach1).
  { intros m Hm. split; [apply Hacyclic in Hm; lia | by eapply Hrange]. }
  rewrite <- heightOf_unfold.
  set (h2 := alter _ n h1).
  destruct Hsg1 as [Hlen1 Hsame1].
  assert (Hlen2 : length h2 = length h1) by apply length_alter.
  assert (Hat : ∀ k, k ≠ n → h2 !!! k = h1 !!! k).
  { intros k Hk. by apply list_lookup_total_alter_ne. }
  assert (Hn' : h2 !!! n = with_priority (Some (heightOf rank h0 n)) (h1 !!! n)).
  { apply list_lookup_total_alter_eq. lia. }
  clearbody h2.
  assert (Hset : ∀ k, settled rank h0 h1 k → settled rank h0 h2 k).
  { intros k Hk. unfold settled. destruct (decide (k = n)) as [-> | Hne].
    - by rewrite Hn'.
    - by rewrite Hat. }
  exists h2. split_and!.
  - done.
  - split; [lia |].
    intros k. destruct (decide (k = n)) as [-> | Hne].
    + rewrite Hn'. simpl. apply Hsame1.
    + rewrite Hat by done. apply Hsame1.
  - auto.
  - intros k Hk. unfold reachable in Hk. apply rtc_inv in Hk as [<- | (m & Hm & Hk)].
    + unfold settled. by rewrite Hn'.
    + apply Hset. by apply (Hreach1 m).
Qed.
End priorities.

(** In a graph built by [dataflow] every node can be reached from the
    start node, which lists them all. *)
Lemma dataflow_all_reachable (trace : list Instruction) (j : ref) :
  j < length (dataflow trace) → reachable (dataflow trace) startRef j.
Proof.
  intros Hj. unfold reachable, startRef.
  destruct (decide (j = 0)) as [-> | Hne]; [apply rtc_refl |].
  apply rtc_once. unfold dataflow in *.
  rewrite (g_start_succs _ (df_graph _ _ (dataflow_state_ok trace))).
  apply elem_of_seq. lia.
Qed.

(** C9. On a graph without cycle ([rank] decreases along every successor
    edge), [assignDagPriority] returns, changes nothing but priorities, and
    gives every node it can reach from the root -- in a graph built by
    [dataflow], every node -- a priority that is 1 plus the greatest
    priority among its successors, hence 1 for a node without successor,
    and that is the number of nodes of the longest chain of successors
    from the node down to a leaf. *)
Theorem assignDagPriority_height (h : list Node) (dag : ref)
    (rank : ref → nat) (fuel : nat) :
  (∀ n m, m ∈ succs (h !!! n) → rank m < rank n) →
  (∀ n m, m ∈ succs (h !!! n) → m < length h) →
  dag < length h → rank dag < fuel →
  ∃ h' d, assignDagPriority fuel h dag = Some (h', d)
    ∧ same_graph h h'
    ∧ ∀ n, reachable h dag n →
        ∃ p, priority (h' !!! n) = Some p
           ∧ p = (maxPriority h' (succs (h' !!! n)) + 1)%Z
           ∧ (succs (h' !!! n) = [] → p = 1%Z)
           ∧ (∀ l, chain h n l → (Z.of_nat (length l) ≤ p)%Z)
           ∧ (∃ l e, chain h n l ∧ last l = Some e ∧ succs (h !!! e) = []
                     ∧ Z.of_nat (length l) = p).
Proof.
  intros Hacyclic Hrange Hdag Hfuel.
  destruct (assign_spec h rank Hacyclic Hrange fuel h dag
              (same_graph_refl h) Hfuel Hdag)
    as (h' & Hrun & Hsg & _ & Hreach).
  exists h', (heightOf rank h dag). split_and!; [done | done |].
  intros n Hn. exists (heightOf rank h n).
  assert (Hmax : heightOf rank h n = (maxPriority h' (succs (h' !!! n)) + 1)%Z).
  { rewrite (heightOf_unfold h rank Hacyclic). f_equal. unfold maxPriority.
    destruct Hsg as [_ Hsame]. destruct (Hsame n) as (-> & _).
    apply foldl_ext_in. intros m acc Hm. f_equal.
    assert (Hm' : reachable h dag m).
    { unfold reachable. eapply rtc_r; [exact Hn | exact Hm]. }
    by rewrite (Hreach m Hm'). }
  split_and!.
  - by apply Hreach.
  - done.
  - intros Hleaf. rewrite Hmax, Hleaf. done.
  - intros l Hl. by apply chain_le_height.
  - by apply chain_of_height.
Qed.

Lemma assignDagPriority_height_witness :
  ∃ h' d, assignDagPriority 5 (dataflow scenarioA) startRef = Some (h', d)
    ∧ same_graph (dataflow scenarioA) h'
    ∧ ∀ n, reachable (dataflow scenarioA) startRef n →
        ∃ p, priority (h' !!! n) = Some p
           ∧ p = (maxPriority h' (succs (h' !!! n)) + 1)%Z
           ∧ (succs (h' !!! n) = [] → p = 1%Z)
           ∧ (∀ l, chain (dataflow scenarioA) n l → (Z.of_nat (length l) ≤ p)%Z)
           ∧ (∃ l e, chain (dataflow scenarioA) n l ∧ last l = Some e
                     ∧ succs (dataflow scenarioA !!! e) = []
                     ∧ Z.of_nat (length l) = p).
Proof.
  apply (assignDagPriority_height (dataflow scenarioA) startRef (λ n, 4 - n) 5).
  - intros n m Hm.
    do 4 (destruct n as [| n];
          [vm_compute in Hm;
           repeat (apply elem_of_cons in Hm as [-> | Hm]; [simpl; lia |]);
           by apply not_elem_of_nil in Hm |]).
    vm_compute in Hm. by apply not_elem_of_nil in Hm.
  - intros n m Hm.
    do 4 (destruct n as [| n];
          [vm_compute in Hm;
           repeat (apply elem_of_cons in Hm as [-> | Hm]; [vm_compute; lia |]);
           by apply not_elem_of_nil in Hm |]).
    vm_compute in Hm. by apply not_elem_of_nil in Hm.
  - vm_compute. lia.
  - simpl. lia.
Defined.

(** ** [listSchedule] *)

Section sched_sets.
Variable h : list Node.
Implicit Types (x n : ref) (s u q cs : list ref).

Lemma elem_of_releaseChildren s cs u x :
  x ∈ releaseChildren h s cs u ↔ x ∈ u ∨ (x ∈ cs ∧ preds (h !!! x) ⊆ s).
Proof.
  unfold releaseChildren. revert u.
  induction cs as [| c cs IH]; intros u; simpl.
  - rewrite elem_of_nil. tauto.
  - rewrite IH, elem_of_cons. destruct (subset _ s) eqn:Hsub.
    + apply subset_spec in Hsub. rewrite elem_of_set_add.
      split; [intros [[-> | ?] | ?] | intros [? | [[-> | ?] ?]]]; tauto.
    + assert (Hn : ¬ preds (h !!! c) ⊆ s).
      { intros Hs. apply subset_spec in Hs. congruence. }
      split; [tauto |]. intros [? | [[-> | ?] ?]]; tauto.
Qed.

Lemma NoDup_releaseChildren s cs u : NoDup u → NoDup (releaseChildren h s cs u).
Proof.
  unfold releaseChildren. revert u.
  induction cs as [| c cs IH]; intros u Hu; simpl; [done |].
  apply IH. destruct (subset _ s); [by apply NoDup_set_add | done].
Qed.

Lemma length_releaseChildren s cs u :
  length u ≤ length (releaseChildren h s cs u).
Proof.
  unfold releaseChildren. revert u.
  induction cs as [| c cs IH]; intros u; simpl; [done |].
  etrans; [| apply IH]. destruct (subset _ s); [| done].
  unfold set_add. case_decide; [done |]. rewrite length_app. lia.
Qed.

Lemma mergeQueue_nil u : NoDup u → mergeQueue [] u = u.
Proof. intros Hu. unfold mergeQueue. by apply (foldl_set_add_NoDup []). Qed.

Lemma length_set_delete x q : x ∈ q → length (set_delete x q) < length q.
Proof.
  unfold set_delete. induction q as [| y q IH]; intros Hx.
  - by apply not_elem_of_nil in Hx.
  - rewrite filter_cons. case_decide as Hy; simpl.
    + apply elem_of_cons in Hx as [-> | Hx]; [done |]. specialize (IH Hx). lia.
    + pose proof (length_filter (λ y, y ≠ x) q). lia.
Qed.

Lemma elem_of_initQueue_gen cs q x :
  x ∈ foldl (λ q nd, if decide (length (preds (h !!! nd)) = 0)
                     then set_add nd q else q) q cs
  ↔ x ∈ q ∨ (x ∈ cs ∧ preds (h !!! x) = []).
Proof.
  revert q. induction cs as [| c cs IH]; intros q; simpl.
  - rewrite elem_of_nil. tauto.
  - rewrite IH, elem_of_cons. case_decide as Hc.
    + apply length_zero_iff_nil in Hc. rewrite elem_of_set_add.
      split; [intros [[-> | ?] | ?] | intros [? | [[-> | ?] ?]]]; tauto.
    + assert (preds (h !!! c) ≠ []) by (intros Hnil; by rewrite Hnil in Hc).
      split; [tauto |]. intros [? | [[-> | ?] ?]]; tauto.
Qed.

Lemma NoDup_initQueue_gen cs q :
  NoDup q →
  NoDup (foldl (λ q nd, if decide (length (preds (h !!! nd)) = 0)
                        then set_add nd q else q) q cs).
Proof.
  revert q. induction cs as [| c cs IH]; intros q Hq; simpl; [done |].
  apply IH. case_decide; [by apply NoDup_set_add | done].
Qed.
End sched_sets.

Lemma subset_false_witness (l s : list ref) :
  subset l s = false → ∃ p, p ∈ l ∧ p ∉ s.
Proof.
  induction l as [| a l IH]; simpl; [done |].
  case_bool_decide as Ha.
  - intros Hl. destruct (IH Hl) as (p & Hp & Hps). exists p. split; [by right | done].
  - intros _. exists a. split; [by left | done].
Qed.

Lemma elem_of_concat (bs : list (list ref)) (x : ref) :
  x ∈ concat bs ↔ ∃ b, b ∈ bs ∧ x ∈ b.
Proof.
  induction bs as [| c bs IH]; simpl.
  - rewrite elem_of_nil. split; [done |]. intros (b & Hb & _).
    by apply not_elem_of_nil in Hb.
  - rewrite elem_of_app, IH. split.
    + intros [Hx | (b & Hb & Hx)].
      * exists c. split; [by left | done].
      * exists b. split; [by right | done].
    + intros (b & Hb & Hx). apply elem_of_cons in Hb as [-> | Hb]; [by left |].
      right. eauto.
Qed.

Lemma elem_of_concat_lookup (bs : list (list ref)) (x : ref) :
  x ∈ concat bs ↔ ∃ k b, bs !! k = Some b ∧ x ∈ b.
Proof.
  rewrite elem_of_concat. split.
  - intros (b & Hb & Hx). apply list_elem_of_lookup in Hb as [k Hk]. eauto.
  - intros (k & b & Hk & Hx). exists b. split; [| done].
    apply list_elem_of_lookup. eauto.
Qed.

Section scheduler.
Variables (h : list Node) (valid : list Instruction → Instruction → bool).
Hypothesis Hg : graph_ok h.
Hypothesis Hinstr : ∀ j, 1 ≤ j < length h → ∃ i, instr (h !!! j) = Instr i.

Lemma sched_init_inv : sched_inv h (sched_init h startRef).
Proof.
  assert (Hq : ∀ x, x ∈ initQueue h startRef ↔
                 (1 ≤ x < length h) ∧ preds (h !!! x) = []).
  { intros x. unfold initQueue. rewrite elem_of_initQueue_gen.
    unfold startRef. rewrite (g_start_succs _ Hg), elem_of_seq, elem_of_nil.
    pose proof (g_len _ Hg). split; [intros [[] | [? ?]] | intros [? ?]; right];
      (split; [lia | done]). }
  split; simpl; try (intros x Hx; by apply not_elem_of_nil in Hx);
    try apply NoDup_nil_2; try done.
  - apply NoDup_initQueue_gen, NoDup_nil_2.
  - intros x Hx. by apply Hq in Hx as [? _].
  - intros x Hx. apply not_elem_of_nil.
  - intros x Hx. apply not_elem_of_nil.
  - intros x Hx. apply Hq in Hx as [_ ->]. by intros y Hy%not_elem_of_nil.
  - intros x Hx Hp. left. apply Hq. split; [done |].
    destruct (preds (h !!! x)) as [| p ps]; [done |].
    specialize (Hp p ltac:(by left)). by apply not_elem_of_nil in Hp.
Qed.

Lemma inv_bundles_scheduled st x :
  sched_inv h st → x ∈ concat (bundles st) → x ∈ scheduled st.
Proof. intros Hinv Hx. rewrite (si_hist _ _ Hinv), elem_of_app. by left. Qed.

Lemma inv_scheduled_preds st x :
  sched_inv h st → x ∈ scheduled st → preds (h !!! x) ⊆ concat (bundles st).
Proof.
  intros Hinv Hx p Hp. rewrite (si_hist _ _ Hinv), elem_of_app in Hx.
  destruct Hx as [Hx | Hx].
  - apply elem_of_concat_lookup in Hx as (k & b & Hk & Hxb).
    destruct (si_earlier _ _ Hinv k b x p Hk Hxb Hp) as (k' & b' & _ & Hk' & Hpb).
    apply elem_of_concat_lookup. eauto.
  - by apply (si_cur_ready _ _ Hinv x).
Qed.

Lemma inv_queue_not_self st n :
  sched_inv h st → n ∈ queue st → n ∉ preds (h !!! n).
Proof.
  intros Hinv Hn Hself. apply (si_q_s _ _ Hinv n Hn).
  apply (inv_bundles_scheduled st n Hinv).
  by apply (si_q_ready _ _ Hinv n Hn).
Qed.

Lemma accept_inv st n i :
  sched_inv h st → n ∈ queue st → instr (h !!! n) = Instr i →
  sched_inv h (acceptNode h n i (set_delete n (queue st)) st).
Proof.
  intros Hinv Hn Hi.
  pose proof (si_q_range _ _ Hinv n Hn) as Hnr.
  pose proof (si_q_s _ _ Hinv n Hn) as Hns.
  assert (Hrel : ∀ x, x ∈ succs (h !!! n) →
            preds (h !!! x) ⊆ set_add n (scheduled st) →
            (x ∉ queue st) ∧ (x ∉ toUpdate st) ∧ (x ∉ scheduled st) ∧ x ≠ n
            ∧ (1 ≤ x < length h)).
  { intros x Hx Hsub.
    assert (Hxl : x < length h) by (eapply (g_succs_lt _ Hg); [| exact Hx]; lia).
    assert (Hnp : n ∈ preds (h !!! x)) by (by apply (g_sym _ Hg)).
    assert (Hxq : x ∉ queue st).
    { intros Hq. apply Hns. apply (inv_bundles_scheduled st n Hinv).
      by apply (si_q_ready _ _ Hinv x Hq). }
    assert (Hxs : x ∉ scheduled st).
    { intros Hs. apply Hns. apply (inv_bundles_scheduled st n Hinv).
      by apply (inv_scheduled_preds st x Hinv Hs). }
    split_and!; try done.
    - intros Hu. apply Hns. by apply (si_u_ready _ _ Hinv x Hu).
    - intros ->. by apply Hxq.
    - apply (g_preds_le _ Hg n x Hxl) in Hnp. lia. }
  split; simpl.
  - apply NoDup_set_delete, (si_q_nodup _ _ Hinv).
  - apply NoDup_releaseChildren, (si_u_nodup _ _ Hinv).
  - apply NoDup_set_add, (si_s_nodup _ _ Hinv).
  - intros x Hx. apply elem_of_set_delete in Hx as [_ Hx].
    by apply (si_q_range _ _ Hinv).
  - intros x Hx. apply elem_of_releaseChildren in Hx as [Hx | [Hx Hsub]].
    + by apply (si_u_range _ _ Hinv).
    + by apply Hrel.
  - intros x Hx. apply elem_of_set_add in Hx as [-> | Hx];
      [done | by apply (si_s_range _ _ Hinv)].
  - intros x Hx. apply elem_of_set_delete in Hx as [Hne Hx].
    rewrite elem_of_set_add. intros [? | Hs]; [done |].
    by apply (si_q_s _ _ Hinv x).
  - intros x Hx. rewrite elem_of_set_add.
    apply elem_of_releaseChildren in Hx as [Hx | [Hx Hsub]].
    + intros [-> | Hs].
      * by apply (si_q_u _ _ Hinv n).
      * by apply (si_u_s _ _ Hinv x).
    + destruct (Hrel x Hx Hsub) as (_ & _ & ? & ? & _). intros [? | ?]; done.
  - intros x Hx. apply elem_of_set_delete in Hx as [Hne Hx].
    rewrite elem_of_releaseChildren. intros [Hu | [Hc Hsub]].
    + by apply (si_q_u _ _ Hinv x).
    + by destruct (Hrel x Hc Hsub) as (? & _).
  - rewrite set_add_fresh by done. rewrite (si_hist _ _ Hinv).
    by rewrite app_assoc.
  - rewrite omap_app, <- (si_group _ _ Hinv). simpl. unfold instrOf.
    by rewrite Hi.
  - apply (si_sched _ _ Hinv).
  - intros x Hx. apply elem_of_set_delete in Hx as [_ Hx].
    by apply (si_q_ready _ _ Hinv).
  - intros x Hx. apply elem_of_releaseChildren in Hx as [Hx | [Hx Hsub]].
    + intros p Hp. apply elem_of_set_add. right.
      by apply (si_u_ready _ _ Hinv x).
    + done.
  - intros x Hx. apply elem_of_app in Hx as [Hx | Hx].
    + by apply (si_cur_ready _ _ Hinv).
    + apply list_elem_of_singleton in Hx as ->. by apply (si_q_ready _ _ Hinv).
  - apply (si_earlier _ _ Hinv).
  - intros x Hxr Hsub.
    destruct (subset (preds (h !!! x)) (scheduled st)) eqn:Hold.
    + apply subset_spec in Hold.
      destruct (si_complete _ _ Hinv x Hxr Hold) as [Hq | [Hu | Hs]].
      * destruct (decide (x = n)) as [-> | Hne].
        -- right. right. apply elem_of_set_add. by left.
        -- left. by apply elem_of_set_delete.
      * right. left. apply elem_of_releaseChildren. by left.
      * right. right. apply elem_of_set_add. by right.
    + apply subset_false_witness in Hold as (p & Hp & Hps).
      assert (p = n) as ->.
      { specialize (Hsub p Hp). apply elem_of_set_add in Hsub as [? | ?]; done. }
      right. left. apply elem_of_releaseChildren. right. split; [| done].
      apply (g_sym _ Hg); [lia | lia | done].
Qed.

Lemma defer_inv st n :
  sched_inv h st → n ∈ queue st →
  sched_inv h (deferNode n (set_delete n (queue st)) st).
Proof.
  intros Hinv Hn.
  split; simpl.
  - apply NoDup_set_delete, (si_q_nodup _ _ Hinv).
  - apply NoDup_set_add, (si_u_nodup _ _ Hinv).
  - apply (si_s_nodup _ _ Hinv).
  - intros x Hx. apply elem_of_set_delete in Hx as [_ Hx].
    by apply (si_q_range _ _ Hinv).
  - intros x Hx. apply elem_of_set_add in Hx as [-> | Hx];
      [by apply (si_q_range _ _ Hinv) | by apply (si_u_range _ _ Hinv)].
  - apply (si_s_range _ _ Hinv).
  - intros x Hx. apply elem_of_set_delete in Hx as [_ Hx].
    by apply (si_q_s _ _ Hinv).
  - intros x Hx. apply elem_of_set_add in Hx as [-> | Hx].
    + by apply (si_q_s _ _ Hinv).
    + by apply (si_u_s _ _ Hinv).
  - intros x Hx. apply elem_of_set_delete in Hx as [Hne Hx].
    rewrite elem_of_set_add. intros [? | Hu]; [done |].
    by apply (si_q_u _ _ Hinv x).
  - apply (si_hist _ _ Hinv).
  - apply (si_group _ _ Hinv).
  - apply (si_sched _ _ Hinv).
  - intros x Hx. apply elem_of_set_delete in Hx as [_ Hx].
    by apply (si_q_ready _ _ Hinv).
  - intros x Hx. apply elem_of_set_add in Hx as [-> | Hx].
    + intros p Hp. apply (inv_bundles_scheduled st p Hinv).
      by apply (si_q_ready _ _ Hinv n Hn).
    + by apply (si_u_ready _ _ Hinv).
  - apply (si_cur_ready _ _ Hinv).
  - apply (si_earlier _ _ Hinv).
  - intros x Hxr Hsub.
    destruct (si_complete _ _ Hinv x Hxr Hsub) as [Hq | [Hu | Hs]].
    + destruct (decide (x = n)) as [-> | Hne].
      * right. left. apply elem_of_set_add. by left.
      * left. by apply elem_of_set_delete.
    + right. left. apply elem_of_set_add. by right.
    + by right; right.
Qed.

Lemma preds_earlier_snoc (bs : list (list ref)) (b : list ref) :
  preds_earlier h bs →
  (∀ x, x ∈ b → preds (h !!! x) ⊆ concat bs) →
  preds_earlier h (bs ++ [b]).
Proof.
  intros Hbs Hb k c x p Hk Hx Hp.
  destruct (decide (k < length bs)) as [Hlt | Hge].
  - rewrite lookup_app_l in Hk by done.
    destruct (Hbs k c x p Hk Hx Hp) as (k' & b' & Hk' & Hl & Hpb).
    exists k', b'. split_and!; [done | | done].
    rewrite lookup_app_l by lia. done.
  - assert (k = length bs) as ->.
    { apply lookup_lt_Some in Hk. rewrite length_app in Hk. simpl in Hk. lia. }
    rewrite list_lookup_middle in Hk by done. injection Hk as <-.
    specialize (Hb x Hx p Hp).
    apply elem_of_concat_lookup in Hb as (k' & b' & Hk' & Hpb).
    exists k', b'. split_and!; [by apply lookup_lt_Some in Hk' | | done].
    rewrite lookup_app_l by (by apply lookup_lt_Some in Hk'). done.
Qed.

Lemma close_inv st g :
  sched_inv h st → queue st = [] → toGroup (currentGroup st) = Ok g →
  sched_inv h (closeBundle g (toUpdate st) st).
Proof.
  intros Hinv Hq Hgrp.
  assert (Hcat : concat (bundles st ++ [currentNodes st]) = scheduled st).
  { rewrite concat_app. simpl. rewrite app_nil_r. by rewrite (si_hist _ _ Hinv). }
  split; simpl; rewrite ?Hcat.
  - apply (si_u_nodup _ _ Hinv).
  - apply NoDup_nil_2.
  - apply (si_s_nodup _ _ Hinv).
  - apply (si_u_range _ _ Hinv).
  - intros x Hx. by apply not_elem_of_nil in Hx.
  - apply (si_s_range _ _ Hinv).
  - apply (si_u_s _ _ Hinv).
  - intros x Hx. by apply not_elem_of_nil in Hx.
  - intros x Hx. apply not_elem_of_nil.
  - by rewrite app_nil_r.
  - done.
  - apply Forall2_app; [apply (si_sched _ _ Hinv) |]. constructor; [| constructor].
    unfold groupOf. by rewrite <- (si_group _ _ Hinv).
  - apply (si_u_ready _ _ Hinv).
  - intros x Hx. by apply not_elem_of_nil in Hx.
  - intros x Hx. by apply not_elem_of_nil in Hx.
  - apply preds_earlier_snoc;
      [apply (si_earlier _ _ Hinv) | apply (si_cur_ready _ _ Hinv)].
  - intros x Hxr Hsub.
    destruct (si_complete _ _ Hinv x Hxr Hsub) as [Hx | [Hu | Hs]]; auto.
    rewrite Hq in Hx. by apply not_elem_of_nil in Hx.
Qed.
Lemma candidate_queue st n :
  sched_inv h st → n ∈ queue st →
  ∃ i, instr (h !!! n) = Instr i ∧ candidate h (Some n) = Some (n, i).
Proof.
  intros Hinv Hn. destruct (Hinstr n (si_q_range _ _ Hinv n Hn)) as [i Hi].
  exists i. split; [done |]. unfold candidate. by rewrite Hi.
Qed.

(** The five ways a turn of the loop can go. *)
Lemma sched_step_cases st :
  sched_inv h st →
  (∃ n i, n ∈ queue st ∧ instr (h !!! n) = Instr i
        ∧ valid (currentGroup st) i = true
        ∧ sched_step h valid st
          = inl (acceptNode h n i (set_delete n (queue st)) st))
  ∨ (∃ n i, n ∈ queue st ∧ instr (h !!! n) = Instr i
          ∧ valid (currentGroup st) i = false
          ∧ sched_step h valid st
            = inl (deferNode n (set_delete n (queue st)) st))
  ∨ (queue st = []
     ∧ ∃ msg, toGroup (currentGroup st) = Throw msg
            ∧ sched_step h valid st = inr (Throw msg))
  ∨ (queue st = [] ∧ toUpdate st = []
     ∧ ∃ g, toGroup (currentGroup st) = Ok g
          ∧ sched_step h valid st
            = inr (Ok (schedule st ++ [g], bundles st ++ [currentNodes st])))
  ∨ (queue st = [] ∧ toUpdate st ≠ []
     ∧ ∃ g, toGroup (currentGroup st) = Ok g
          ∧ sched_step h valid st = inl (closeBundle g (toUpdate st) st)).
Proof.
  intros Hinv. unfold sched_step.
  destruct (PQueue_next (byPriority h) (queue st)) as [node q] eqn:Hnext.
  apply PQueue_next_inv in Hnext. destruct node as [n |].
  - destruct Hnext as [Hn ->].
    destruct (candidate_queue st n Hinv Hn) as (i & Hi & ->).
    destruct (valid (currentGroup st) i) eqn:Hv.
    + left. exists n, i. done.
    + right. left. exists n, i. done.
  - destruct Hnext as [Hq ->]. simpl. do 2 right.
    destruct (toGroup (currentGroup st)) as [g | msg] eqn:Hgrp.
    + right. rewrite (mergeQueue_nil _ (si_u_nodup _ _ Hinv)).
      destruct (toUpdate st) as [| x u] eqn:Hu.
      * left. split_and!; [done | done |]. by exists g.
      * right. split_and!; [done | done |]. by exists g.
    + left. split; [done |]. by exists msg.
Qed.

Lemma sched_step_inv st st' :
  sched_inv h st → sched_step h valid st = inl st' → sched_inv h st'.
Proof.
  intros Hinv Hstep.
  destruct (sched_step_cases st Hinv)
    as [(n & i & Hn & Hi & _ & Heq) | [(n & i & Hn & Hi & _ & Heq)
        | [(_ & msg & _ & Heq) | [(_ & _ & g & _ & Heq) | (Hq & _ & g & Hgrp & Heq)]]]];
    rewrite Heq in Hstep; try done; injection Hstep as <-.
  - by apply accept_inv.
  - by apply defer_inv.
  - by apply close_inv.
Qed.

Lemma sched_step_final st r :
  sched_inv h st → sched_step h valid st = inr (Ok r) → sched_final h r.
Proof.
  intros Hinv Hstep.
  destruct (sched_step_cases st Hinv)
    as [(n & i & Hn & Hi & _ & Heq) | [(n & i & Hn & Hi & _ & Heq)
        | [(_ & msg & _ & Heq) | [(Hq & Hu & g & Hgrp & Heq) | (Hq & _ & g & Hgrp & Heq)]]]];
    rewrite Heq in Hstep; try done. injection Hstep as <-.
  assert (Hcat : concat (bundles st ++ [currentNodes st]) = scheduled st).
  { rewrite concat_app. simpl. rewrite app_nil_r. by rewrite (si_hist _ _ Hinv). }
  split; simpl; rewrite ?Hcat.
  - apply Forall2_app; [apply (si_sched _ _ Hinv) |]. constructor; [| constructor].
    unfold groupOf. by rewrite <- (si_group _ _ Hinv).
  - apply (si_s_nodup _ _ Hinv).
  - apply (si_s_range _ _ Hinv).
  - apply preds_earlier_snoc;
      [apply (si_earlier _ _ Hinv) | apply (si_cur_ready _ _ Hinv)].
  - intros x Hxr Hsub.
    destruct (si_complete _ _ Hinv x Hxr Hsub) as [Hx | [Hx | Hs]]; [| | done].
    + rewrite Hq in Hx. by apply not_elem_of_nil in Hx.
    + rewrite Hu in Hx. by apply not_elem_of_nil in Hx.
Qed.

Lemma sched_loop_final fuel st r :
  sched_inv h st → sched_loop fuel h valid st = Some (Ok r) → sched_final h r.
Proof.
  revert st. induction fuel as [| fuel IH]; intros st Hinv Hrun; [done |].
  simpl in Hrun. destruct (sched_step h valid st) as [st' | res] eqn:Hstep.
  - apply (IH st'); [by apply (sched_step_inv st) | done].
  - injection Hrun as ->. by apply (sched_step_final st).
Qed.

Lemma listSchedule_run_final fuel r :
  listSchedule_run fuel h startRef valid = Some (Ok r) → sched_final h r.
Proof. apply sched_loop_final, sched_init_inv. Qed.

(** *** Termination *)

Lemma range_length (l : list ref) :
  NoDup l → (∀ x, x ∈ l → 1 ≤ x < length h) → length l ≤ length h - 1.
Proof.
  intros Hnd Hr.
  assert (Hsub : l ⊆+ seq 1 (length h - 1)).
  { apply NoDup_submseteq; [done |]. intros x Hx. apply elem_of_seq.
    specialize (Hr x Hx). lia. }
  apply submseteq_length in Hsub. by rewrite length_seq in Hsub.
Qed.

Hypothesis Hvalid : ∀ i, valid [] i = true.
Hypothesis Hnogroup : ∀ j i, instr (h !!! j) = Instr i → isGroup i = false.

Lemma toGroup_bundle_ok (b : list ref) :
  ∃ g, toGroup (omap (instrOf h) b) = Ok g.
Proof.
  unfold toGroup. rewrite toGroup_loop_spec.
  rewrite (proj2 (existsb_isGroup_false _)); [eauto |].
  intros i Hi. apply list_elem_of_omap in Hi as (n & _ & Hn).
  unfold instrOf in Hn. destruct (instr (h !!! n)) as [| i'] eqn:Hi'; [done |].
  injection Hn as ->. by apply (Hnogroup n).
Qed.

Lemma sched_step_progress st :
  sched_inv h st → (currentGroup st = [] → toUpdate st = []) →
  (∃ r, sched_step h valid st = inr (Ok r))
  ∨ (∃ st', sched_step h valid st = inl st'
          ∧ (currentGroup st' = [] → toUpdate st' = [])
          ∧ sched_measure h st' < sched_measure h st).
Proof.
  intros Hinv Hempty.
  pose proof (g_len _ Hg) as Hlen.
  pose proof (range_length _ (si_s_nodup _ _ Hinv) (si_s_range _ _ Hinv)) as Hs.
  destruct (sched_step_cases st Hinv)
    as [(n & i & Hn & Hi & Hv & Heq) | [(n & i & Hn & Hi & Hv & Heq)
        | [(_ & msg & Hthrow & Heq) | [(Hq & Hu & g & Hgrp & Heq) | (Hq & Hu & g & Hgrp & Heq)]]]].
  - right. eexists. split; [exact Heq |].
    pose proof (accept_inv st n i Hinv Hn Hi) as Hinv'.
    pose proof (range_length _ (si_s_nodup _ _ Hinv') (si_s_range _ _ Hinv')) as Hs'.
    pose proof (length_set_delete n (queue st) Hn) as Hq'.
    split; [simpl; intros Hnil; by destruct (currentGroup st) |].
    unfold sched_measure. simpl in *.
    rewrite set_add_fresh in * by (by apply (si_q_s _ _ Hinv)).
    rewrite length_app in *. simpl in *.
    destruct (currentGroup st ++ [i]) eqn:Hcg; [by destruct (currentGroup st) |].
    destruct (currentGroup st); nia.
  - right. eexists. split; [exact Heq |].
    pose proof (length_set_delete n (queue st) Hn) as Hq'.
    assert (Hne : currentGroup st ≠ []).
    { intros Hnil. rewrite Hnil, Hvalid in Hv. done. }
    split; [done |].
    unfold sched_measure. simpl. lia.
  - exfalso. rewrite (si_group _ _ Hinv) in Hthrow.
    destruct (toGroup_bundle_ok (currentNodes st)) as [g Hg']. congruence.
  - left. eauto.
  - right. eexists. split; [exact Heq |]. split; [done |].
    pose proof (range_length _ (si_u_nodup _ _ Hinv) (si_u_range _ _ Hinv)) as Hul.
    unfold sched_measure. simpl. rewrite Hq. simpl.
    destruct (currentGroup st); [by specialize (Hempty eq_refl) | lia].
Qed.

Lemma sched_loop_terminates fuel st :
  sched_inv h st → (currentGroup st = [] → toUpdate st = []) →
  sched_measure h st < fuel →
  ∃ r, sched_loop fuel h valid st = Some (Ok r).
Proof.
  revert st. induction fuel as [| fuel IH]; intros st Hinv Hempty Hm; [lia |].
  simpl. destruct (sched_step_progress st Hinv Hempty)
    as [[r Hr] | (st' & Hst' & Hempty' & Hlt)].
  - rewrite Hr. eauto.
  - rewrite Hst'. apply IH; [by apply (sched_step_inv st) | done | lia].
Qed.

Lemma sched_measure_init :
  sched_measure h (sched_init h startRef) < length h * (length h + 1).
Proof.
  pose proof (g_len _ Hg) as Hlen.
  pose proof sched_init_inv as Hinv.
  pose proof (range_length _ (si_q_nodup _ _ Hinv) (si_q_range _ _ Hinv)) as Hq.
  unfold sched_measure. simpl in *. nia.
Qed.

Lemma listSchedule_run_terminates fuel :
  length h * (length h + 1) ≤ fuel →
  ∃ r, listSchedule_run fuel h startRef valid = Some (Ok r).
Proof.
  intros Hfuel. apply sched_loop_terminates; [apply sched_init_inv | done |].
  pose proof sched_measure_init. lia.
Qed.
End scheduler.

(** ** Scheduling a graph built by [dataflow] *)

Lemma same_graph_sym (h h' : list Node) : same_graph h h' → same_graph h' h.
Proof.
  intros [Hlen Hk]. split; [done |]. intros k.
  destruct (Hk k) as (-> & -> & ->). done.
Qed.

Lemma same_graph_ok (h h' : list Node) :
  graph_ok h → same_graph h h' → graph_ok h'.
Proof.
  intros [Hlen Hss Hsp Hsi Hsym Hle Hlt] [Hl Hk].
  assert (Hs : ∀ k, succs (h' !!! k) = succs (h !!! k)) by (intros k; apply Hk).
  assert (Hp : ∀ k, preds (h' !!! k) = preds (h !!! k)) by (intros k; apply Hk).
  assert (Hi : ∀ k, instr (h' !!! k) = instr (h !!! k)) by (intros k; apply Hk).
  split; rewrite ?Hl, ?Hs, ?Hp, ?Hi; try done.
  - intros i j. rewrite Hs, Hp. apply Hsym.
  - intros i j. rewrite Hp. apply Hle.
  - intros i j. rewrite Hs. apply Hlt.
Qed.

Section on_dataflow.
Variables (trace : list Instruction) (h : list Node).
Hypothesis Hsame : same_graph (dataflow trace) h.

Lemma on_dataflow_length : length h = S (length trace).
Proof.
  destruct Hsame as [-> _]. apply (df_len _ _ (dataflow_state_ok trace)).
Qed.

Lemma on_dataflow_graph_ok : graph_ok h.
Proof.
  apply (same_graph_ok (dataflow trace)); [| done].
  apply (df_graph _ _ (dataflow_state_ok trace)).
Qed.

Lemma on_dataflow_instr (j : nat) (i : Instruction) :
  trace !! j = Some i → instr (h !!! S j) = Instr i.
Proof.
  intros Hj. destruct Hsame as [_ Hk]. destruct (Hk (S j)) as (_ & _ & ->).
  by apply (df_instr _ _ (dataflow_state_ok trace)).
Qed.

Lemma on_dataflow_instr_some (j : nat) :
  1 ≤ j < length h → ∃ i, instr (h !!! j) = Instr i.
Proof.
  rewrite on_dataflow_length. intros Hj.
  destruct (lookup_lt_is_Some_2 trace (j - 1)) as [i Hi]; [lia |].
  exists i. replace j with (S (j - 1)) by lia. by apply on_dataflow_instr.
Qed.

Lemma on_dataflow_instr_inv (j : nat) (i : Instruction) :
  instr (h !!! j) = Instr i → i ∈ trace.
Proof.
  intros Hi. pose proof on_dataflow_graph_ok as Hg.
  destruct (decide (j = 0)) as [-> | Hj0].
  { rewrite (g_start_instr _ Hg) in Hi. done. }
  destruct (decide (j < length h)) as [Hj | Hj].
  - rewrite on_dataflow_length in Hj.
    destruct (lookup_lt_is_Some_2 trace (j - 1)) as [i' Hi']; [lia |].
    pose proof (on_dataflow_instr _ _ Hi') as Hi2.
    replace (S (j - 1)) with j in Hi2 by lia.
    rewrite Hi in Hi2. injection Hi2 as ->.
    apply list_elem_of_lookup. eauto.
  - rewrite lookup_total_beyond in Hi by lia. done.
Qed.

Lemma on_dataflow_instrs : omap (instrOf h) (seq 1 (length trace)) = trace.
Proof.
  assert (Hgen : ∀ tr, (∀ j i, tr !! j = Some i → instrOf h (S j) = Some i) →
            omap (instrOf h) (seq 1 (length tr)) = tr).
  { induction tr as [| i tr IH] using rev_ind; intros Htr; [done |].
    rewrite length_app. simpl. rewrite Nat.add_1_r, seq_S, omap_app.
    rewrite IH.
    - simpl. rewrite (Htr (length tr) i); [done |].
      by apply list_lookup_middle.
    - intros j i' Hj. apply Htr. by apply lookup_app_l_Some. }
  apply Hgen. intros j i Hj. unfold instrOf.
  by rewrite (on_dataflow_instr j i Hj).
Qed.

(** Without an instruction that reads its own destination, every edge
    goes from an earlier node to a later one. *)
Lemma on_dataflow_forward (p x : nat) :
  (∀ i X, i ∈ trace → instr_dest i = Some X → readsB X i = false) →
  x < length h → p ∈ preds (h !!! x) → 1 ≤ p < x.
Proof.
  intros Hnoself Hx Hp.
  pose proof on_dataflow_graph_ok as Hg.
  pose proof (g_preds_le _ Hg p x Hx Hp) as Hle.
  destruct (decide (p = x)) as [-> | Hne]; [| lia].
  exfalso. destruct Hsame as [_ Hk]. destruct (Hk x) as (_ & Hpr & _).
  rewrite Hpr in Hp.
  destruct (df_self _ _ (dataflow_state_ok trace) x Hp) as (i & X & Hi & Hd & Hr).
  rewrite (Hnoself i X) in Hr; [done | | done].
  apply list_elem_of_lookup. eauto.
Qed.
End on_dataflow.

Lemma everything_scheduled (h : list Node) (r : list Group * list (list ref)) :
  sched_final h r →
  (∀ p x, x < length h → p ∈ preds (h !!! x) → 1 ≤ p < x) →
  concat r.2 ≡ₚ seq 1 (length h - 1).
Proof.
  intros Hfin Hfwd.
  assert (Hall : ∀ x, 1 ≤ x < length h → x ∈ concat r.2).
  { intros x. induction x as [x IH] using lt_wf_ind. intros Hx.
    apply (sf_complete _ _ Hfin x Hx). intros p Hp.
    pose proof (Hfwd p x ltac:(lia) Hp). apply IH; lia. }
  apply NoDup_Permutation.
  - apply (sf_nodup _ _ Hfin).
  - apply NoDup_seq.
  - intros x. rewrite elem_of_seq. split.
    + intros Hx. apply (sf_range _ _ Hfin) in Hx. lia.
    + intros Hx. apply Hall. lia.
Qed.

Lemma toGroup_instrs (bundle : list Instruction) (g : Group) :
  toGroup bundle = Ok g →
  vi_instr <$> instrs g = filter (λ i, hasDest i) bundle.
Proof.
  unfold toGroup. rewrite toGroup_loop_spec.
  destruct (existsb isGroup bundle); [done |]. intros [= <-]. simpl.
  apply omap_asValue_filter.
Qed.

Lemma groups_instrs (h : list Node) (bs : list (list ref)) (sched : list Group) :
  Forall2 (groupOf h) bs sched →
  vi_instr <$> concat (instrs <$> sched)
    = filter (λ i, hasDest i) (omap (instrOf h) (concat bs)).
Proof.
  induction 1 as [| b g bs sched Hbg _ IH]; [done |].
  rewrite fmap_cons. cbn [concat].
  rewrite fmap_app, omap_app, filter_app, IH. f_equal.
  by apply toGroup_instrs.
Qed.

Lemma NoDup_concat_unique (bs : list (list ref)) (i k : nat)
    (bi bk : list ref) (x : ref) :
  NoDup (concat bs) → bs !! i = Some bi → bs !! k = Some bk →
  x ∈ bi → x ∈ bk → i = k.
Proof.
  revert i k. induction bs as [| b bs IH]; intros i k Hnd Hi Hk Hxi Hxk.
  - by rewrite lookup_nil in Hi.
  - simpl in Hnd. apply NoDup_app in Hnd as (Hb & Hdisj & Hrest).
    destruct i as [| i], k as [| k]; simpl in *.
    + done.
    + injection Hi as <-. exfalso. apply (Hdisj x Hxi).
      apply elem_of_concat_lookup. eauto.
    + injection Hk as <-. exfalso. apply (Hdisj x Hxk).
      apply elem_of_concat_lookup. eauto.
    + f_equal. by apply IH.
Qed.

(** C1. The schedule is not complete.  [dataflow] registers an instruction
    as writer of its destination before it looks up the writers of its
    arguments, so the node of an instruction that lists its own
    destination among its arguments is its own predecessor, and
    [listSchedule], which queues a node only once all its predecessors are
    scheduled, never queues it.  For every trace without Group that holds
    such an instruction [i], every [valid] that accepts any candidate when
    the bundle is empty, and every assignment of priorities to the graph:
    [listSchedule] returns within [(n + 1) * (n + 2)] turns of its loop
    ([n] the length of the trace); [i] is an instruction of the trace that
    has a destination; and yet [i] is a micro-instruction of no Group
    returned, its node being in no bundle. *)
Theorem listSchedule_drops_self_reading (pre post : list Instruction)
    (i : Instruction) (X : Ident)
    (valid : list Instruction → Instruction → bool) (h : list Node)
    (fuel : nat) :
  (∀ j, j ∈ pre ++ i :: post → isGroup j = false) →
  instr_dest i = Some X → readsB X i = true →
  (∀ j, valid [] j = true) →
  same_graph (dataflow (pre ++ i :: post)) h →
  (length (pre ++ i :: post) + 1) * (length (pre ++ i :: post) + 2) ≤ fuel →
  ∃ sched bs,
    listSchedule_run fuel h startRef valid = Some (Ok (sched, bs))
    ∧ listSchedule fuel h startRef valid = Some (Ok sched)
    ∧ Forall2 (groupOf h) bs sched
    ∧ i ∈ filter (λ j, hasDest j) (pre ++ i :: post)
    ∧ (i ∉ vi_instr <$> concat (instrs <$> sched))
    ∧ (S (length pre) ∉ concat bs).
Proof.
  intros Hnogrp Hd Hr Hvalid Hsame Hfuel.
  pose proof (on_dataflow_graph_ok _ h Hsame) as Hg.
  pose proof (on_dataflow_length _ h Hsame) as Hlen.
  pose proof (on_dataflow_instr_some _ h Hsame) as Hinstr.
  assert (Hnogroup : ∀ j i', instr (h !!! j) = Instr i' → isGroup i' = false).
  { intros j i' Hi. apply Hnogrp. by apply (on_dataflow_instr_inv _ h Hsame j). }
  destruct (listSchedule_run_terminates h valid Hg Hinstr Hvalid Hnogroup fuel)
    as [[sched bs] Hrun].
  { rewrite Hlen. lia. }
  pose proof (listSchedule_run_final h valid Hg Hinstr fuel _ Hrun) as Hfin.
  (* a node in a bundle is not its own predecessor *)
  assert (Hnoself : ∀ x, x ∈ concat bs → x ∉ preds (h !!! x)).
  { intros x Hx Hself. apply elem_of_concat_lookup in Hx as (k & b & Hk & Hxb).
    destruct (sf_earlier _ _ Hfin k b x x Hk Hxb Hself)
      as (k' & b' & Hlt & Hk' & Hxb').
    simpl in *.
    pose proof (NoDup_concat_unique bs k k' b b' x (sf_nodup _ _ Hfin)
                  Hk Hk' Hxb Hxb').
    lia. }
  (* every node that carries [i] is its own predecessor *)
  assert (Hloop : ∀ x, 1 ≤ x < length h → instrOf h x = Some i →
            x ∈ preds (h !!! x)).
  { intros x Hx Hix. rewrite Hlen in Hx.
    destruct (lookup_lt_is_Some_2 (pre ++ i :: post) (x - 1)) as [i' Hi'];
      [lia |].
    pose proof (on_dataflow_instr _ h Hsame _ _ Hi') as Hi2.
    replace (S (x - 1)) with x in Hi2 by lia.
    unfold instrOf in Hix. rewrite Hi2 in Hix. injection Hix as ->.
    destruct Hsame as [_ Hk]. destruct (Hk x) as (_ & -> & _).
    pose proof (dataflow_preds_spec (take (x - 1) (pre ++ i :: post))
                  (drop (S (x - 1)) (pre ++ i :: post)) i x) as Hspec.
    rewrite (take_drop_middle _ _ _ Hi') in Hspec.
    rewrite length_take_le in Hspec by lia.
    replace (S (x - 1)) with x in Hspec by lia.
    apply Hspec. right. exists X. split; [done |].
    unfold writesB. rewrite Hd. by rewrite bool_decide_eq_true_2. }
  exists sched, bs. split_and!.
  - done.
  - unfold listSchedule. by rewrite Hrun.
  - apply (sf_groups _ _ Hfin).
  - apply list_elem_of_filter. split.
    + unfold hasDest. by rewrite Hd.
    + apply elem_of_app. right. by left.
  - rewrite (groups_instrs h bs sched (sf_groups _ _ Hfin)).
    intros Hin. apply list_elem_of_filter in Hin as [_ Hin].
    apply list_elem_of_omap in Hin as (x & Hx & Hix).
    apply (Hnoself x Hx). apply Hloop; [| done].
    apply (sf_range _ _ Hfin x Hx).
  - intros Hx. apply (Hnoself _ Hx). apply Hloop.
    + apply (sf_range _ _ Hfin _ Hx).
    + unfold instrOf.
      rewrite (on_dataflow_instr _ h Hsame (length pre) i); [done |].
      by apply list_lookup_middle.
Qed.

Lemma listSchedule_drops_self_reading_witness :
  ∃ sched bs,
    listSchedule_run 20 (dataflow scenarioLoop) startRef (λ _ _, true)
      = Some (Ok (sched, bs))
    ∧ listSchedule 20 (dataflow scenarioLoop) startRef (λ _ _, true)
      = Some (Ok sched)
    ∧ Forall2 (groupOf (dataflow scenarioLoop)) bs sched
    ∧ IValue (mkValueOp Oadd ["i"; "one"] "i" TInt)
      ∈ filter (λ j, hasDest j) scenarioLoop
    ∧ (IValue (mkValueOp Oadd ["i"; "one"] "i" TInt)
       ∉ vi_instr <$> concat (instrs <$> sched))
    ∧ (2 ∉ concat bs).
Proof.
  apply (listSchedule_drops_self_reading
           [IConst (mkConst (VNumber 0) "i" TInt)]
           [IValue (mkValueOp Oid ["i"] "y" TInt)]
           (IValue (mkValueOp Oadd ["i"; "one"] "i" TInt)) "i"
           (λ _ _, true) (dataflow scenarioLoop) 20).
  - intros j Hj.
    repeat (apply elem_of_cons in Hj as [-> | Hj]; [reflexivity |]).
    by apply not_elem_of_nil in Hj.
  - reflexivity.
  - reflexivity.
  - reflexivity.
  - split; [reflexivity | intros k; split_and!; reflexivity].
  - simpl. lia.
Defined.

(** Away from such instructions nothing is lost.  For every trace that
    holds no Group and no instruction that lists its own destination among
    its arguments, every [valid] that accepts any candidate when the
    bundle is empty, and every assignment of priorities to the graph
    [dataflow] builds, [listSchedule] returns within [(n + 1) * (n + 2)]
    turns of its loop ([n] the length of the trace).  Every node is in
    exactly one bundle, each Group is the materialisation of its bundle,
    and the micro-instructions of all the Groups together are the
    instructions of the trace that have a destination, each as often as
    it occurs in the trace. *)
Theorem listSchedule_complete (trace : list Instruction)
    (valid : list Instruction → Instruction → bool) (h : list Node)
    (fuel : nat) :
  (∀ i, i ∈ trace → isGroup i = false) →
  (∀ i X, i ∈ trace → instr_dest i = Some X → readsB X i = false) →
  (∀ i, valid [] i = true) →
  same_graph (dataflow trace) h →
  (length trace + 1) * (length trace + 2) ≤ fuel →
  ∃ sched bs,
    listSchedule_run fuel h startRef valid = Some (Ok (sched, bs))
    ∧ listSchedule fuel h startRef valid = Some (Ok sched)
    ∧ Forall2 (groupOf h) bs sched
    ∧ concat bs ≡ₚ seq 1 (length trace)
    ∧ vi_instr <$> concat (instrs <$> sched) ≡ₚ filter (λ i, hasDest i) trace.
Proof.
  intros Hnogrp Hnoself Hvalid Hsame Hfuel.
  pose proof (on_dataflow_graph_ok trace h Hsame) as Hg.
  pose proof (on_dataflow_length trace h Hsame) as Hlen.
  pose proof (on_dataflow_instr_some trace h Hsame) as Hinstr.
  assert (Hnogroup : ∀ j i, instr (h !!! j) = Instr i → isGroup i = false).
  { intros j i Hi. apply Hnogrp. by apply (on_dataflow_instr_inv trace h Hsame j). }
  destruct (listSchedule_run_terminates h valid Hg Hinstr Hvalid Hnogroup fuel)
    as [[sched bs] Hrun].
  { rewrite Hlen. lia. }
  pose proof (listSchedule_run_final h valid Hg Hinstr fuel _ Hrun) as Hfin.
  assert (Hperm : concat bs ≡ₚ seq 1 (length trace)).
  { replace (length trace) with (length h - 1) by lia.
    apply (everything_scheduled h (sched, bs) Hfin).
    intros p x. by apply (on_dataflow_forward trace h Hsame). }
  exists sched, bs. split_and!.
  - done.
  - unfold listSchedule. by rewrite Hrun.
  - apply (sf_groups _ _ Hfin).
  - done.
  - rewrite (groups_instrs h bs sched (sf_groups _ _ Hfin)).
    rewrite Hperm. by rewrite (on_dataflow_instrs trace h Hsame).
Qed.

Lemma listSchedule_complete_witness :
  ∃ sched bs,
    listSchedule_run 20 (dataflow scenarioC) startRef
      (λ g _, match g with [] => true | _ => false end)
      = Some (Ok (sched, bs))
    ∧ listSchedule 20 (dataflow scenarioC) startRef
        (λ g _, match g with [] => true | _ => false end)
      = Some (Ok sched)
    ∧ Forall2 (groupOf (dataflow scenarioC)) bs sched
    ∧ concat bs ≡ₚ seq 1 (length scenarioC)
    ∧ vi_instr <$> concat (instrs <$> sched)
      ≡ₚ filter (λ i, hasDest i) scenarioC.
Proof.
  apply (listSchedule_complete scenarioC
           (λ g _, match g with [] => true | _ => false end)
           (dataflow scenarioC) 20).
  - intros i Hi. unfold scenarioC in Hi.
    repeat (apply elem_of_cons in Hi as [-> | Hi]; [reflexivity |]).
    by apply not_elem_of_nil in Hi.
  - intros i X Hi Hd. unfold scenarioC in Hi.
    repeat (apply elem_of_cons in Hi as [-> | Hi];
            [first [discriminate Hd | reflexivity] |]).
    by apply not_elem_of_nil in Hi.
  - reflexivity.
  - split; [reflexivity | intros k; split_and!; reflexivity].
  - simpl. lia.
Defined.

(** C3. In a schedule returned for a graph built by [dataflow], whatever
    priorities it was given and whatever [valid] is: each Group is the
    materialisation of the bundle of nodes of the same index, no node is
    in two bundles, and for every dependence edge from [A] to [B] with
    both nodes in the schedule, the bundle of [A] comes strictly before
    the bundle of [B] -- so no two instructions of one Group are related
    by a dependence edge. *)
Theorem listSchedule_respects_dependences (trace : list Instruction)
    (valid : list Instruction → Instruction → bool) (h : list Node)
    (fuel : nat) (sched : list Group) (bs : list (list ref)) :
  same_graph (dataflow trace) h →
  listSchedule_run fuel h startRef valid = Some (Ok (sched, bs)) →
  Forall2 (groupOf h) bs sched
  ∧ NoDup (concat bs)
  ∧ ∀ A B i j bi bj,
      A ∈ preds (h !!! B) →
      bs !! i = Some bi → A ∈ bi →
      bs !! j = Some bj → B ∈ bj →
      i < j.
Proof.
  intros Hsame Hrun.
  pose proof (on_dataflow_graph_ok trace h Hsame) as Hg.
  pose proof (on_dataflow_instr_some trace h Hsame) as Hinstr.
  pose proof (listSchedule_run_final h valid Hg Hinstr fuel _ Hrun) as Hfin.
  split_and!.
  - apply (sf_groups _ _ Hfin).
  - apply (sf_nodup _ _ Hfin).
  - intros A B i j bi bj HAB Hi HA Hj HB.
    destruct (sf_earlier _ _ Hfin j bj B A Hj HB HAB) as (k & bk & Hlt & Hk & HAk).
    simpl in *.
    by rewrite (NoDup_concat_unique bs i k bi bk A (sf_nodup _ _ Hfin) Hi Hk HA HAk).
Qed.

Lemma listSchedule_respects_dependences_witness :
  Forall2 (groupOf (dataflow scenarioA)) [[1; 2]; [3]]
    [mkGroup [] [VConst (mkConst (VNumber 1) "x" TInt);
                 VConst (mkConst (VNumber 2) "y" TInt)] "";
     mkGroup [] [VOp (mkValueOp Oadd ["x"; "y"] "z" TInt)] ""]
  ∧ NoDup (concat [[1; 2]; [3]])
  ∧ ∀ A B i j bi bj,
      A ∈ preds (dataflow scenarioA !!! B) →
      [[1; 2]; [3]] !! i = Some bi → A ∈ bi →
      [[1; 2]; [3]] !! j = Some bj → B ∈ bj →
      i < j.
Proof.
  apply (listSchedule_respects_dependences scenarioA (λ _ _, true)
           (dataflow scenarioA) 20).
  - split; [reflexivity | intros k; split_and!; reflexivity].
  - reflexivity.
Defined.

Lemma sched_loop_nonempty (fuel : nat) (h : list Node)
    (valid : list Instruction → Instruction → bool) (st : Sched)
    (r : list Group * list (list ref)) :
  sched_loop fuel h valid st = Some (Ok r) → r.1 ≠ [].
Proof.
  revert st. induction fuel as [| fuel IH]; intros st Hrun; [done |].
  simpl in Hrun. destruct (sched_step h valid st) as [st' | res] eqn:Hstep.
  - by apply (IH st').
  - injection Hrun as ->. unfold sched_step in Hstep.
    destruct (PQueue_next (byPriority h) (queue st)) as [node q].
    destruct (candidate h node) as [[n i] |].
    + by destruct (valid (currentGroup st) i).
    + destruct (toGroup (currentGroup st)) as [g | msg]; [| done].
      destruct (mergeQueue q (toUpdate st)); [| done].
      injection Hstep as <-. simpl. by destruct (schedule st).
Qed.

(** The history variables do not steer the loop: runs from two states with
    the same locals return the same schedule. *)
Lemma sched_loop_history_irrelevant (fuel : nat) (h : list Node)
    (valid : list Instruction → Instruction → bool) (st1 st2 : Sched) :
  same_locals st1 st2 →
  outcome_map fst <$> sched_loop fuel h valid st1
    = outcome_map fst <$> sched_loop fuel h valid st2.
Proof.
  revert st1 st2. induction fuel as [| fuel IH]; intros st1 st2 Hsame; [done |].
  destruct Hsame as (Hq & Hs & Hu & Hg & Hsch).
  simpl. unfold sched_step. rewrite Hq, Hg, Hu, Hsch.
  destruct (PQueue_next (byPriority h) (queue st2)) as [node q].
  destruct (candidate h node) as [[n i] |].
  - destruct (valid (currentGroup st2) i); apply IH; unfold same_locals; simpl;
      rewrite ?Hs, ?Hu, ?Hg, ?Hsch; done.
  - destruct (toGroup (currentGroup st2)) as [g | msg]; [| done].
    destruct (mergeQueue q (toUpdate st2)) as [| x q']; [done |].
    apply IH. unfold same_locals. simpl. by rewrite Hs, Hsch.
Qed.

(** C10. For the empty trace [listSchedule] returns one Group, which has
    no condition, no micro-instruction and the empty fail label; and
    whatever graph, root and [valid] it is given, a schedule it returns is
    never empty. *)
Theorem listSchedule_never_empty :
  (∀ valid fuel,
     listSchedule (S fuel) (dataflow []) startRef valid
       = Some (Ok [mkGroup [] [] ""]))
  ∧ (∀ fuel h dag valid sched,
       listSchedule fuel h dag valid = Some (Ok sched) → sched ≠ []).
Proof.
  split.
  - intros valid fuel. reflexivity.
  - intros fuel h dag valid sched. unfold listSchedule, listSchedule_run.
    destruct (sched_loop fuel h valid (sched_init h dag)) as [[r | msg] |] eqn:Hrun;
      simpl; try done.
    intros [= <-]. by apply (sched_loop_nonempty fuel h valid (sched_init h dag) r).
Qed.

Lemma listSchedule_never_empty_witness :
  [mkGroup [] [VConst (mkConst (VNumber 1) "x" TInt);
               VConst (mkConst (VNumber 2) "y" TInt)] "";
   mkGroup [] [VOp (mkValueOp Oadd ["x"; "y"] "z" TInt)] ""] ≠ [].
Proof.
  apply (proj2 listSchedule_never_empty 20 (dataflow scenarioA) startRef
           (λ _ _, true)).
  reflexivity.
Defined.

(** * Further properties of the code *)

(** ** [subset] and [PQueue] *)

(** X1. [subset(s1, s2)] answers true exactly when every element of [s1]
    is an element of [s2]; in particular it is true for the empty [s1]. *)
Theorem subset_correct (s1 s2 : list ref) :
  (subset s1 s2 = true ↔ ∀ x, x ∈ s1 → x ∈ s2)
  ∧ subset [] s2 = true.
Proof. split; [apply subset_spec | done]. Qed.

(** X2. [PQueue.next] on an empty set returns [undefined] and leaves the
    set empty; on any other set it returns one of its elements and
    removes that element and no other, keeping the order of the rest --
    whatever [compare] is. *)
Theorem PQueue_next_removes (compare : ref → ref → bool) (t : list ref) :
  match PQueue_next compare t with
  | (Some x, q) =>
      x ∈ t ∧ q = filter (λ y, y ≠ x) t ∧ (x ∉ q)
      ∧ ∀ y, y ∈ q ↔ y ∈ t ∧ y ≠ x
  | (None, q) => t = [] ∧ q = []
  end.
Proof.
  destruct (PQueue_next compare t) as [[x |] q] eqn:Hnext;
    apply PQueue_next_inv in Hnext; [| done].
  destruct Hnext as [Hx ->]. split_and!; [done | done | |].
  - rewrite elem_of_set_delete. by intros [? _].
  - intros y. rewrite elem_of_set_delete. tauto.
Qed.

Section greatest.
Variable h : list Node.

Lemma byPriority_assigned (a b : ref) :
  truthy (priority (h !!! a)) = true → truthy (priority (h !!! b)) = true →
  byPriority h a b = (prioOf h a <? prioOf h b)%Z.
Proof.
  intros Ha Hb. unfold byPriority, nodeCompare, prioOf. rewrite Ha, Hb. simpl.
  destruct (priority (h !!! a)); [| done].
  by destruct (priority (h !!! b)).
Qed.

Lemma next_scan_first_greatest (pre mid : list ref) (b : ref) (items : list ref) :
  (∀ y, y ∈ b :: items → truthy (priority (h !!! y)) = true) →
  (∀ y, y ∈ pre → (prioOf h y < prioOf h b)%Z) →
  (∀ y, y ∈ mid → (prioOf h y ≤ prioOf h b)%Z) →
  ∃ l1 x l2,
    pre ++ b :: mid ++ items = l1 ++ x :: l2
    ∧ next_scan (byPriority h) (Some b) items = Some x
    ∧ (∀ y, y ∈ l1 → (prioOf h y < prioOf h x)%Z)
    ∧ (∀ y, y ∈ l2 → (prioOf h y ≤ prioOf h x)%Z).
Proof.
  revert pre mid b. induction items as [| i rest IH]; intros pre mid b Hall Hpre Hmid.
  - exists pre, b, mid. rewrite app_nil_r. done.
  - simpl. rewrite byPriority_assigned
      by (apply Hall; first [by left | right; by left]).
    destruct (Z.ltb_spec (prioOf h b) (prioOf h i)) as [Hlt | Hge].
    + destruct (IH (pre ++ b :: mid) [] i) as (l1 & x & l2 & Heq & Hscan & H1 & H2).
      * intros y Hy. apply Hall. by right.
      * intros y Hy. apply elem_of_app in Hy as [Hy | Hy].
        -- specialize (Hpre y Hy). lia.
        -- apply elem_of_cons in Hy as [-> | Hy]; [done |].
           specialize (Hmid y Hy). lia.
      * intros y Hy. by apply not_elem_of_nil in Hy.
      * exists l1, x, l2. split_and!; try done.
        rewrite <- Heq. simpl. by rewrite <- app_assoc.
    + destruct (IH pre (mid ++ [i]) b) as (l1 & x & l2 & Heq & Hscan & H1 & H2).
      * intros y Hy. apply Hall.
        apply elem_of_cons in Hy as [-> | Hy]; [by left | right; by right].
      * done.
      * intros y Hy. apply elem_of_app in Hy as [Hy | Hy]; [by apply Hmid |].
        apply list_elem_of_singleton in Hy as ->. lia.
      * exists l1, x, l2. split_and!; try done.
        rewrite <- Heq. by rewrite <- app_assoc.
Qed.

(** X3. When every node of the worklist has a non-zero priority,
    [PQueue.next] with [nodeCompare] removes a node of greatest priority,
    and among several of them the one inserted first: every node before
    it has a strictly smaller priority, every node after it a smaller or
    equal one. *)
Theorem PQueue_next_greatest (t : list ref) :
  t ≠ [] →
  (∀ y, y ∈ t → truthy (priority (h !!! y)) = true) →
  ∃ l1 x l2,
    t = l1 ++ x :: l2
    ∧ PQueue_next (byPriority h) t = (Some x, set_delete x t)
    ∧ (∀ y, y ∈ l1 → (prioOf h y < prioOf h x)%Z)
    ∧ (∀ y, y ∈ l2 → (prioOf h y ≤ prioOf h x)%Z).
Proof.
  intros Hne Hall. destruct t as [| b items]; [done |].
  destruct (next_scan_first_greatest [] [] b items Hall)
    as (l1 & x & l2 & Heq & Hscan & H1 & H2).
  - intros y Hy. by apply not_elem_of_nil in Hy.
  - intros y Hy. by apply not_elem_of_nil in Hy.
  - exists l1, x, l2. split_and!; try done.
    unfold PQueue_next. simpl. by rewrite Hscan.
Qed.

Lemma Prior_byPriority_assigned (a b : ref) :
  truthy (priority (h !!! a)) = true → truthy (priority (h !!! b)) = true →
  Prior.byPriority h a b = (prioOf h b <? prioOf h a)%Z.
Proof.
  intros Ha Hb. unfold Prior.byPriority, Prior.nodeCompare, prioOf.
  rewrite Ha, Hb. simpl.
  destruct (priority (h !!! a)); [| done].
  by destruct (priority (h !!! b)).
Qed.

Lemma Prior_next_scan_first_least (pre mid : list ref) (b : ref) (items : list ref) :
  (∀ y, y ∈ b :: items → truthy (priority (h !!! y)) = true) →
  (∀ y, y ∈ pre → (prioOf h b < prioOf h y)%Z) →
  (∀ y, y ∈ mid → (prioOf h b ≤ prioOf h y)%Z) →
  ∃ l1 x l2,
    pre ++ b :: mid ++ items = l1 ++ x :: l2
    ∧ next_scan (Prior.byPriority h) (Some b) items = Some x
    ∧ (∀ y, y ∈ l1 → (prioOf h x < prioOf h y)%Z)
    ∧ (∀ y, y ∈ l2 → (prioOf h x ≤ prioOf h y)%Z).
Proof.
  revert pre mid b. induction items as [| i rest IH]; intros pre mid b Hall Hpre Hmid.
  - exists pre, b, mid. rewrite app_nil_r. done.
  - simpl. rewrite Prior_byPriority_assigned
      by (apply Hall; first [by left | right; by left]).
    destruct (Z.ltb_spec (prioOf h i) (prioOf h b)) as [Hlt | Hge].
    + destruct (IH (pre ++ b :: mid) [] i) as (l1 & x & l2 & Heq & Hscan & H1 & H2).
      * intros y Hy. apply Hall. by right.
      * intros y Hy. apply elem_of_app in Hy as [Hy | Hy].
        -- specialize (Hpre y Hy). lia.
        -- apply elem_of_cons in Hy as [-> | Hy]; [done |].
           specialize (Hmid y Hy). lia.
      * intros y Hy. by apply not_elem_of_nil in Hy.
      * exists l1, x, l2. split_and!; try done.
        rewrite <- Heq. simpl. by rewrite <- app_assoc.
    + destruct (IH pre (mid ++ [i]) b) as (l1 & x & l2 & Heq & Hscan & H1 & H2).
      * intros y Hy. apply Hall.
        apply elem_of_cons in Hy as [-> | Hy]; [by left | right; by right].
      * done.
      * intros y Hy. apply elem_of_app in Hy as [Hy | Hy]; [by apply Hmid |].
        apply list_elem_of_singleton in Hy as ->. lia.
      * exists l1, x, l2. split_and!; try done.
        rewrite <- Heq. by rewrite <- app_assoc.
Qed.

(** X4. With the earlier [nodeCompare] (which tests [>] where the later
    one tests [<]) the same [PQueue.next] removes a node of least
    priority, the first inserted among several, when every node of the
    worklist has a non-zero priority. *)
Theorem Prior_PQueue_next_least (t : list ref) :
  t ≠ [] →
  (∀ y, y ∈ t → truthy (priority (h !!! y)) = true) →
  ∃ l1 x l2,
    t = l1 ++ x :: l2
    ∧ PQueue_next (Prior.byPriority h) t = (Some x, set_delete x t)
    ∧ (∀ y, y ∈ l1 → (prioOf h x < prioOf h y)%Z)
    ∧ (∀ y, y ∈ l2 → (prioOf h x ≤ prioOf h y)%Z).
Proof.
  intros Hne Hall. destruct t as [| b items]; [done |].
  destruct (Prior_next_scan_first_least [] [] b items Hall)
    as (l1 & x & l2 & Heq & Hscan & H1 & H2).
  - intros y Hy. by apply not_elem_of_nil in Hy.
  - intros y Hy. by apply not_elem_of_nil in Hy.
  - exists l1, x, l2. split_and!; try done.
    unfold PQueue_next. simpl. by rewrite Hscan.
Qed.
End greatest.

(** ** The graph of [dataflow] *)

Lemma add_edge_priority (p c : ref) (h : list Node) (k : ref) :
  priority (add_edge p c h !!! k) = priority (h !!! k).
Proof.
  unfold add_edge, add_pred, add_succ.
  rewrite !list_lookup_total_alter.
  repeat case_decide; destruct_and?; subst; done.
Qed.

Lemma add_edges_priority (c : ref) (h : list Node) (ps : list ref) (k : ref) :
  priority (add_edges c h ps !!! k) = priority (h !!! k).
Proof.
  revert h. induction ps as [| p ps IH]; intros h; simpl; [done |].
  by rewrite IH, add_edge_priority.
Qed.

Lemma dataflow_priority_none (trace : list Instruction) (k : ref) :
  priority (dataflow trace !!! k) = None.
Proof.
  revert k. induction trace as [| i tr IH] using rev_ind; intros k.
  - destruct k; [done |]. by rewrite lookup_total_beyond by (simpl; lia).
  - unfold dataflow in *. rewrite dataflow_state_snoc.
    pose proof (dataflow_state_ok tr) as Hok.
    pose proof (df_len _ _ Hok) as Hlen.
    pose proof (df_graph _ _ Hok) as Hg.
    rewrite (dataflow_step_heap _ _ _ Hok), !add_edges_priority.
    destruct (decide (k = 0)) as [-> | Hk0].
    { rewrite alloc_start by done. apply IH. }
    destruct (decide (k < length (heap (dataflow_state tr)))) as [Hlt | Hge].
    { rewrite alloc_old by (done || lia). apply IH. }
    destruct (decide (k = length (heap (dataflow_state tr)))) as [-> | Hne].
    { by rewrite alloc_new. }
    rewrite lookup_total_beyond; [done |]. rewrite alloc_length. lia.
Qed.

(** X5. [dataflow] makes one node per instruction of the trace, in trace
    order, whatever the instruction is: the start node lists them all as
    successors, in that order, and has no predecessor; the node at [j + 1]
    carries the [j]-th instruction; and every priority is left
    undefined. *)
Theorem dataflow_coverage (trace : list Instruction) :
  length (dataflow trace) = S (length trace)
  ∧ instr (dataflow trace !!! startRef) = Start
  ∧ succs (dataflow trace !!! startRef) = seq 1 (length trace)
  ∧ preds (dataflow trace !!! startRef) = []
  ∧ (∀ j i, trace !! j = Some i → instr (dataflow trace !!! S j) = Instr i)
  ∧ (∀ k, priority (dataflow trace !!! k) = None).
Proof.
  pose proof (dataflow_state_ok trace) as Hok.
  pose proof (df_graph _ _ Hok) as Hg.
  pose proof (df_len _ _ Hok) as Hlen.
  unfold dataflow, startRef. split_and!.
  - done.
  - apply Hg.
  - rewrite (g_start_succs _ Hg), Hlen. f_equal. lia.
  - apply Hg.
  - apply (df_instr _ _ Hok).
  - apply dataflow_priority_none.
Qed.

(** X6. In the graph of [dataflow] every dependence edge is recorded at
    both ends (the successor set of the source and the predecessor set of
    the target), the start node is nobody's predecessor, and an edge
    never points to an earlier node. *)
Theorem dataflow_edges_both_ends (trace : list Instruction) :
  (∀ i j, 1 ≤ i →
     (j ∈ succs (dataflow trace !!! i) ↔ i ∈ preds (dataflow trace !!! j)))
  ∧ (∀ i j, i ∈ preds (dataflow trace !!! j) → 1 ≤ i ≤ j ∧ j ≤ length trace).
Proof.
  pose proof (dataflow_state_ok trace) as Hok.
  pose proof (df_graph _ _ Hok) as Hg.
  pose proof (df_len _ _ Hok) as Hlen.
  unfold dataflow.
  assert (Hp : ∀ i j, i ∈ preds (heap (dataflow_state trace) !!! j) →
            1 ≤ i ≤ j ∧ j ≤ length trace).
  { intros i j Hin.
    destruct (decide (j < length (heap (dataflow_state trace)))) as [Hj | Hj].
    - pose proof (g_preds_le _ Hg i j Hj Hin). lia.
    - rewrite lookup_total_beyond in Hin by lia. by apply not_elem_of_nil in Hin. }
  split; [| done].
  intros i j Hi.
  destruct (decide (i < length (heap (dataflow_state trace)))) as [Hil | Hil].
  - destruct (decide (j < length (heap (dataflow_state trace)))) as [Hj | Hj].
    + apply (g_sym _ Hg); lia.
    + split.
      * intros Hin. apply (g_succs_lt _ Hg i j Hil) in Hin. lia.
      * intros Hin. apply Hp in Hin. lia.
  - split.
    + intros Hin. rewrite lookup_total_beyond in Hin by lia.
      by apply not_elem_of_nil in Hin.
    + intros Hin. apply Hp in Hin. lia.
Qed.

(** X7. The predecessors of the node of an instruction [i] that follows
    [pre] in the trace are exactly: the nodes of the instructions of [pre]
    that list the destination of [i] among their arguments, and for each
    argument [a] of [i] the node registered as writer of [a] at that
    moment -- the last instruction of [pre] that writes [a], or the node
    of [i] itself when [a] is its destination.  Later instructions do not
    change them. *)
Theorem dataflow_predecessors (pre post : list Instruction) (i : Instruction)
    (p : ref) :
  p ∈ preds (dataflow (pre ++ i :: post) !!! S (length pre)) ↔
    (∃ d, instr_dest i = Some d ∧ p ∈ readers d pre)
    ∨ (∃ a, readsB a i = true
          ∧ if writesB a i then p = S (length pre)
            else last (writers a pre) = Some p).
Proof. apply dataflow_preds_spec. Qed.

(** X8. An instruction [B] that lists [X] among its arguments and does
    not write [X] itself has the node of the nearest instruction before
    it that writes [X] as predecessor, and is a successor of that node. *)
Theorem dataflow_read_after_write (pre post : list Instruction)
    (B : Instruction) (X : Ident) (A : ref) :
  readsB X B = true → writesB X B = false →
  last (writers X pre) = Some A →
  A ∈ preds (dataflow (pre ++ B :: post) !!! S (length pre))
  ∧ S (length pre) ∈ succs (dataflow (pre ++ B :: post) !!! A).
Proof.
  intros Hr Hw HA.
  assert (Hp : A ∈ preds (dataflow (pre ++ B :: post) !!! S (length pre)))
    by (by apply (dataflow_true_dependence pre post B X A)).
  split; [done |].
  pose proof (dataflow_state_ok (pre ++ B :: post)) as Hok.
  apply last_Some_elem_of, nodesWhere_bounds in HA.
  apply (g_sym _ (df_graph _ _ Hok)); [| | done];
    rewrite (df_len _ _ Hok), length_app; simpl; lia.
Qed.

Lemma dataflow_read_after_write_witness :
  1 ∈ preds (dataflow scenarioC !!! 2) ∧ 2 ∈ succs (dataflow scenarioC !!! 1).
Proof.
  apply (dataflow_read_after_write
           [IConst (mkConst (VNumber 1) "x" TInt)]
           [IConst (mkConst (VNumber 2) "x" TInt)]
           (IEffect (mkEffect Oprint ["x"])) "x" 1); reflexivity.
Defined.

(** X9. When no instruction of the trace lists its own destination among
    its arguments, every edge of the graph of [dataflow] goes from a node
    to a strictly later one: the graph has no cycle. *)
Theorem dataflow_forward_edges (trace : list Instruction) (p x : ref) :
  (∀ i X, i ∈ trace → instr_dest i = Some X → readsB X i = false) →
  p ∈ preds (dataflow trace !!! x) → 1 ≤ p < x.
Proof.
  intros Hnoself Hp.
  destruct (decide (x < length (dataflow trace))) as [Hx | Hx].
  - by apply (on_dataflow_forward trace (dataflow trace)
                (same_graph_refl (dataflow trace)) p x Hnoself Hx).
  - rewrite lookup_total_beyond in Hp by lia. by apply not_elem_of_nil in Hp.
Qed.

Lemma dataflow_forward_edges_witness : 1 ≤ 2 < 3.
Proof.
  apply (dataflow_forward_edges scenarioC 2 3).
  - intros i X Hi Hd. unfold scenarioC in Hi.
    repeat (apply elem_of_cons in Hi as [-> | Hi];
            [first [discriminate Hd | reflexivity] |]).
    by apply not_elem_of_nil in Hi.
  - vm_compute. by left.
Defined.

(** X10. A read of an identifier that nothing wrote before is no
    dependence, and a write of an identifier that nothing read before is
    none either: an instruction none of whose arguments is written
    earlier in the trace (or by itself) and whose destination is read by
    no earlier instruction gets no predecessor. *)
Theorem dataflow_no_dependency (pre post : list Instruction) (i : Instruction) :
  (∀ d j, instr_dest i = Some d → j ∈ pre → readsB d j = false) →
  (∀ a j, readsB a i = true → j ∈ pre → writesB a j = false) →
  (∀ a, readsB a i = true → writesB a i = false) →
  preds (dataflow (pre ++ i :: post) !!! S (length pre)) = [].
Proof.
  intros Hnoread Hnowrite Hnoself.
  destruct (preds (dataflow (pre ++ i :: post) !!! S (length pre)))
    as [| p ps] eqn:Hpreds; [done |].
  assert (Hp : p ∈ preds (dataflow (pre ++ i :: post) !!! S (length pre)))
    by (rewrite Hpreds; by left).
  apply dataflow_preds_spec in Hp as [(d & Hd & Hin) | (a & Ha & Hw)].
  - apply elem_of_nodesWhere in Hin as (_ & j & Hj & Hr).
    rewrite (Hnoread d j Hd) in Hr; [done |].
    apply list_elem_of_lookup. eauto.
  - rewrite (Hnoself a Ha) in Hw.
    apply last_Some_elem_of, elem_of_nodesWhere in Hw as (_ & j & Hj & Hwj).
    rewrite (Hnowrite a j Ha) in Hwj; [done |].
    apply list_elem_of_lookup. eauto.
Qed.

Lemma dataflow_no_dependency_witness :
  preds (dataflow ([IConst (mkConst (VNumber 1) "x" TInt)]
                   ++ IValue (mkValueOp Oadd ["a"; "b"] "z" TInt)
                   :: [IEffect (mkEffect Oprint ["z"])]) !!! 2) = [].
Proof.
  apply (dataflow_no_dependency
           [IConst (mkConst (VNumber 1) "x" TInt)]
           [IEffect (mkEffect Oprint ["z"])]
           (IValue (mkValueOp Oadd ["a"; "b"] "z" TInt))).
  - intros d j Hd Hj. apply list_elem_of_singleton in Hj as ->. reflexivity.
  - intros a j Ha Hj. apply list_elem_of_singleton in Hj as ->.
    unfold readsB in Ha. simpl in Ha. apply bool_decide_eq_true_1 in Ha.
    apply elem_of_cons in Ha as [-> | Ha]; [reflexivity |].
    apply list_elem_of_singleton in Ha as ->. reflexivity.
  - intros a Ha.
    unfold readsB in Ha. simpl in Ha. apply bool_decide_eq_true_1 in Ha.
    apply elem_of_cons in Ha as [-> | Ha]; [reflexivity |].
    apply list_elem_of_singleton in Ha as ->. reflexivity.
Defined.

(** ** [assignDagPriority] beyond acyclic graphs *)

Lemma same_graph_trans (h1 h2 h3 : list Node) :
  same_graph h1 h2 → same_graph h2 h3 → same_graph h1 h3.
Proof.
  intros [Hl1 Hk1] [Hl2 Hk2]. split; [congruence |]. intros k.
  destruct (Hk1 k) as (<- & <- & <-). apply Hk2.
Qed.

Lemma reachable_same_graph (h h' : list Node) (a b : ref) :
  same_graph h h' → reachable h a b → reachable h' a b.
Proof.
  intros [_ Hk] Hr. unfold reachable in *.
  induction Hr as [| x y z Hxy _ IH]; [apply rtc_refl |].
  eapply rtc_l; [| exact IH]. simpl. destruct (Hk x) as (-> & _). done.
Qed.

Lemma foldl_visitChild_None (recur : list Node → ref → option (list Node * Z))
    (l : list ref) :
  foldl (visitChild recur) None l = None.
Proof. induction l as [| x l IH]; [done | apply IH]. Qed.

Lemma with_priority_same_graph (h : list Node) (n : ref) (p : option Z) :
  same_graph h (alter (with_priority p) n h).
Proof.
  split; [apply length_alter |]. intros k.
  rewrite list_lookup_total_alter.
  case_decide as Hk; [| done]. destruct Hk as [-> _]. done.
Qed.

(** What a run that returns has changed: priorities only, and only of
    nodes that can be reached from the root. *)
Lemma assign_frame (fuel : nat) (h : list Node) (n : ref) (h' : list Node) (d : Z) :
  assignDagPriority fuel h n = Some (h', d) →
  same_graph h h'
  ∧ (∀ k, priority (h' !!! k) = priority (h !!! k) ∨ reachable h n k)
  ∧ (n < length h → priority (h' !!! n) = Some d)
  ∧ (1 ≤ d)%Z.
Proof.
  revert h n h' d. induction fuel as [| fuel IH]; intros h n h' d Hrun; [done |].
  rewrite assignDagPriority_S in Hrun.
  assert (Hfold : ∀ l h0 acc h1 m,
            (0 ≤ acc)%Z →
            foldl (visitChild (assignDagPriority fuel)) (Some (h0, acc)) l
              = Some (h1, m) →
            same_graph h0 h1
            ∧ (∀ k, priority (h1 !!! k) = priority (h0 !!! k)
                    ∨ ∃ x, x ∈ l ∧ reachable h0 x k)
            ∧ (0 ≤ m)%Z).
  { induction l as [| x l IHl]; intros h0 acc h1 m Hacc Hf.
    - injection Hf as <- <-. split_and!; [by split | by left | done].
    - simpl in Hf.
      destruct (assignDagPriority fuel h0 x) as [[h2 dx] |] eqn:Hx;
        [| by rewrite foldl_visitChild_None in Hf].
      destruct (IH _ _ _ _ Hx) as (Hsg2 & Hfr2 & _ & Hdx).
      destruct (IHl h2 (Z.max acc dx) h1 m ltac:(lia) Hf) as (Hsg1 & Hfr1 & Hm).
      split_and!; [by apply (same_graph_trans h0 h2 h1) | | done].
      intros k. destruct (Hfr1 k) as [Heq | (y & Hy & Hr)].
      + rewrite Heq. destruct (Hfr2 k) as [? | Hr]; [by left |].
        right. exists x. split; [by left | done].
      + right. exists y. split; [by right |].
        by apply (reachable_same_graph h2 h0 y k (same_graph_sym _ _ Hsg2)). }
  destruct (foldl (visitChild (assignDagPriority fuel)) (Some (h, 0%Z))
              (succs (h !!! n))) as [[h1 m] |] eqn:Hf; [| done].
  injection Hrun as <- <-.
  destruct (Hfold (succs (h !!! n)) h 0%Z h1 m ltac:(lia) Hf) as (Hsg1 & Hfr1 & Hm).
  split_and!.
  - apply (same_graph_trans h h1); [done | apply with_priority_same_graph].
  - intros k. destruct (decide (k = n)) as [-> | Hne]; [right; apply rtc_refl |].
    rewrite list_lookup_total_alter_ne by done.
    destruct (Hfr1 k) as [? | (x & Hx & Hr)]; [by left | right].
    unfold reachable. eapply rtc_l; [exact Hx | exact Hr].
  - intros Hn. rewrite list_lookup_total_alter_eq; [done |].
    destruct Hsg1 as [-> _]. done.
  - lia.
Qed.

(** X11. Whenever [assignDagPriority] returns, on any graph, it has
    changed nothing but priorities, and only those of nodes that can be
    reached from the node it was called on; that node now has the value
    returned as priority, and this value is at least 1. *)
Theorem assignDagPriority_frame (fuel : nat) (h : list Node) (dag : ref)
    (h' : list Node) (d : Z) :
  assignDagPriority fuel h dag = Some (h', d) →
  same_graph h h'
  ∧ (∀ k, ¬ reachable h dag k → priority (h' !!! k) = priority (h !!! k))
  ∧ (dag < length h → priority (h' !!! dag) = Some d)
  ∧ (1 ≤ d)%Z.
Proof.
  intros Hrun. destruct (assign_frame _ _ _ _ _ Hrun) as (Hsg & Hfr & Hroot & Hd).
  split_and!; try done.
  intros k Hk. by destruct (Hfr k).
Qed.

Lemma assignDagPriority_frame_witness :
  same_graph
    [mkNode [1] [] Start None; mkNode [] [] Start None;
     mkNode [] [] Start (Some 7%Z)]
    [mkNode [1] [] Start (Some 2%Z); mkNode [] [] Start (Some 1%Z);
     mkNode [] [] Start (Some 7%Z)]
  ∧ (∀ k, ¬ reachable [mkNode [1] [] Start None; mkNode [] [] Start None;
                        mkNode [] [] Start (Some 7%Z)] 0 k →
       priority ([mkNode [1] [] Start (Some 2%Z); mkNode [] [] Start (Some 1%Z);
                  mkNode [] [] Start (Some 7%Z)] !!! k)
       = priority ([mkNode [1] [] Start None; mkNode [] [] Start None;
                    mkNode [] [] Start (Some 7%Z)] !!! k))
  ∧ (0 < length [mkNode [1] [] Start None; mkNode [] [] Start None;
                 mkNode [] [] Start (Some 7%Z)] →
     priority ([mkNode [1] [] Start (Some 2%Z); mkNode [] [] Start (Some 1%Z);
                mkNode [] [] Start (Some 7%Z)] !!! 0) = Some 2%Z)
  ∧ (1 ≤ 2)%Z.
Proof.
  apply (assignDagPriority_frame 3
           [mkNode [1] [] Start None; mkNode [] [] Start None;
            mkNode [] [] Start (Some 7%Z)] 0).
  reflexivity.
Defined.

Lemma Node_eq (n1 n2 : Node) :
  succs n1 = succs n2 → preds n1 = preds n2 → instr n1 = instr n2 →
  priority n1 = priority n2 → n1 = n2.
Proof. destruct n1, n2; simpl. by intros -> -> -> ->. Qed.

Lemma heap_eq (h1 h2 : list Node) :
  length h1 = length h2 → (∀ k, k < length h1 → h1 !!! k = h2 !!! k) → h1 = h2.
Proof.
  intros Hlen Hk. apply list_eq. intros k.
  destruct (decide (k < length h1)) as [Hlt | Hge].
  - rewrite (list_lookup_lookup_total_lt h1 k Hlt).
    rewrite (list_lookup_lookup_total_lt h2 k) by lia. by rewrite Hk.
  - rewrite !lookup_ge_None_2 by lia. done.
Qed.

(** X12. Priorities are a function of the graph: on a graph without
    cycle, running [assignDagPriority] again on the heap it returned
    returns the very same heap and the same value. *)
Theorem assignDagPriority_idempotent (h : list Node) (dag : ref)
    (rank : ref → nat) (fuel : nat) :
  (∀ n m, m ∈ succs (h !!! n) → rank m < rank n) →
  (∀ n m, m ∈ succs (h !!! n) → m < length h) →
  dag < length h → rank dag < fuel →
  ∃ h' d, assignDagPriority fuel h dag = Some (h', d)
        ∧ assignDagPriority fuel h' dag = Some (h', d).
Proof.
  intros Hacyclic Hrange Hdag Hfuel.
  destruct (assign_spec h rank Hacyclic Hrange fuel h dag
              (same_graph_refl h) Hfuel Hdag)
    as (h1 & Hrun1 & Hsg1 & _ & Hreach1).
  destruct (assign_spec h rank Hacyclic Hrange fuel h1 dag Hsg1 Hfuel Hdag)
    as (h2 & Hrun2 & Hsg2 & _ & Hreach2).
  exists h1, (heightOf rank h dag). split; [done |].
  rewrite Hrun2. do 2 f_equal.
  destruct (assign_frame _ _ _ _ _ Hrun2) as ((Hlen & Hsame) & Hfr & _).
  apply heap_eq; [done |]. intros k _.
  destruct (Hsame k) as (Hs & Hp & Hi).
  apply Node_eq; try done.
  destruct (Hfr k) as [? | Hr]; [done |].
  apply (reachable_same_graph h1 h dag k (same_graph_sym _ _ Hsg1)) in Hr.
  rewrite (Hreach1 k Hr). apply (Hreach2 k Hr).
Qed.

Lemma assignDagPriority_idempotent_witness :
  ∃ h' d, assignDagPriority 5 (dataflow scenarioA) startRef = Some (h', d)
        ∧ assignDagPriority 5 h' startRef = Some (h', d).
Proof.
  apply (assignDagPriority_idempotent (dataflow scenarioA) startRef
           (λ n, 4 - n) 5).
  - intros n m Hm.
    do 4 (destruct n as [| n];
          [vm_compute in Hm;
           repeat (apply elem_of_cons in Hm as [-> | Hm]; [simpl; lia |]);
           by apply not_elem_of_nil in Hm |]).
    vm_compute in Hm. by apply not_elem_of_nil in Hm.
  - intros n m Hm.
    do 4 (destruct n as [| n];
          [vm_compute in Hm;
           repeat (apply elem_of_cons in Hm as [-> | Hm]; [vm_compute; lia |]);
           by apply not_elem_of_nil in Hm |]).
    vm_compute in Hm. by apply not_elem_of_nil in Hm.
  - vm_compute. lia.
  - simpl. lia.
Defined.

(** On a set of nodes each of which has a successor in the set, the
    recursion never comes back. *)
Lemma assign_trap (h0 : list Node) (C : ref → Prop) :
  (∀ n, C n → ∃ m, m ∈ succs (h0 !!! n) ∧ C m) →
  ∀ fuel h n, same_graph h0 h → C n → assignDagPriority fuel h n = None.
Proof.
  intros Htrap. induction fuel as [| fuel IH]; intros h n Hsg Hn; [done |].
  rewrite assignDagPriority_S.
  destruct (Htrap n Hn) as (m & Hm & HCm).
  assert (Hs : succs (h !!! n) = succs (h0 !!! n)) by apply Hsg.
  rewrite Hs.
  assert (Hfold : ∀ l h1 acc, same_graph h0 h1 → m ∈ l →
            foldl (visitChild (assignDagPriority fuel)) (Some (h1, acc)) l = None).
  { induction l as [| x l IHl]; intros h1 acc Hsg1 Hin.
    - by apply not_elem_of_nil in Hin.
    - simpl. destruct (decide (x = m)) as [-> | Hne].
      + rewrite (IH h1 m Hsg1 HCm). apply foldl_visitChild_None.
      + destruct (assignDagPriority fuel h1 x) as [[h2 dx] |] eqn:Hx;
          [| apply foldl_visitChild_None].
        apply IHl.
        * apply (same_graph_trans h0 h1 h2); [done |].
          by destruct (assign_frame _ _ _ _ _ Hx).
        * apply elem_of_cons in Hin as [-> | Hin]; done. }
  by rewrite (Hfold _ h 0%Z Hsg Hm).
Qed.

(** X13. [assignDagPriority] does not return on a graph with a cycle:
    when the node it is called on belongs to a set of nodes each of which
    has a successor in the set (a cycle, or a path into one), no depth of
    recursion suffices. *)
Theorem assignDagPriority_needs_acyclic (h : list Node) (C : ref → Prop)
    (dag : ref) (fuel : nat) :
  (∀ n, C n → ∃ m, m ∈ succs (h !!! n) ∧ C m) →
  C dag →
  assignDagPriority fuel h dag = None.
Proof.
  intros Htrap Hdag.
  by apply (assign_trap h C Htrap fuel h dag (same_graph_refl h)).
Qed.

Lemma assignDagPriority_needs_acyclic_witness :
  assignDagPriority 50
    [mkNode [1] [] Start None; mkNode [2] [] Start None;
     mkNode [1] [] Start None] 0 = None.
Proof.
  apply (assignDagPriority_needs_acyclic
           [mkNode [1] [] Start None; mkNode [2] [] Start None;
            mkNode [1] [] Start None] (λ k, k ≤ 2) 0 50).
  - intros n Hn.
    destruct n as [| [| [| n]]]; [exists 1 | exists 2 | exists 1 | lia];
      (split; [simpl; by left | lia]).
  - lia.
Defined.

Lemma dataflow_self_loop (pre post : list Instruction) (i : Instruction)
    (X : Ident) :
  instr_dest i = Some X → readsB X i = true →
  S (length pre) ∈ succs (dataflow (pre ++ i :: post) !!! S (length pre)).
Proof.
  intros Hd Hr.
  pose proof (dataflow_state_ok (pre ++ i :: post)) as Hok.
  apply (g_sym _ (df_graph _ _ Hok));
    [rewrite (df_len _ _ Hok), length_app; simpl; lia
    |rewrite (df_len _ _ Hok), length_app; simpl; lia |].
  apply dataflow_preds_spec. right. exists X. split; [done |].
  unfold writesB. rewrite Hd. by rewrite bool_decide_eq_true_2.
Qed.

(** X14. On the graph [dataflow] builds for a trace in which some
    instruction lists its own destination among its arguments (such as
    [i = add i one]), [assignDagPriority] called on the start node never
    returns. *)
Theorem assignDagPriority_dataflow_self_read (pre post : list Instruction)
    (i : Instruction) (X : Ident) (fuel : nat) :
  instr_dest i = Some X → readsB X i = true →
  assignDagPriority fuel (dataflow (pre ++ i :: post)) startRef = None.
Proof.
  intros Hd Hr.
  apply (assign_trap (dataflow (pre ++ i :: post))
           (λ k, k = startRef ∨ k = S (length pre)));
    [| apply same_graph_refl | by left].
  intros n Hn. exists (S (length pre)). split; [| by right].
  destruct Hn as [-> | ->].
  - pose proof (dataflow_state_ok (pre ++ i :: post)) as Hok.
    unfold dataflow, startRef.
    rewrite (g_start_succs _ (df_graph _ _ Hok)), (df_len _ _ Hok).
    apply elem_of_seq. rewrite length_app. simpl. lia.
  - by apply (dataflow_self_loop pre post i X).
Qed.

Lemma assignDagPriority_dataflow_self_read_witness :
  assignDagPriority 1000
    (dataflow ([IConst (mkConst (VNumber 0) "i" TInt)]
               ++ IValue (mkValueOp Oadd ["i"; "one"] "i" TInt) :: []))
    startRef = None.
Proof.
  apply (assignDagPriority_dataflow_self_read
           [IConst (mkConst (VNumber 0) "i" TInt)] []
           (IValue (mkValueOp Oadd ["i"; "one"] "i" TInt)) "i" 1000);
    reflexivity.
Defined.

(** ** More on [listSchedule] *)

Lemma validated_nil (valid : list Instruction → Instruction → bool) :
  validated valid [].
Proof. intros pre i post Heq. by destruct pre. Qed.

Lemma validated_snoc (valid : list Instruction → Instruction → bool)
    (g : list Instruction) (i : Instruction) :
  validated valid g → valid g i = true → validated valid (g ++ [i]).
Proof.
  intros Hg Hv pre i' post Heq.
  destruct post as [| z post _] using rev_ind.
  - apply app_inj_tail in Heq as [-> ->]. done.
  - rewrite app_comm_cons, app_assoc in Heq.
    apply app_inj_tail in Heq as [Heq _]. by apply (Hg pre i' post).
Qed.

Lemma validated_length (valid : list Instruction → Instruction → bool)
    (cap : nat) (g : list Instruction) :
  (∀ g i, valid g i = true → length g < cap) →
  validated valid g → length g ≤ cap.
Proof.
  intros Hcap Hg. destruct g as [| z g _] using rev_ind; [simpl; lia |].
  specialize (Hg g z [] eq_refl). apply Hcap in Hg.
  rewrite length_app. simpl. lia.
Qed.

Lemma concat_nonempty_length (bs : list (list ref)) :
  Forall (λ b, b ≠ []) bs → length bs ≤ length (concat bs).
Proof.
  induction 1 as [| b bs Hb _ IH]; simpl; [done |].
  rewrite length_app. destruct b; [done |]. simpl. lia.
Qed.

Section scheduler_more.
Variables (h : list Node) (valid : list Instruction → Instruction → bool).
Hypothesis Hg : graph_ok h.
Hypothesis Hinstr : ∀ j, 1 ≤ j < length h → ∃ i, instr (h !!! j) = Instr i.

(** A property kept by every turn of the loop holds of what it returns. *)
Lemma sched_loop_invariant (I : Sched → Prop)
    (F : outcome (list Group * list (list ref)) → Prop) :
  (∀ st st', sched_inv h st → I st → sched_step h valid st = inl st' → I st') →
  (∀ st r, sched_inv h st → I st → sched_step h valid st = inr r → F r) →
  ∀ fuel st r, sched_inv h st → I st →
    sched_loop fuel h valid st = Some r → F r.
Proof.
  intros Hstep Hend. induction fuel as [| fuel IH]; intros st r Hinv HI Hrun; [done |].
  simpl in Hrun. destruct (sched_step h valid st) as [st' | res] eqn:Hs.
  - apply (IH st'); [by apply (sched_step_inv h valid Hg Hinstr st) | | done].
    by apply (Hstep st).
  - injection Hrun as ->. by apply (Hend st).
Qed.

Lemma omap_instrOf_length (b : list ref) :
  (∀ x, x ∈ b → 1 ≤ x < length h) → length (omap (instrOf h) b) = length b.
Proof.
  induction b as [| x b IH]; intros Hb; [done |].
  simpl. destruct (Hinstr x (Hb x ltac:(by left))) as [i Hi].
  unfold instrOf at 1. rewrite Hi. simpl. f_equal. apply IH.
  intros y Hy. apply Hb. by right.
Qed.

Lemma run_validated (fuel : nat) (sched : list Group) (bs : list (list ref)) :
  listSchedule_run fuel h startRef valid = Some (Ok (sched, bs)) →
  Forall (λ b, validated valid (omap (instrOf h) b)) bs.
Proof.
  intros Hrun.
  refine (sched_loop_invariant
           (λ st, validated valid (currentGroup st)
                  ∧ Forall (λ b, validated valid (omap (instrOf h) b)) (bundles st))
           (λ r, match r with
                 | Ok (_, bs) => Forall (λ b, validated valid (omap (instrOf h) b)) bs
                 | Throw _ => True
                 end)
           _ _ fuel (sched_init h startRef) (Ok (sched, bs)) _ _ Hrun);
    [| | by apply sched_init_inv |].
  - intros st st' Hinv [Hcur Hbs] Hstep.
    destruct (sched_step_cases h valid Hinstr st Hinv)
      as [(n & i & Hn & Hi & Hv & Heq) | [(n & i & Hn & Hi & Hv & Heq)
          | [(_ & msg & _ & Heq) | [(_ & _ & g & _ & Heq) | (Hq & _ & g & Hgrp & Heq)]]]];
      rewrite Heq in Hstep; try done; injection Hstep as <-; simpl.
    + split; [by apply validated_snoc | done].
    + done.
    + split; [apply validated_nil |]. apply Forall_app. split; [done |].
      constructor; [| constructor]. by rewrite <- (si_group _ _ Hinv).
  - intros st r Hinv [Hcur Hbs] Hstep.
    destruct (sched_step_cases h valid Hinstr st Hinv)
      as [(n & i & Hn & Hi & Hv & Heq) | [(n & i & Hn & Hi & Hv & Heq)
          | [(_ & msg & _ & Heq) | [(_ & _ & g & _ & Heq) | (Hq & _ & g & Hgrp & Heq)]]]];
      rewrite Heq in Hstep; try done; injection Hstep as <-; [done |].
    apply Forall_app. split; [done |].
    constructor; [| constructor]. by rewrite <- (si_group _ _ Hinv).
  - split; [apply validated_nil | constructor].
Qed.

Lemma run_never_throws (fuel : nat) (msg : string) :
  (∀ j i, instr (h !!! j) = Instr i → isGroup i = false) →
  listSchedule_run fuel h startRef valid ≠ Some (Throw msg).
Proof.
  intros Hnogroup Hrun.
  refine (sched_loop_invariant (λ _, True)
           (λ r, match r with Ok _ => True | Throw _ => False end)
           _ _ fuel (sched_init h startRef) (Throw msg) _ _ Hrun);
    [done | | by apply sched_init_inv | done].
  intros st r Hinv _ Hstep.
  destruct (sched_step_cases h valid Hinstr st Hinv)
    as [(n & i & Hn & Hi & Hv & Heq) | [(n & i & Hn & Hi & Hv & Heq)
        | [(_ & m & Hthrow & Heq) | [(_ & _ & g & _ & Heq) | (Hq & _ & g & Hgrp & Heq)]]]];
    rewrite Heq in Hstep; try done; injection Hstep as <-; [| done].
  rewrite (si_group _ _ Hinv) in Hthrow.
  destruct (toGroup_bundle_ok h Hnogroup (currentNodes st)) as [g Hg']. congruence.
Qed.

Lemma run_throw_message (fuel : nat) (msg : string) :
  listSchedule_run fuel h startRef valid = Some (Throw msg) →
  msg = "Cannot nest groups".
Proof.
  intros Hrun.
  refine (sched_loop_invariant (λ _, True)
           (λ r, match r with Ok _ => True | Throw m => m = "Cannot nest groups" end)
           _ _ fuel (sched_init h startRef) (Throw msg) _ _ Hrun);
    [done | | by apply sched_init_inv | done].
  intros st r Hinv _ Hstep.
  destruct (sched_step_cases h valid Hinstr st Hinv)
    as [(n & i & Hn & Hi & Hv & Heq) | [(n & i & Hn & Hi & Hv & Heq)
        | [(_ & m & Hthrow & Heq) | [(_ & _ & g & _ & Heq) | (Hq & _ & g & Hgrp & Heq)]]]];
    rewrite Heq in Hstep; try done; injection Hstep as <-; [| done].
  unfold toGroup in Hthrow. rewrite toGroup_loop_spec in Hthrow.
  destruct (existsb isGroup (currentGroup st)); congruence.
Qed.

Hypothesis Hvalid : ∀ i, valid [] i = true.

Lemma sched_step_progress_any st :
  sched_inv h st → (currentGroup st = [] → toUpdate st = []) →
  (∃ r, sched_step h valid st = inr r)
  ∨ (∃ st', sched_step h valid st = inl st'
          ∧ (currentGroup st' = [] → toUpdate st' = [])
          ∧ sched_measure h st' < sched_measure h st).
Proof.
  intros Hinv Hempty.
  pose proof (g_len _ Hg) as Hlen.
  pose proof (range_length h _ (si_s_nodup _ _ Hinv) (si_s_range _ _ Hinv)) as Hs.
  destruct (sched_step_cases h valid Hinstr st Hinv)
    as [(n & i & Hn & Hi & Hv & Heq) | [(n & i & Hn & Hi & Hv & Heq)
        | [(_ & msg & Hthrow & Heq) | [(Hq & Hu & g & Hgrp & Heq) | (Hq & Hu & g & Hgrp & Heq)]]]].
  - right. eexists. split; [exact Heq |].
    pose proof (accept_inv h Hg st n i Hinv Hn Hi) as Hinv'.
    pose proof (range_length h _ (si_s_nodup _ _ Hinv') (si_s_range _ _ Hinv')) as Hs'.
    pose proof (length_set_delete n (queue st) Hn) as Hq'.
    split; [simpl; intros Hnil; by destruct (currentGroup st) |].
    unfold sched_measure. simpl in *.
    rewrite set_add_fresh in * by (by apply (si_q_s _ _ Hinv)).
    rewrite length_app in *. simpl in *.
    destruct (currentGroup st ++ [i]) eqn:Hcg; [by destruct (currentGroup st) |].
    destruct (currentGroup st); nia.
  - right. eexists. split; [exact Heq |].
    pose proof (length_set_delete n (queue st) Hn) as Hq'.
    assert (Hne : currentGroup st ≠ []).
    { intros Hnil. rewrite Hnil, Hvalid in Hv. done. }
    split; [done |].
    unfold sched_measure. simpl. lia.
  - left. eauto.
  - left. eauto.
  - right. eexists. split; [exact Heq |]. split; [done |].
    pose proof (range_length h _ (si_u_nodup _ _ Hinv) (si_u_range _ _ Hinv)) as Hul.
    unfold sched_measure. simpl. rewrite Hq. simpl.
    destruct (currentGroup st); [by specialize (Hempty eq_refl) | lia].
Qed.

Lemma run_ends (fuel : nat) :
  length h * (length h + 1) ≤ fuel →
  ∃ r, listSchedule_run fuel h startRef valid = Some r.
Proof.
  intros Hfuel.
  assert (Hloop : ∀ fuel st, sched_inv h st →
            (currentGroup st = [] → toUpdate st = []) →
            sched_measure h st < fuel →
            ∃ r, sched_loop fuel h valid st = Some r).
  { clear fuel Hfuel. induction fuel as [| fuel IH]; intros st Hinv Hempty Hm; [lia |].
    simpl. destruct (sched_step_progress_any st Hinv Hempty)
      as [[r Hr] | (st' & Hst' & Hempty' & Hlt)].
    - rewrite Hr. eauto.
    - rewrite Hst'. apply IH; [| done | lia].
      by apply (sched_step_inv h valid Hg Hinstr st). }
  apply Hloop; [by apply sched_init_inv | done |].
  pose proof (sched_measure_init h Hg). lia.
Qed.

Lemma run_bundles_nonempty (fuel : nat) (sched : list Group) (bs : list (list ref)) :
  listSchedule_run fuel h startRef valid = Some (Ok (sched, bs)) →
  bs = [[]] ∨ Forall (λ b, b ≠ []) bs.
Proof.
  intros Hrun.
  refine (sched_loop_invariant
           (λ st, Forall (λ b, b ≠ []) (bundles st)
                  ∧ (currentNodes st = [] → toUpdate st = [])
                  ∧ (currentNodes st = [] → queue st = [] → bundles st = []))
           (λ r, match r with
                 | Ok (_, bs) => bs = [[]] ∨ Forall (λ b, b ≠ []) bs
                 | Throw _ => True
                 end)
           _ _ fuel (sched_init h startRef) (Ok (sched, bs)) _ _ Hrun);
    [| | by apply sched_init_inv |].
  - intros st st' Hinv (Hbs & Hu & Hb) Hstep.
    destruct (sched_step_cases h valid Hinstr st Hinv)
      as [(n & i & Hn & Hi & Hv & Heq) | [(n & i & Hn & Hi & Hv & Heq)
          | [(_ & msg & _ & Heq) | [(_ & _ & g & _ & Heq) | (Hq & Hune & g & Hgrp & Heq)]]]];
      rewrite Heq in Hstep; try done; injection Hstep as <-; simpl.
    + split_and!; [done | |]; intros Hnil; by destruct (currentNodes st).
    + assert (Hne : currentNodes st ≠ []).
      { intros Hnil. rewrite (si_group _ _ Hinv), Hnil in Hv. simpl in Hv.
        rewrite Hvalid in Hv. done. }
      split_and!; done.
    + split_and!; [| done | intros _ Hnil; done].
      apply Forall_app. split; [done |]. constructor; [| constructor].
      intros Hnil. by apply Hune, Hu.
  - intros st r Hinv (Hbs & Hu & Hb) Hstep.
    destruct (sched_step_cases h valid Hinstr st Hinv)
      as [(n & i & Hn & Hi & Hv & Heq) | [(n & i & Hn & Hi & Hv & Heq)
          | [(_ & msg & _ & Heq) | [(Hq & _ & g & _ & Heq) | (Hq & _ & g & Hgrp & Heq)]]]];
      rewrite Heq in Hstep; try done; injection Hstep as <-; [done |].
    destruct (currentNodes st) as [| x cur] eqn:Hcur.
    + left. by rewrite (Hb eq_refl Hq).
    + right. apply Forall_app. split; [done |]. constructor; [done | constructor].
  - simpl. split_and!; [constructor | done | done].
Qed.
End scheduler_more.

Lemma omap_submseteq {A B} (f : A → option B) (l1 l2 : list A) :
  l1 ⊆+ l2 → omap f l1 ⊆+ omap f l2.
Proof.
  induction 1 as [| x l1 l2 _ IH | x y l | x l1 l2 _ IH | l1 l2 l3 _ IH1 _ IH2];
    simpl.
  - done.
  - destruct (f x); [by constructor | done].
  - destruct (f x), (f y); try done. apply submseteq_swap.
  - destruct (f x); [by constructor | done].
  - by etrans.
Qed.

Lemma filter_submseteq {A} (P : A → Prop) `{∀ x, Decision (P x)} (l1 l2 : list A) :
  l1 ⊆+ l2 → filter P l1 ⊆+ filter P l2.
Proof.
  induction 1 as [| x l1 l2 _ IH | x y l | x l1 l2 _ IH | l1 l2 l3 _ IH1 _ IH2].
  - done.
  - rewrite !filter_cons. case_decide; [by constructor | done].
  - rewrite !filter_cons. repeat case_decide; try done. apply submseteq_swap.
  - rewrite filter_cons. case_decide; [by constructor | done].
  - by etrans.
Qed.

Lemma dataflow_group_no_preds (trace : list Instruction) (j : nat) (g : Group) :
  trace !! j = Some (IGroup g) → preds (dataflow trace !!! S j) = [].
Proof.
  intros Hj.
  assert (Hlt : j < length trace) by (by apply lookup_lt_Some in Hj).
  pose proof (dataflow_preds_spec (take j trace) (drop (S j) trace) (IGroup g))
    as Hspec.
  rewrite (take_drop_middle trace j (IGroup g) Hj) in Hspec.
  rewrite length_take_le in Hspec by lia.
  destruct (preds (dataflow trace !!! S j)) as [| p ps]; [done |].
  by destruct (proj1 (Hspec p) ltac:(by left)) as [(d & Hd & _) | (a & Ha & _)].
Qed.

Section schedule_of_dataflow.
Variables (trace : list Instruction) (h : list Node)
  (valid : list Instruction → Instruction → bool).
Hypothesis Hsame : same_graph (dataflow trace) h.

(** X15. For every trace without Group -- instructions that read their
    own destination included -- and every [valid] that accepts any
    candidate when the bundle is empty, [listSchedule] returns within
    [(n + 1) * (n + 2)] turns.  No node is scheduled twice; a node is
    scheduled exactly when all its predecessors are; and the
    micro-instructions of the Groups are instructions of the trace that
    have a destination, none more often than it occurs in the trace. *)
Theorem listSchedule_returns (fuel : nat) :
  (∀ i, i ∈ trace → isGroup i = false) →
  (∀ i, valid [] i = true) →
  (length trace + 1) * (length trace + 2) ≤ fuel →
  ∃ sched bs,
    listSchedule_run fuel h startRef valid = Some (Ok (sched, bs))
    ∧ listSchedule fuel h startRef valid = Some (Ok sched)
    ∧ Forall2 (groupOf h) bs sched
    ∧ NoDup (concat bs)
    ∧ (∀ x, x ∈ concat bs ↔
            (1 ≤ x ≤ length trace)
            ∧ ∀ p, p ∈ preds (h !!! x) → p ∈ concat bs)
    ∧ vi_instr <$> concat (instrs <$> sched) ⊆+ filter (λ i, hasDest i) trace.
Proof.
  intros Hnogrp Hvalid Hfuel.
  pose proof (on_dataflow_graph_ok trace h Hsame) as Hg.
  pose proof (on_dataflow_length trace h Hsame) as Hlen.
  pose proof (on_dataflow_instr_some trace h Hsame) as Hinstr.
  assert (Hnogroup : ∀ j i, instr (h !!! j) = Instr i → isGroup i = false).
  { intros j i Hi. apply Hnogrp. by apply (on_dataflow_instr_inv trace h Hsame j). }
  destruct (listSchedule_run_terminates h valid Hg Hinstr Hvalid Hnogroup fuel)
    as [[sched bs] Hrun].
  { rewrite Hlen. lia. }
  pose proof (listSchedule_run_final h valid Hg Hinstr fuel _ Hrun) as Hfin.
  exists sched, bs. split_and!.
  - done.
  - unfold listSchedule. by rewrite Hrun.
  - apply (sf_groups _ _ Hfin).
  - apply (sf_nodup _ _ Hfin).
  - intros x. split.
    + intros Hx. split.
      * pose proof (sf_range _ _ Hfin x Hx). lia.
      * intros p Hp. apply elem_of_concat_lookup in Hx as (k & b & Hk & Hxb).
        destruct (sf_earlier _ _ Hfin k b x p Hk Hxb Hp) as (k' & b' & _ & Hk' & Hpb).
        apply elem_of_concat_lookup. eauto.
    + intros [Hx Hp]. apply (sf_complete _ _ Hfin x); [lia | done].
  - rewrite (groups_instrs h bs sched (sf_groups _ _ Hfin)).
    assert (Hsub : filter (λ i, hasDest i) (omap (instrOf h) (concat bs))
                   ⊆+ filter (λ i, hasDest i)
                        (omap (instrOf h) (seq 1 (length trace)))).
    { apply filter_submseteq, omap_submseteq.
      apply NoDup_submseteq; [apply (sf_nodup _ _ Hfin) |].
      intros x Hx. apply elem_of_seq. pose proof (sf_range _ _ Hfin x Hx). lia. }
    by rewrite (on_dataflow_instrs trace h Hsame) in Hsub.
Qed.

(** X16. An instruction that lists its own destination among its
    arguments is never scheduled, nor is any instruction that has it as
    predecessor: whenever [listSchedule] returns, their nodes are in no
    bundle, so they are in no Group. *)
Theorem listSchedule_skips_self_dependent (fuel : nat) (sched : list Group)
    (bs : list (list ref)) (x : ref) :
  listSchedule_run fuel h startRef valid = Some (Ok (sched, bs)) →
  x ∈ preds (h !!! x) →
  (x ∉ concat bs) ∧ ∀ y, x ∈ preds (h !!! y) → y ∉ concat bs.
Proof.
  intros Hrun Hself.
  pose proof (on_dataflow_graph_ok trace h Hsame) as Hg.
  pose proof (on_dataflow_instr_some trace h Hsame) as Hinstr.
  pose proof (listSchedule_run_final h valid Hg Hinstr fuel _ Hrun) as Hfin.
  assert (Hx : x ∉ concat bs).
  { intros Hx. apply elem_of_concat_lookup in Hx as (k & b & Hk & Hxb).
    destruct (sf_earlier _ _ Hfin k b x x Hk Hxb Hself) as (k' & b' & Hlt & Hk' & Hxb').
    simpl in *.
    pose proof (NoDup_concat_unique bs k k' b b' x (sf_nodup _ _ Hfin) Hk Hk' Hxb Hxb').
    lia. }
  split; [done |]. intros y Hy Hin. apply Hx.
  apply elem_of_concat_lookup in Hin as (k & b & Hk & Hyb).
  destruct (sf_earlier _ _ Hfin k b y x Hk Hyb Hy) as (k' & b' & _ & Hk' & Hxb').
  apply elem_of_concat_lookup. eauto.
Qed.

(** X17. Every instruction of a bundle was accepted by [valid] against
    the instructions put in that bundle before it, in that order. *)
Theorem listSchedule_valid_respected (fuel : nat) (sched : list Group)
    (bs : list (list ref)) (b pre post : list ref) (n : ref) (i : Instruction) :
  listSchedule_run fuel h startRef valid = Some (Ok (sched, bs)) →
  b ∈ bs → b = pre ++ n :: post → instrOf h n = Some i →
  valid (omap (instrOf h) pre) i = true.
Proof.
  intros Hrun Hb -> Hi.
  pose proof (on_dataflow_graph_ok trace h Hsame) as Hg.
  pose proof (on_dataflow_instr_some trace h Hsame) as Hinstr.
  pose proof (run_validated h valid Hg Hinstr fuel sched bs Hrun) as Hval.
  rewrite Forall_forall in Hval. specialize (Hval _ Hb).
  apply (Hval (omap (instrOf h) pre) i (omap (instrOf h) post)).
  rewrite omap_app. simpl. by rewrite Hi.
Qed.

(** X18. A limit on the size of a bundle that [valid] enforces is kept:
    if [valid] refuses every candidate once the bundle holds [cap]
    instructions, no bundle and no Group has more than [cap]
    instructions. *)
Theorem listSchedule_bundle_size (fuel cap : nat) (sched : list Group)
    (bs : list (list ref)) :
  (∀ g i, valid g i = true → length g < cap) →
  listSchedule_run fuel h startRef valid = Some (Ok (sched, bs)) →
  Forall (λ b, length b ≤ cap) bs
  ∧ Forall (λ g, length (instrs g) ≤ cap) sched.
Proof.
  intros Hcap Hrun.
  pose proof (on_dataflow_graph_ok trace h Hsame) as Hg.
  pose proof (on_dataflow_instr_some trace h Hsame) as Hinstr.
  pose proof (run_validated h valid Hg Hinstr fuel sched bs Hrun) as Hval.
  pose proof (listSchedule_run_final h valid Hg Hinstr fuel _ Hrun) as Hfin.
  assert (Hbs : Forall (λ b, length (omap (instrOf h) b) ≤ cap) bs).
  { eapply Forall_impl; [exact Hval |]. intros b Hb. simpl in Hb.
    by apply (validated_length valid cap). }
  split.
  - rewrite Forall_forall in *. intros b Hb.
    rewrite <- (omap_instrOf_length h Hinstr b); [by apply Hbs |].
    intros x Hx. apply (sf_range _ _ Hfin). apply elem_of_concat. eauto.
  - pose proof (sf_groups _ _ Hfin) as HF. simpl in HF.
    rewrite Forall_lookup. intros k g Hk.
    destruct (Forall2_lookup_r _ _ _ _ _ HF Hk) as (b & Hb & Hbg).
    rewrite Forall_lookup in Hbs. specialize (Hbs k b Hb). simpl in Hbs.
    apply toGroup_instrs in Hbg.
    rewrite <- (length_fmap vi_instr), Hbg.
    pose proof (length_filter (λ i, hasDest i) (omap (instrOf h) b)). lia.
Qed.

(** X19. When no instruction reads its own destination, [valid] accepts
    any candidate on an empty bundle and the trace is not empty, a
    schedule returned has no empty bundle: it has at least one Group and
    at most as many Groups as the trace has instructions. *)
Theorem listSchedule_group_count (fuel : nat) (sched : list Group)
    (bs : list (list ref)) :
  (∀ i X, i ∈ trace → instr_dest i = Some X → readsB X i = false) →
  (∀ i, valid [] i = true) →
  trace ≠ [] →
  listSchedule_run fuel h startRef valid = Some (Ok (sched, bs)) →
  Forall (λ b, b ≠ []) bs
  ∧ length sched = length bs
  ∧ 1 ≤ length sched ≤ length trace.
Proof.
  intros Hnoself Hvalid Hne Hrun.
  pose proof (on_dataflow_graph_ok trace h Hsame) as Hg.
  pose proof (on_dataflow_length trace h Hsame) as Hlen.
  pose proof (on_dataflow_instr_some trace h Hsame) as Hinstr.
  pose proof (listSchedule_run_final h valid Hg Hinstr fuel _ Hrun) as Hfin.
  assert (Hperm : concat bs ≡ₚ seq 1 (length trace)).
  { replace (length trace) with (length h - 1) by lia.
    apply (everything_scheduled h (sched, bs) Hfin).
    intros p x. by apply (on_dataflow_forward trace h Hsame). }
  assert (Hcat : length (concat bs) = length trace).
  { by rewrite Hperm, length_seq. }
  assert (Hn : 1 ≤ length trace) by (destruct trace; [done | simpl; lia]).
  pose proof (Forall2_length _ _ _ (sf_groups _ _ Hfin)) as Hl. simpl in Hl.
  destruct (run_bundles_nonempty h valid Hg Hinstr Hvalid fuel sched bs Hrun)
    as [-> | Hall].
  - simpl in Hcat. lia.
  - pose proof (concat_nonempty_length bs Hall).
    split_and!; [done | done | | lia].
    destruct bs; [simpl in Hcat; lia | simpl in Hl; lia].
Qed.

(** X20. [listSchedule] never throws on the graph of a trace without
    Group, whatever [valid] is and however long it runs. *)
Theorem listSchedule_no_throw (fuel : nat) (msg : string) :
  (∀ i, i ∈ trace → isGroup i = false) →
  listSchedule fuel h startRef valid ≠ Some (Throw msg).
Proof.
  intros Hnogrp Hres.
  pose proof (on_dataflow_graph_ok trace h Hsame) as Hg.
  pose proof (on_dataflow_instr_some trace h Hsame) as Hinstr.
  apply (run_never_throws h valid Hg Hinstr fuel msg).
  - intros j i Hi. apply Hnogrp. by apply (on_dataflow_instr_inv trace h Hsame j).
  - unfold listSchedule in Hres.
    destruct (listSchedule_run fuel h startRef valid) as [[r | m] |]; try done.
    simpl in Hres. congruence.
Qed.

(** X21. When the trace holds a Group anywhere and [valid] accepts any
    candidate on an empty bundle, [listSchedule] throws "Cannot nest
    groups" within [(n + 1) * (n + 2)] turns: it does not return a
    schedule and it does not loop. *)
Theorem listSchedule_throws_on_nested (fuel : nat) (g : Group) :
  IGroup g ∈ trace →
  (∀ i, valid [] i = true) →
  (length trace + 1) * (length trace + 2) ≤ fuel →
  listSchedule fuel h startRef valid = Some (Throw "Cannot nest groups").
Proof.
  intros Hin Hvalid Hfuel.
  pose proof (on_dataflow_graph_ok trace h Hsame) as Hg.
  pose proof (on_dataflow_length trace h Hsame) as Hlen.
  pose proof (on_dataflow_instr_some trace h Hsame) as Hinstr.
  destruct (run_ends h valid Hg Hinstr Hvalid fuel) as [r Hrun].
  { rewrite Hlen. lia. }
  unfold listSchedule. rewrite Hrun. simpl.
  destruct r as [[sched bs] | msg]; simpl.
  - exfalso.
    pose proof (listSchedule_run_final h valid Hg Hinstr fuel _ Hrun) as Hfin.
    apply list_elem_of_lookup in Hin as [j Hj].
    assert (Hjl : j < length trace) by (by apply lookup_lt_Some in Hj).
    assert (Hx : S j ∈ concat bs).
    { apply (sf_complete _ _ Hfin (S j)); [lia |].
      destruct Hsame as [_ Hk]. destruct (Hk (S j)) as (_ & -> & _).
      rewrite (dataflow_group_no_preds trace j g Hj).
      intros p Hp. by apply not_elem_of_nil in Hp. }
    apply elem_of_concat_lookup in Hx as (k & b & Hk & Hxb).
    pose proof (sf_groups _ _ Hfin) as HF. simpl in HF.
    destruct (Forall2_lookup_l _ _ _ _ _ HF Hk) as (grp & _ & Hgrp).
    unfold groupOf, toGroup in Hgrp. rewrite toGroup_loop_spec in Hgrp.
    rewrite (proj2 (existsb_isGroup_true _)) in Hgrp; [done |].
    exists g. apply list_elem_of_omap. exists (S j). split; [done |].
    unfold instrOf. by rewrite (on_dataflow_instr trace h Hsame j _ Hj).
  - f_equal. f_equal.
    by apply (run_throw_message h valid Hg Hinstr fuel msg).
Qed.
End schedule_of_dataflow.

Lemma listSchedule_returns_witness :
  ∃ sched bs,
    listSchedule_run 20 (dataflow scenarioLoop) startRef (λ _ _, true)
      = Some (Ok (sched, bs))
    ∧ listSchedule 20 (dataflow scenarioLoop) startRef (λ _ _, true)
      = Some (Ok sched)
    ∧ Forall2 (groupOf (dataflow scenarioLoop)) bs sched
    ∧ NoDup (concat bs)
    ∧ (∀ x, x ∈ concat bs ↔
            (1 ≤ x ≤ length scenarioLoop)
            ∧ ∀ p, p ∈ preds (dataflow scenarioLoop !!! x) → p ∈ concat bs)
    ∧ vi_instr <$> concat (instrs <$> sched)
      ⊆+ filter (λ i, hasDest i) scenarioLoop.
Proof.
  apply (listSchedule_returns scenarioLoop (dataflow scenarioLoop) (λ _ _, true)
           (same_graph_refl _) 20).
  - intros i Hi. unfold scenarioLoop in Hi.
    repeat (apply elem_of_cons in Hi as [-> | Hi]; [reflexivity |]).
    by apply not_elem_of_nil in Hi.
  - reflexivity.
  - simpl. lia.
Defined.

Lemma listSchedule_skips_self_dependent_witness :
  (2 ∉ concat [[1]])
  ∧ ∀ y, 2 ∈ preds (dataflow scenarioLoop !!! y) → y ∉ concat [[1]].
Proof.
  apply (listSchedule_skips_self_dependent scenarioLoop (dataflow scenarioLoop)
           (λ _ _, true) (same_graph_refl _) 20
           [mkGroup [] [VConst (mkConst (VNumber 0) "i" TInt)] ""] [[1]] 2).
  - reflexivity.
  - vm_compute. by left.
Defined.

Lemma listSchedule_valid_respected_witness :
  (λ _ _, true) (omap (instrOf (dataflow scenarioA)) [1])
    (IConst (mkConst (VNumber 2) "y" TInt)) = true.
Proof.
  apply (listSchedule_valid_respected scenarioA (dataflow scenarioA)
           (λ _ _, true) (same_graph_refl _) 20
           [mkGroup [] [VConst (mkConst (VNumber 1) "x" TInt);
                        VConst (mkConst (VNumber 2) "y" TInt)] "";
            mkGroup [] [VOp (mkValueOp Oadd ["x"; "y"] "z" TInt)] ""]
           [[1; 2]; [3]] [1; 2] [1] [] 2
           (IConst (mkConst (VNumber 2) "y" TInt))).
  - reflexivity.
  - by left.
  - reflexivity.
  - reflexivity.
Defined.

Lemma listSchedule_bundle_size_witness :
  Forall (λ b, length b ≤ 1) [[1]; [2]; [3]]
  ∧ Forall (λ g, length (instrs g) ≤ 1)
      [mkGroup [] [VConst (mkConst (VNumber 1) "x" TInt)] "";
       mkGroup [] [] "";
       mkGroup [] [VConst (mkConst (VNumber 2) "x" TInt)] ""].
Proof.
  apply (listSchedule_bundle_size scenarioC (dataflow scenarioC) oneAtATime
           (same_graph_refl _) 20 1).
  - intros g i Hv. destruct g; [simpl; lia | discriminate Hv].
  - reflexivity.
Defined.

Lemma listSchedule_group_count_witness :
  Forall (λ b, b ≠ []) [[1]; [2]; [3]]
  ∧ length [mkGroup [] [VConst (mkConst (VNumber 1) "x" TInt)] "";
            mkGroup [] [] "";
            mkGroup [] [VConst (mkConst (VNumber 2) "x" TInt)] ""]
    = length [[1]; [2]; [3]]
  ∧ 1 ≤ length [mkGroup [] [VConst (mkConst (VNumber 1) "x" TInt)] "";
                mkGroup [] [] "";
                mkGroup [] [VConst (mkConst (VNumber 2) "x" TInt)] ""]
      ≤ length scenarioC.
Proof.
  apply (listSchedule_group_count scenarioC (dataflow scenarioC) oneAtATime
           (same_graph_refl _) 20).
  - intros i X Hi Hd. unfold scenarioC in Hi.
    repeat (apply elem_of_cons in Hi as [-> | Hi];
            [first [discriminate Hd | reflexivity] |]).
    by apply not_elem_of_nil in Hi.
  - reflexivity.
  - discriminate.
  - reflexivity.
Defined.

Lemma listSchedule_no_throw_witness :
  listSchedule 2 (dataflow scenarioA) startRef (λ _ _, false)
    ≠ Some (Throw "Cannot nest groups").
Proof.
  apply (listSchedule_no_throw scenarioA (dataflow scenarioA) (λ _ _, false)
           (same_graph_refl _) 2 "Cannot nest groups").
  intros i Hi. unfold scenarioA in Hi.
  repeat (apply elem_of_cons in Hi as [-> | Hi]; [reflexivity |]).
  by apply not_elem_of_nil in Hi.
Defined.

Lemma listSchedule_throws_on_nested_witness :
  listSchedule 12
    (dataflow [IConst (mkConst (VNumber 1) "x" TInt); IGroup (mkGroup [] [] "")])
    startRef (λ _ _, true)
    = Some (Throw "Cannot nest groups").
Proof.
  apply (listSchedule_throws_on_nested
           [IConst (mkConst (VNumber 1) "x" TInt); IGroup (mkGroup [] [] "")]
           (dataflow [IConst (mkConst (VNumber 1) "x" TInt);
                      IGroup (mkGroup [] [] "")])
           (λ _ _, true) (same_graph_refl _) 12 (mkGroup [] [] "")).
  - right. by left.
  - reflexivity.
  - simpl. lia.
Defined.

(** ** The earlier [dataflow] *)

Lemma add_succ_add_edge_comm (c' p c : ref) (h : list Node) :
  p ≠ 0 → c ≠ 0 →
  add_succ 0 c' (add_edge p c h) = add_edge p c (add_succ 0 c' h).
Proof.
  intros Hp Hc. unfold add_edge, add_pred, add_succ.
  rewrite (list_alter_alter_ne _ _ _ 0 c) by lia.
  by rewrite (list_alter_alter_ne _ _ _ 0 p) by lia.
Qed.

Lemma add_succ_add_edges_comm (c' c : ref) (h : list Node) (ps : list ref) :
  c ≠ 0 → (∀ p, p ∈ ps → p ≠ 0) →
  add_succ 0 c' (add_edges c h ps) = add_edges c (add_succ 0 c' h) ps.
Proof.
  intros Hc. revert h. induction ps as [| p ps IH]; intros h Hps; simpl; [done |].
  rewrite IH by (intros q Hq; apply Hps; by right).
  rewrite add_succ_add_edge_comm; [done | apply Hps; by left | done].
Qed.

Lemma Prior_read_args_heap (seen : gmap Ident ref) (cur : ref)
    (h : list Node) (args : list Ident) :
  foldl (Prior.read_arg seen cur) h args
    = add_edges cur h (omap (λ a, seen !! a) args).
Proof.
  revert h. induction args as [| a args IH]; intros h; simpl; [done |].
  rewrite IH. unfold Prior.read_arg. by destruct (seen !! a).
Qed.

Section prior_step.
Variables (tr : list Instruction) (st : Prior.DF) (i : Instruction).
Hypothesis Hok : Prior.df_ok tr st.

Lemma Prior_seen_bound (X : Ident) (p : ref) :
  Prior.seen st !! X = Some p →
  1 ≤ p ≤ length (filter (λ i, hasDest i) tr).
Proof.
  rewrite (Prior.p_seen _ _ Hok). intros Hp.
  apply last_Some_elem_of, nodesWhere_bounds in Hp. lia.
Qed.

Lemma Prior_parents_bound (p : ref) :
  p ∈ omap (λ a, Prior.seen st !! a) (default [] (instr_args i)) →
  1 ≤ p ≤ length (filter (λ i, hasDest i) tr).
Proof.
  rewrite list_elem_of_omap. intros (a & _ & Ha). by apply (Prior_seen_bound a).
Qed.

Lemma Prior_step_skip :
  instr_dest i = None →
  Prior.dataflow_step st i = st
  ∧ filter (λ i, hasDest i) (tr ++ [i]) = filter (λ i, hasDest i) tr.
Proof.
  intros Hd. split; [unfold Prior.dataflow_step; by rewrite Hd |].
  rewrite filter_app.
  rewrite filter_cons_False by (unfold hasDest; rewrite Hd; by intros []).
  by rewrite filter_nil, app_nil_r.
Qed.

Lemma Prior_step_heap (d : Ident) :
  instr_dest i = Some d →
  Prior.heap (Prior.dataflow_step st i)
    = add_edges (S (length (filter (λ i, hasDest i) tr)))
        (heap (alloc_stage i (mkDF (Prior.heap st) ∅ ∅)))
        (omap (λ a, Prior.seen st !! a) (default [] (instr_args i)))
  ∧ Prior.seen (Prior.dataflow_step st i)
    = <[d := S (length (filter (λ i, hasDest i) tr))]> (Prior.seen st)
  ∧ filter (λ i, hasDest i) (tr ++ [i]) = filter (λ i, hasDest i) tr ++ [i].
Proof.
  intros Hd. unfold Prior.dataflow_step. rewrite Hd. simpl.
  rewrite (Prior.p_len _ _ Hok). split_and!; [| done |].
  - destruct (instr_args i) as [args |] eqn:Ha; simpl.
    + rewrite Prior_read_args_heap. apply add_succ_add_edges_comm; [lia |].
      intros p Hp. pose proof (Prior_parents_bound p) as Hb.
      rewrite Ha in Hb. simpl in Hb. specialize (Hb Hp). lia.
    + done.
  - rewrite filter_app.
    rewrite filter_cons_True by (unfold hasDest; by rewrite Hd).
    by rewrite filter_nil.
Qed.

Lemma Prior_step_ok : Prior.df_ok (tr ++ [i]) (Prior.dataflow_step st i).
Proof.
  destruct (instr_dest i) as [d |] eqn:Hd.
  2:{ destruct (Prior_step_skip Hd) as [-> Hf]. destruct Hok. split; by rewrite ?Hf. }
  destruct (Prior_step_heap d Hd) as (Hheap & Hseen & Hf).
  pose proof Hok as [Hlen Hg Hinstr Hs Hfwd].
  assert (Hg0 : graph_ok (heap (mkDF (Prior.heap st) ∅ ∅))) by done.
  assert (Hlen1 : length (heap (alloc_stage i (mkDF (Prior.heap st) ∅ ∅)))
                  = S (S (length (filter (λ i, hasDest i) tr)))).
  { rewrite alloc_length. cbn [heap]. by rewrite Hlen. }
  pose proof (alloc_graph_ok _ i Hg0) as Hg1.
  split; rewrite ?Hheap, ?Hseen, ?Hf.
  - rewrite add_edges_length, Hlen1, length_app. simpl. lia.
  - apply add_edges_graph_ok; [done | lia |].
    intros p Hp. apply Prior_parents_bound in Hp. lia.
  - intros j i' Hj. rewrite add_edges_instr.
    assert (j < S (length (filter (λ i, hasDest i) tr))) as Hjlt.
    { apply lookup_lt_Some in Hj. rewrite length_app in Hj. simpl in Hj. lia. }
    rewrite alloc_instr by (done || (cbn [heap]; lia)). cbn [heap]. rewrite Hlen.
    case_decide as Hlt.
    + apply Hinstr. rewrite lookup_app_l in Hj by lia. done.
    + assert (j = length (filter (λ i, hasDest i) tr)) as -> by lia.
      rewrite list_lookup_middle in Hj by done. congruence.
  - intros X. unfold writers. rewrite nodesWhere_snoc.
    unfold writesB at 2. rewrite Hd.
    case_bool_decide as HX.
    + subst. by rewrite lookup_insert_eq, last_snoc.
    + rewrite lookup_insert_ne by done. rewrite app_nil_r. apply Hs.
  - intros p j. rewrite elem_of_add_edges_preds by lia.
    intros [Hin | [Hin ->]].
    + destruct (decide (j < S (S (length (filter (λ i, hasDest i) tr))))) as [Hj | Hj].
      * rewrite alloc_preds in Hin by (done || (cbn [heap]; lia)).
        cbn [heap] in Hin. rewrite Hlen in Hin.
        case_decide; [by apply Hfwd | by apply not_elem_of_nil in Hin].
      * rewrite lookup_total_beyond in Hin by lia.
        by apply not_elem_of_nil in Hin.
    + apply Prior_parents_bound in Hin. lia.
Qed.
End prior_step.

Lemma Prior_dataflow_state_snoc (tr : list Instruction) (i : Instruction) :
  Prior.dataflow_state (tr ++ [i])
    = Prior.dataflow_step (Prior.dataflow_state tr) i.
Proof. unfold Prior.dataflow_state. by rewrite foldl_snoc. Qed.

Lemma Prior_dataflow_state_ok (tr : list Instruction) :
  Prior.df_ok tr (Prior.dataflow_state tr).
Proof.
  induction tr as [| i tr IH] using rev_ind.
  - split; try done.
    + split; try done; simpl.
      * intros a b Ha Hb. lia.
      * intros a b Hb. assert (b = 0) as -> by lia. simpl. by rewrite elem_of_nil.
      * intros a b Ha. assert (a = 0) as -> by lia. simpl. by rewrite elem_of_nil.
    + intros p j. destruct j as [| j].
      * simpl. by rewrite elem_of_nil.
      * rewrite lookup_total_beyond by (simpl; lia). simpl. by rewrite elem_of_nil.
  - rewrite Prior_dataflow_state_snoc. by apply Prior_step_ok.
Qed.

Lemma Prior_preds_stable (pre post : list Instruction) (j : ref) :
  j ≤ length (filter (λ i, hasDest i) pre) →
  preds (Prior.dataflow (pre ++ post) !!! j) = preds (Prior.dataflow pre !!! j).
Proof.
  intros Hj. induction post as [| i post IH] using rev_ind.
  - by rewrite app_nil_r.
  - rewrite app_assoc. unfold Prior.dataflow in *.
    rewrite Prior_dataflow_state_snoc.
    pose proof (Prior_dataflow_state_ok (pre ++ post)) as Hok.
    destruct (instr_dest i) as [d |] eqn:Hd.
    2:{ by destruct (Prior_step_skip (pre ++ post)
                     (Prior.dataflow_state (pre ++ post)) i Hd) as [-> _]. }
    destruct (Prior_step_heap (pre ++ post) _ i Hok d Hd) as (-> & _ & _).
    assert (Hle : length (filter (λ i, hasDest i) pre)
                  ≤ length (filter (λ i, hasDest i) (pre ++ post))).
    { rewrite filter_app, length_app. lia. }
    rewrite add_edges_preds_other by lia.
    rewrite alloc_preds
      by (exact (Prior.p_graph _ _ Hok)
          || (cbn [heap]; rewrite (Prior.p_len _ _ Hok); lia)).
    cbn [heap]. rewrite (Prior.p_len _ _ Hok).
    rewrite decide_True by lia. done.
Qed.

Lemma Prior_preds_spec (pre post : list Instruction) (B : Instruction)
    (d : Ident) (p : ref) :
  instr_dest B = Some d →
  p ∈ preds (Prior.dataflow (pre ++ B :: post)
             !!! S (length (filter (λ i, hasDest i) pre)))
  ↔ ∃ a, readsB a B = true
       ∧ last (writers a (filter (λ i, hasDest i) pre)) = Some p.
Proof.
  intros Hd.
  pose proof (Prior_dataflow_state_ok pre) as Hok.
  destruct (Prior_step_heap pre _ B Hok d Hd) as (Hheap & _ & Hf).
  rewrite (cons_middle B pre post), app_assoc.
  rewrite Prior_preds_stable by (rewrite Hf, length_app; simpl; lia).
  unfold Prior.dataflow. rewrite Prior_dataflow_state_snoc, Hheap.
  rewrite elem_of_add_edges_preds
    by (rewrite alloc_length; cbn [heap]; rewrite (Prior.p_len _ _ Hok); lia).
  rewrite alloc_preds
    by (exact (Prior.p_graph _ _ Hok)
        || (cbn [heap]; rewrite (Prior.p_len _ _ Hok); lia)).
  cbn [heap]. rewrite (Prior.p_len _ _ Hok).
  rewrite decide_False by lia. rewrite elem_of_nil, list_elem_of_omap.
  split.
  - intros [[] | [(a & Ha & Hs) _]]. exists a.
    rewrite (Prior.p_seen _ _ Hok) in Hs. split; [| done].
    unfold readsB. destruct (instr_args B); [by apply bool_decide_eq_true_2 |].
    by apply not_elem_of_nil in Ha.
  - intros (a & Ha & Hw). right. split; [| done]. exists a. split.
    + unfold readsB in Ha. destruct (instr_args B); [| done].
      by apply bool_decide_eq_true_1 in Ha.
    + by rewrite (Prior.p_seen _ _ Hok).
Qed.

(** X22. The earlier [dataflow] registers the writer after it has looked
    up the arguments, so its graph has no cycle for any trace: every edge
    goes from a node to a strictly later one, seen from either end. *)
Theorem Prior_dataflow_acyclic (trace : list Instruction) :
  (∀ p j, p ∈ preds (Prior.dataflow trace !!! j) → 1 ≤ p < j)
  ∧ (∀ i j, 1 ≤ i → j ∈ succs (Prior.dataflow trace !!! i) → i < j).
Proof.
  pose proof (Prior_dataflow_state_ok trace) as Hok.
  pose proof (Prior.p_graph _ _ Hok) as Hg.
  unfold Prior.dataflow.
  assert (Hp : ∀ p j, p ∈ preds (Prior.heap (Prior.dataflow_state trace) !!! j) →
            1 ≤ p < j).
  { intros p j Hin. pose proof (Prior.p_forward _ _ Hok p j Hin).
    destruct (decide (j < length (Prior.heap (Prior.dataflow_state trace))))
      as [Hj | Hj].
    - pose proof (g_preds_le _ Hg p j Hj Hin). lia.
    - rewrite lookup_total_beyond in Hin by lia. by apply not_elem_of_nil in Hin. }
  split; [done |]. intros i j Hi Hin.
  destruct (decide (i < length (Prior.heap (Prior.dataflow_state trace))))
    as [Hil | Hil].
  - pose proof (g_succs_lt _ Hg i j Hil Hin) as Hj.
    apply (g_sym _ Hg) in Hin; [| lia | done]. apply Hp in Hin. lia.
  - rewrite lookup_total_beyond in Hin by lia. by apply not_elem_of_nil in Hin.
Qed.

(** X23. The earlier [dataflow] makes nodes for the instructions that have
    a destination only, in trace order; the start node lists them all;
    instructions without destination leave no trace in the graph. *)
Theorem Prior_dataflow_coverage (trace : list Instruction) :
  length (Prior.dataflow trace) = S (length (filter (λ i, hasDest i) trace))
  ∧ succs (Prior.dataflow trace !!! startRef)
    = seq 1 (length (filter (λ i, hasDest i) trace))
  ∧ (∀ j i, filter (λ i, hasDest i) trace !! j = Some i →
       instr (Prior.dataflow trace !!! S j) = Instr i)
  ∧ ∀ pre i post, instr_dest i = None →
      Prior.dataflow (pre ++ i :: post) = Prior.dataflow (pre ++ post).
Proof.
  pose proof (Prior_dataflow_state_ok trace) as Hok.
  pose proof (Prior.p_len _ _ Hok) as Hlen.
  unfold Prior.dataflow, startRef. split_and!.
  - done.
  - rewrite (g_start_succs _ (Prior.p_graph _ _ Hok)), Hlen. f_equal. lia.
  - apply (Prior.p_instr _ _ Hok).
  - intros pre i post Hd. unfold Prior.dataflow_state.
    assert (Hskip : ∀ st, Prior.dataflow_step st i = st).
    { intros st. unfold Prior.dataflow_step. by rewrite Hd. }
    rewrite !foldl_app. cbn [foldl]. by rewrite Hskip.
Qed.

(** X24. In the earlier [dataflow] the predecessors of the node of an
    instruction [B] with a destination are exactly the nearest writers,
    before [B], of the arguments of [B] -- also of an argument that [B]
    writes itself; there is no anti-dependence edge. *)
Theorem Prior_dataflow_predecessors (pre post : list Instruction)
    (B : Instruction) (d : Ident) (p : ref) :
  instr_dest B = Some d →
  p ∈ preds (Prior.dataflow (pre ++ B :: post)
             !!! S (length (filter (λ i, hasDest i) pre)))
  ↔ ∃ a, readsB a B = true
       ∧ last (writers a (filter (λ i, hasDest i) pre)) = Some p.
Proof. apply Prior_preds_spec. Qed.

Lemma Prior_dataflow_predecessors_witness :
  1 ∈ preds (Prior.dataflow
               ([IEffect (mkEffect Oprint ["x"]);
                 IConst (mkConst (VNumber 1) "x" TInt)]
                ++ IValue (mkValueOp Oadd ["x"; "x"] "x" TInt) :: [])
             !!! S (length (filter (λ i, hasDest i)
                              [IEffect (mkEffect Oprint ["x"]);
                               IConst (mkConst (VNumber 1) "x" TInt)])))
  ↔ ∃ a, readsB a (IValue (mkValueOp Oadd ["x"; "x"] "x" TInt)) = true
       ∧ last (writers a (filter (λ i, hasDest i)
                            [IEffect (mkEffect Oprint ["x"]);
                             IConst (mkConst (VNumber 1) "x" TInt)]))
         = Some 1.
Proof.
  apply (Prior_dataflow_predecessors
           [IEffect (mkEffect Oprint ["x"]);
            IConst (mkConst (VNumber 1) "x" TInt)] []
           (IValue (mkValueOp Oadd ["x"; "x"] "x" TInt)) "x" 1).
  reflexivity.
Defined.

(** ** [toGroup] on a bundle in two parts *)

(** X25. [toGroup] composes over concatenation: when both parts
    materialise, the conditions and the micro-instructions of the whole
    are those of the parts, in order, and the fail label is that of the
    last guard of the whole -- a guard in the second part overwrites the
    fail label of the first, only one label is kept. *)
Theorem toGroup_app (b1 b2 : list Instruction) (g1 g2 : Group) :
  toGroup b1 = Ok g1 → toGroup b2 = Ok g2 →
  toGroup (b1 ++ b2)
    = Ok {| conds := conds g1 ++ conds g2;
            instrs := instrs g1 ++ instrs g2;
            failLabel := default (failLabel g1) (last (omap guardFail b2)) |}.
Proof.
  unfold toGroup. rewrite !toGroup_loop_spec, existsb_app.
  destruct (existsb isGroup b1); [done |].
  destruct (existsb isGroup b2); [done |].
  intros [= <-] [= <-]. simpl. rewrite !omap_app, last_app.
  by destruct (last (omap guardFail b2)).
Qed.

Lemma toGroup_app_witness :
  toGroup ([ITrace (mkTrace (mkEffect Obr ["c"]) "l1")]
           ++ [ITrace (mkTrace (mkEffect Obr ["e"]) "l2")])
    = Ok {| conds := [Some "c"] ++ [Some "e"];
            instrs := [] ++ [];
            failLabel :=
              default "l1"
                (last (omap guardFail
                         [ITrace (mkTrace (mkEffect Obr ["e"]) "l2")])) |}.
Proof.
  apply (toGroup_app [ITrace (mkTrace (mkEffect Obr ["c"]) "l1")]
           [ITrace (mkTrace (mkEffect Obr ["e"]) "l2")]
           (mkGroup [Some "c"] [] "l1") (mkGroup [Some "e"] [] "l2"));
    reflexivity.
Defined.

(** ** A [valid] that accepts everything *)

Section greedy.
Variables (h : list Node) (valid : list Instruction → Instruction → bool).
Hypothesis Hg : graph_ok h.
Hypothesis Hinstr : ∀ j, 1 ≤ j < length h → ∃ i, instr (h !!! j) = Instr i.
Hypothesis Hall : ∀ g i, valid g i = true.

Lemma run_no_delay (fuel : nat) (sched : list Group) (bs : list (list ref)) :
  listSchedule_run fuel h startRef valid = Some (Ok (sched, bs)) →
  ∀ k b x, bs !! k = Some b → x ∈ b →
    (k = 0 ∧ preds (h !!! x) = [])
    ∨ ∃ k' b' p, k = S k' ∧ bs !! k' = Some b' ∧ p ∈ preds (h !!! x) ∧ p ∈ b'.
Proof.
  intros Hrun.
  set (fresh := λ (bsx : list (list ref)) (x : ref),
         (bsx = [] ∧ preds (h !!! x) = [])
         ∨ ∃ b p, last bsx = Some b ∧ p ∈ preds (h !!! x) ∧ p ∈ b).
  set (levels := λ (bsx : list (list ref)),
         ∀ k b x, bsx !! k = Some b → x ∈ b →
           (k = 0 ∧ preds (h !!! x) = [])
           ∨ ∃ k' b' p, k = S k' ∧ bsx !! k' = Some b'
                        ∧ p ∈ preds (h !!! x) ∧ p ∈ b').
  assert (Hclose : ∀ bsx cur, levels bsx → (∀ x, x ∈ cur → fresh bsx x) →
            levels (bsx ++ [cur])).
  { intros bsx cur Hlev Hcur k b x Hk Hx.
    destruct (decide (k < length bsx)) as [Hlt | Hge].
    - rewrite lookup_app_l in Hk by done.
      destruct (Hlev k b x Hk Hx) as [? | (k' & b' & p & -> & Hk' & Hp & Hpb)];
        [by left | right].
      exists k', b', p. split_and!; try done. rewrite lookup_app_l by lia. done.
    - assert (k = length bsx) as ->.
      { apply lookup_lt_Some in Hk. rewrite length_app in Hk. simpl in Hk. lia. }
      rewrite list_lookup_middle in Hk by done. injection Hk as <-.
      destruct (Hcur x Hx) as [[-> Hp] | (b & p & Hlast & Hp & Hpb)]; [by left |].
      right. rewrite last_lookup in Hlast.
      destruct bsx as [| b0 bsx']; [done |]. simpl in Hlast.
      exists (length bsx'), b, p. split_and!; try done.
      rewrite lookup_app_l by (simpl; lia). done. }
  refine (sched_loop_invariant h valid Hg Hinstr
           (λ st, (∀ x, x ∈ queue st → fresh (bundles st) x)
                  ∧ (∀ x, x ∈ currentNodes st → fresh (bundles st) x)
                  ∧ (∀ x, x ∈ toUpdate st →
                       ∃ p, p ∈ preds (h !!! x) ∧ p ∈ currentNodes st)
                  ∧ levels (bundles st))
           (λ r, match r with Ok (_, bs) => levels bs | Throw _ => True end)
           _ _ fuel (sched_init h startRef) (Ok (sched, bs)) _ _ Hrun);
    [| | by apply sched_init_inv |].
  - intros st st' Hinv (Hq & Hc & Hu & Hl) Hstep.
    destruct (sched_step_cases h valid Hinstr st Hinv)
      as [(n & i & Hn & Hi & Hv & Heq) | [(n & i & Hn & Hi & Hv & Heq)
          | [(_ & msg & _ & Heq) | [(_ & _ & g & _ & Heq) | (Hqe & _ & g & Hgrp & Heq)]]]];
      rewrite Heq in Hstep; try done; injection Hstep as <-; simpl.
    + pose proof (si_q_range _ _ Hinv n Hn) as Hnr. split_and!.
      * intros x Hx. apply elem_of_set_delete in Hx as [_ Hx]. by apply Hq.
      * intros x Hx. apply elem_of_app in Hx as [Hx | Hx]; [by apply Hc |].
        apply list_elem_of_singleton in Hx as ->. by apply Hq.
      * intros x Hx. apply elem_of_releaseChildren in Hx as [Hx | [Hx _]].
        -- destruct (Hu x Hx) as (p & Hp & Hpc). exists p. split; [done |].
           apply elem_of_app. by left.
        -- exists n. split.
           ++ apply (g_sym _ Hg); [lia | | done].
              eapply (g_succs_lt _ Hg); [| exact Hx]. lia.
           ++ apply elem_of_app. right. by left.
      * done.
    + by rewrite Hall in Hv.
    + split_and!.
      * intros x Hx. right. destruct (Hu x Hx) as (p & Hp & Hpc).
        exists (currentNodes st), p. by rewrite last_snoc.
      * intros x Hx. by apply not_elem_of_nil in Hx.
      * intros x Hx. by apply not_elem_of_nil in Hx.
      * by apply Hclose.
  - intros st r Hinv (Hq & Hc & Hu & Hl) Hstep.
    destruct (sched_step_cases h valid Hinstr st Hinv)
      as [(n & i & Hn & Hi & Hv & Heq) | [(n & i & Hn & Hi & Hv & Heq)
          | [(_ & msg & _ & Heq) | [(_ & _ & g & _ & Heq) | (Hqe & _ & g & Hgrp & Heq)]]]];
      rewrite Heq in Hstep; try done; injection Hstep as <-; [done |].
    by apply Hclose.
  - simpl. split_and!.
    + intros x Hx. left. split; [done |]. unfold initQueue in Hx.
      apply elem_of_initQueue_gen in Hx as [Hx | [_ Hx]]; [| done].
      by apply not_elem_of_nil in Hx.
    + intros x Hx. by apply not_elem_of_nil in Hx.
    + intros x Hx. by apply not_elem_of_nil in Hx.
    + intros k b x Hk. by rewrite lookup_nil in Hk.
Qed.
End greedy.

(** X26. When [valid] accepts every candidate, no instruction waits: the
    first bundle of a returned schedule holds nodes without predecessor
    only, and every node of a later bundle has a predecessor in the
    bundle just before. *)
Theorem listSchedule_no_delay (trace : list Instruction)
    (valid : list Instruction → Instruction → bool) (h : list Node)
    (fuel : nat) (sched : list Group) (bs : list (list ref))
    (k : nat) (b : list ref) (x : ref) :
  same_graph (dataflow trace) h →
  (∀ g i, valid g i = true) →
  listSchedule_run fuel h startRef valid = Some (Ok (sched, bs)) →
  bs !! k = Some b → x ∈ b →
  (k = 0 ∧ preds (h !!! x) = [])
  ∨ ∃ k' b' p, k = S k' ∧ bs !! k' = Some b' ∧ p ∈ preds (h !!! x) ∧ p ∈ b'.
Proof.
  intros Hsame Hall Hrun.
  apply (run_no_delay h valid (on_dataflow_graph_ok trace h Hsame)
           (on_dataflow_instr_some trace h Hsame) Hall fuel sched bs Hrun).
Qed.

Lemma listSchedule_no_delay_witness :
  (1 = 0 ∧ preds (dataflow scenarioA !!! 3) = [])
  ∨ ∃ k' b' p, 1 = S k' ∧ [[1; 2]; [3]] !! k' = Some b'
               ∧ p ∈ preds (dataflow scenarioA !!! 3) ∧ p ∈ b'.
Proof.
  apply (listSchedule_no_delay scenarioA (λ _ _, true) (dataflow scenarioA) 20
           [mkGroup [] [VConst (mkConst (VNumber 1) "x" TInt);
                        VConst (mkConst (VNumber 2) "y" TInt)] "";
            mkGroup [] [VOp (mkValueOp Oadd ["x"; "y"] "z" TInt)] ""]
           [[1; 2]; [3]] 1 [3] 3).
  - apply same_graph_refl.
  - reflexivity.
  - reflexivity.
  - reflexivity.
  - by left.
Defined.

(** ** The three steps in a row *)

Lemma dataflow_ranked (trace : list Instruction) :
  (∀ i X, i ∈ trace → instr_dest i = Some X → readsB X i = false) →
  (∀ n m, m ∈ succs (dataflow trace !!! n) →
     S (length trace) - m < S (length trace) - n)
  ∧ (∀ n m, m ∈ succs (dataflow trace !!! n) → m < length (dataflow trace)).
Proof.
  intros Hnoself.
  pose proof (dataflow_state_ok trace) as Hok.
  pose proof (df_graph _ _ Hok) as Hg.
  pose proof (df_len _ _ Hok) as Hlen.
  assert (Hlt : ∀ n m, m ∈ succs (dataflow trace !!! n) →
            n < m ∧ m < length (dataflow trace)).
  { unfold dataflow. intros n m Hm.
    destruct (decide (n < length (heap (dataflow_state trace)))) as [Hn | Hn].
    - pose proof (g_succs_lt _ Hg n m Hn Hm) as Hml. split; [| done].
      destruct (decide (n = 0)) as [-> | Hn0].
      + rewrite (g_start_succs _ Hg) in Hm. apply elem_of_seq in Hm. lia.
      + apply (g_sym _ Hg) in Hm; [| lia | done].
        pose proof (on_dataflow_forward trace (dataflow trace)
                      (same_graph_refl _) n m Hnoself Hml Hm). lia.
    - rewrite lookup_total_beyond in Hm by lia. by apply not_elem_of_nil in Hm. }
  split; intros n m Hm; destruct (Hlt n m Hm) as [Hnm Hml];
    unfold dataflow in *; lia.
Qed.

(** X27. The three steps compose.  For a trace without Group and without
    instruction that reads its own destination: [assignDagPriority] on the
    graph of [dataflow] returns, having given every node a priority of at
    least 1, and [listSchedule] on the heap it returns, with any [valid]
    that accepts a candidate on an empty bundle, returns Groups whose
    micro-instructions are the instructions of the trace that have a
    destination, each once. *)
Theorem schedule_pipeline (trace : list Instruction)
    (valid : list Instruction → Instruction → bool) (fuel : nat) :
  (∀ i, i ∈ trace → isGroup i = false) →
  (∀ i X, i ∈ trace → instr_dest i = Some X → readsB X i = false) →
  (∀ i, valid [] i = true) →
  (length trace + 1) * (length trace + 2) ≤ fuel →
  ∃ h' d sched,
    assignDagPriority (length trace + 2) (dataflow trace) startRef = Some (h', d)
    ∧ (∀ k, k ≤ length trace →
         ∃ p, priority (h' !!! k) = Some p ∧ (1 ≤ p)%Z)
    ∧ listSchedule fuel h' startRef valid = Some (Ok sched)
    ∧ vi_instr <$> concat (instrs <$> sched) ≡ₚ filter (λ i, hasDest i) trace.
Proof.
  intros Hnogrp Hnoself Hvalid Hfuel.
  destruct (dataflow_ranked trace Hnoself) as [Hacyclic Hrange].
  pose proof (df_len _ _ (dataflow_state_ok trace)) as Hlen0.
  destruct (assign_spec (dataflow trace) (λ k, S (length trace) - k)
              Hacyclic Hrange (length trace + 2) (dataflow trace) startRef
              (same_graph_refl _))
    as (h' & Hrun & Hsame & _ & Hreach).
  { unfold startRef. lia. }
  { unfold dataflow, startRef. lia. }
  exists h', (heightOf (λ k, S (length trace) - k) (dataflow trace) startRef).
  pose proof (on_dataflow_graph_ok trace h' Hsame) as Hg.
  pose proof (on_dataflow_length trace h' Hsame) as Hlen.
  pose proof (on_dataflow_instr_some trace h' Hsame) as Hinstr.
  assert (Hnogroup : ∀ j i, instr (h' !!! j) = Instr i → isGroup i = false).
  { intros j i Hi. apply Hnogrp. by apply (on_dataflow_instr_inv trace h' Hsame j). }
  destruct (listSchedule_run_terminates h' valid Hg Hinstr Hvalid Hnogroup fuel)
    as [[sched bs] Hsched].
  { rewrite Hlen. lia. }
  pose proof (listSchedule_run_final h' valid Hg Hinstr fuel _ Hsched) as Hfin.
  assert (Hperm : concat bs ≡ₚ seq 1 (length trace)).
  { replace (length trace) with (length h' - 1) by lia.
    apply (everything_scheduled h' (sched, bs) Hfin).
    intros p x. by apply (on_dataflow_forward trace h' Hsame). }
  exists sched. split_and!.
  - done.
  - intros k Hk. eexists. split.
    + apply Hreach. apply dataflow_all_reachable. unfold dataflow. lia.
    + by apply heightOf_pos.
  - unfold listSchedule. by rewrite Hsched.
  - rewrite (groups_instrs h' bs sched (sf_groups _ _ Hfin)).
    rewrite Hperm. by rewrite (on_dataflow_instrs trace h' Hsame).
Qed.

Lemma schedule_pipeline_witness :
  ∃ h' d sched,
    assignDagPriority (length scenarioA + 2) (dataflow scenarioA) startRef
      = Some (h', d)
    ∧ (∀ k, k ≤ length scenarioA →
         ∃ p, priority (h' !!! k) = Some p ∧ (1 ≤ p)%Z)
    ∧ listSchedule 20 h' startRef oneAtATime = Some (Ok sched)
    ∧ vi_instr <$> concat (instrs <$> sched)
      ≡ₚ filter (λ i, hasDest i) scenarioA.
Proof.
  apply (schedule_pipeline scenarioA oneAtATime 20).
  - intros i Hi. unfold scenarioA in Hi.
    repeat (apply elem_of_cons in Hi as [-> | Hi]; [reflexivity |]).
    by apply not_elem_of_nil in Hi.
  - intros i X Hi Hd. unfold scenarioA in Hi.
    repeat (apply elem_of_cons in Hi as [-> | Hi];
            [first [discriminate Hd | (injection Hd as <-; reflexivity)] |]).
    by apply not_elem_of_nil in Hi.
  - reflexivity.
  - simpl. lia.
Defined.

(** ** Sample worklists *)

Lemma PQueue_next_greatest_witness :
  ∃ l1 x l2,
    [0; 1; 2] = l1 ++ x :: l2
    ∧ PQueue_next
        (byPriority [mkNode [] [] Start (Some 3%Z); mkNode [] [] Start (Some 5%Z);
                     mkNode [] [] Start (Some 5%Z)]) [0; 1; 2]
      = (Some x, set_delete x [0; 1; 2])
    ∧ (∀ y, y ∈ l1 →
         (prioOf [mkNode [] [] Start (Some 3%Z); mkNode [] [] Start (Some 5%Z);
                  mkNode [] [] Start (Some 5%Z)] y
          < prioOf [mkNode [] [] Start (Some 3%Z); mkNode [] [] Start (Some 5%Z);
                    mkNode [] [] Start (Some 5%Z)] x)%Z)
    ∧ (∀ y, y ∈ l2 →
         (prioOf [mkNode [] [] Start (Some 3%Z); mkNode [] [] Start (Some 5%Z);
                  mkNode [] [] Start (Some 5%Z)] y
          ≤ prioOf [mkNode [] [] Start (Some 3%Z); mkNode [] [] Start (Some 5%Z);
                    mkNode [] [] Start (Some 5%Z)] x)%Z).
Proof.
  apply (PQueue_next_greatest
           [mkNode [] [] Start (Some 3%Z); mkNode [] [] Start (Some 5%Z);
            mkNode [] [] Start (Some 5%Z)] [0; 1; 2]).
  - discriminate.
  - intros y Hy.
    repeat (apply elem_of_cons in Hy as [-> | Hy]; [reflexivity |]).
    by apply not_elem_of_nil in Hy.
Defined.

Lemma Prior_PQueue_next_least_witness :
  ∃ l1 x l2,
    [0; 1; 2] = l1 ++ x :: l2
    ∧ PQueue_next
        (Prior.byPriority
           [mkNode [] [] Start (Some 3%Z); mkNode [] [] Start (Some 5%Z);
            mkNode [] [] Start (Some 2%Z)]) [0; 1; 2]
      = (Some x, set_delete x [0; 1; 2])
    ∧ (∀ y, y ∈ l1 →
         (prioOf [mkNode [] [] Start (Some 3%Z); mkNode [] [] Start (Some 5%Z);
                  mkNode [] [] Start (Some 2%Z)] x
          < prioOf [mkNode [] [] Start (Some 3%Z); mkNode [] [] Start (Some 5%Z);
                    mkNode [] [] Start (Some 2%Z)] y)%Z)
    ∧ (∀ y, y ∈ l2 →
         (prioOf [mkNode [] [] Start (Some 3%Z); mkNode [] [] Start (Some 5%Z);
                  mkNode [] [] Start (Some 2%Z)] x
          ≤ prioOf [mkNode [] [] Start (Some 3%Z); mkNode [] [] Start (Some 5%Z);
                    mkNode [] [] Start (Some 2%Z)] y)%Z).
Proof.
  apply (Prior_PQueue_next_least
           [mkNode [] [] Start (Some 3%Z); mkNode [] [] Start (Some 5%Z);
            mkNode [] [] Start (Some 2%Z)] [0; 1; 2]).
  - discriminate.
  - intros y Hy.
    repeat (apply elem_of_cons in Hy as [-> | Hy]; [reflexivity |]).
    by apply not_elem_of_nil in Hy.
Defined.
